(** * A shallow embedding of the TextMate grammar interpreter

    The development follows [textmate_grammar/parser.py]: the parser classes
    [TokenParser], [MatchParser], [PatternsParser] and [BeginEndParser], their
    [_parse] methods and [initialize_repository].  Parser objects live in a
    store (a list indexed by reference), so that sharing and cycles of the
    parser graph are kept.  The text buffer ([ContentHandler]), the regular
    expression engine and [LanguageParser] are collaborators whose code is
    not part of [parser.py]; they enter through records of operations. *)

From Stdlib Require Import ZArith String Ascii List Lia Bool.
From stdpp Require Import base option list gmap strings.

Local Open Scope Z_scope.
Set Warnings "-register-all".

(** ** Positions *)

(** A POS is a Python tuple [(line, column)] of integers, compared
    lexicographically. *)
Definition POS : Type := Z * Z.

Definition pos_eqb (p q : POS) : bool := (p.1 =? q.1) && (p.2 =? q.2).
Definition pos_ltb (p q : POS) : bool :=
  (p.1 <? q.1) || ((p.1 =? q.1) && (p.2 <? q.2)).
Definition pos_leb (p q : POS) : bool :=
  (p.1 <? q.1) || ((p.1 =? q.1) && (p.2 <=? q.2)).

Definition span : Type := POS * POS.

(** ** Python helpers *)

(** [l[i]] with Python's negative indices; [None] stands for IndexError. *)
Definition py_index {A} (l : list A) (i : Z) : option A :=
  if 0 <=? i then l !! Z.to_nat i
  else if - Z.of_nat (length l) <=? i then l !! Z.to_nat (Z.of_nat (length l) + i)
  else None.

(** A character of a string is a code point below 256.  Those for which
    [str.isspace] holds: tab to carriage return (9 to 13), the separators
    U+001C to U+001F, the space, the next-line character U+0085 and the
    no-break space U+00A0. *)
Definition is_space_char (c : ascii) : bool :=
  let n := Z.of_nat (nat_of_ascii c) in
  ((9 <=? n) && (n <=? 13)) || ((28 <=? n) && (n <=? 32)) || (n =? 133) || (n =? 160).

Fixpoint all_space (s : string) : bool :=
  match s with
  | EmptyString => true
  | String c s' => is_space_char c && all_space s'
  end.

(** [str.isspace()]: at least one character and all of them whitespace. *)
Definition isspace (s : string) : bool :=
  match s with
  | EmptyString => false
  | _ => all_space s
  end.

(** Truth value of a string. *)
Definition nonempty (s : string) : bool :=
  match s with EmptyString => false | _ => true end.

Definition newline : string := String (ascii_of_nat 10) EmptyString.

(** ** Data model *)

(** A parser reference: the index of the parser object in the store. *)
Abbreviation ref := nat.

(** A compiled Oniguruma pattern, known by its source text ([_pattern]). *)
Record Pattern := { _pattern : string }.

(** A match object; [group] is the matched text, [matching.group()]. *)
Record Match := { group : string }.

(** The keyword arguments that travel through [**kwargs]; an absent keyword
    is [None]. *)
Record kwargs := {
  kw_allow_leading_all : option bool;
  kw_find_one : option bool;
  kw_injections : option bool
}.

Definition no_kwargs : kwargs :=
  {| kw_allow_leading_all := None; kw_find_one := None; kw_injections := None |}.

(** What a slot of [patterns] or of a captures dictionary can hold: a parser
    object, the string that [GrammarParser.initialize] returns for an
    [include], or [None] (what [repository.get(name, None)] gives for an
    absent name). *)
Inductive slot :=
| Parser (r : ref)
| Include (key : string)
| PyNone.

Inductive cls :=
| TokenParser
| MatchParser
| PatternsParser
| BeginEndParser
| BeginWhileParser
| LanguageParser.

Global Instance cls_eq_dec : EqDecision cls.
Proof. solve_decision. Defined.

(** A parser object with the attributes its class sets in [__init__].  The
    attributes of the other classes are left at their defaults. *)
Record GrammarParser := {
  class : cls;
  language : option ref;
  key : string;
  token : option string;
  comment : string;
  disabled : bool;
  initialized : bool;
  anchored : bool;
  injected_patterns : list ref;
  (* MatchParser *)
  exp_match : Pattern;
  parsers : list (Z * slot);
  (* PatternsParser and its subclasses *)
  patterns : list slot;
  (* BeginEndParser *)
  between_content : bool;
  apply_end_pattern_last : bool;
  exp_begin : Pattern;
  exp_end : Pattern;
  parsers_begin : list (Z * slot);
  parsers_end : list (Z * slot);
  (* LanguageParser *)
  repository : gmap string ref
}.

(** [needle in hay] on strings. *)
Fixpoint contains (needle hay : string) : bool :=
  String.prefix needle hay
  || match hay with
     | EmptyString => false
     | String _ rest => contains needle rest
     end.

(** [GrammarParser.__init__]: the attributes every parser starts with, from
    the entries [name], [comment] and [disabled] of its grammar. *)
Definition GrammarParser_init (c : cls) (language : option ref) (key name comment : string)
    (disabled : bool) : GrammarParser :=
  {| class := c; language := language; key := key; token := Some name;
     comment := comment; disabled := disabled; initialized := false;
     anchored := false; injected_patterns := [];
     exp_match := {| _pattern := EmptyString |}; parsers := []; patterns := [];
     between_content := false; apply_end_pattern_last := false;
     exp_begin := {| _pattern := EmptyString |};
     exp_end := {| _pattern := EmptyString |};
     parsers_begin := []; parsers_end := []; repository := ∅ |}.

(** [TokenParser.__init__] *)
Definition TokenParser_init (language : option ref) (key name comment : string)
    (disabled : bool) : GrammarParser :=
  let p := GrammarParser_init TokenParser language key name comment disabled in
  {| class := class p; language := language; key := key; token := token p;
     comment := comment; disabled := disabled; initialized := true;
     anchored := anchored p; injected_patterns := injected_patterns p;
     exp_match := exp_match p; parsers := parsers p; patterns := patterns p;
     between_content := between_content p;
     apply_end_pattern_last := apply_end_pattern_last p;
     exp_begin := exp_begin p; exp_end := exp_end p;
     parsers_begin := parsers_begin p; parsers_end := parsers_end p;
     repository := repository p |}.

(** [MatchParser.__init__]: [match_] is [grammar["match"]] and [captures] the
    parsers made from [grammar["captures"]]. *)
Definition MatchParser_init (language : option ref) (key name comment : string)
    (disabled : bool) (match_ : string) (captures : list (Z * slot)) : GrammarParser :=
  let p := GrammarParser_init MatchParser language key name comment disabled in
  {| class := class p; language := language; key := key; token := token p;
     comment := comment; disabled := disabled; initialized := initialized p;
     anchored := if contains "\G" match_ then true else anchored p;
     injected_patterns := injected_patterns p;
     exp_match := {| _pattern := match_ |}; parsers := captures;
     patterns := patterns p; between_content := between_content p;
     apply_end_pattern_last := apply_end_pattern_last p;
     exp_begin := exp_begin p; exp_end := exp_end p;
     parsers_begin := parsers_begin p; parsers_end := parsers_end p;
     repository := repository p |}.

(** [PatternsParser.__init__]: [patterns] holds what [initialize] returns for
    each entry of [grammar["patterns"]]. *)
Definition PatternsParser_init (language : option ref) (key name comment : string)
    (disabled : bool) (patterns : list slot) : GrammarParser :=
  let p := GrammarParser_init PatternsParser language key name comment disabled in
  {| class := class p; language := language; key := key; token := token p;
     comment := comment; disabled := disabled; initialized := initialized p;
     anchored := anchored p; injected_patterns := injected_patterns p;
     exp_match := exp_match p; parsers := parsers p; patterns := patterns;
     between_content := between_content p;
     apply_end_pattern_last := apply_end_pattern_last p;
     exp_begin := exp_begin p; exp_end := exp_end p;
     parsers_begin := parsers_begin p; parsers_end := parsers_end p;
     repository := repository p |}.

(** [BeginEndParser.__init__]: [contentName] and [name] are the entries of
    the grammar ([None] when absent), [begin_] and [end_] its patterns. *)
Definition BeginEndParser_init (language : option ref) (key : string)
    (contentName name : option string) (comment : string) (disabled : bool)
    (applyEndPatternLast : bool) (begin_ end_ : string) (patterns : list slot)
    (beginCaptures endCaptures : list (Z * slot)) : GrammarParser :=
  let p := PatternsParser_init language key (default EmptyString name) comment disabled
             patterns in
  {| class := BeginEndParser; language := language; key := key;
     token := match contentName with
              | Some c => Some c
              | None => name
              end;
     comment := comment; disabled := disabled; initialized := initialized p;
     anchored := if contains "\G" begin_ then true else anchored p;
     injected_patterns := injected_patterns p;
     exp_match := exp_match p; parsers := parsers p; patterns := patterns;
     between_content := match contentName with
                        | Some _ => true
                        | None => false
                        end;
     apply_end_pattern_last := applyEndPatternLast;
     exp_begin := {| _pattern := begin_ |}; exp_end := {| _pattern := end_ |};
     parsers_begin := beginCaptures; parsers_end := endCaptures;
     repository := repository p |}.

(** [parser.injected_patterns = injected], as the language does for its
    injections. *)
Definition with_injected (p : GrammarParser) (injected : list ref) : GrammarParser :=
  {| class := class p; language := language p; key := key p; token := token p;
     comment := comment p; disabled := disabled p; initialized := initialized p;
     anchored := anchored p; injected_patterns := injected;
     exp_match := exp_match p; parsers := parsers p; patterns := patterns p;
     between_content := between_content p;
     apply_end_pattern_last := apply_end_pattern_last p;
     exp_begin := exp_begin p; exp_end := exp_end p;
     parsers_begin := parsers_begin p; parsers_end := parsers_end p;
     repository := repository p |}.

(** Truth value of [self.token]: [None] and the empty string are false. *)
Definition token_set (t : option string) : bool :=
  match t with
  | Some s => nonempty s
  | None => false
  end.

(** The elements a parser emits.  [Captures] is the deferred capture object
    that [match_and_capture] builds; [parse_captures] resolves it later. *)
Inductive element :=
| ContentElement (token : option string) (grammar : ref) (content : string)
    (indices : list POS) (captures : list element)
| ContentBlockElement (token : option string) (grammar : ref) (content : string)
    (indices : list POS) (captures begin end_ : list element)
| Captures (pattern : Pattern) (matching : Match) (parsers : list (Z * slot))
    (starting : POS) (boundary : option POS) (kw : kwargs).

(** ** Results, exceptions and state *)

Inductive exn :=
| IncludedParserNotFound (key : string)
| AttributeError
| TypeError
| IndexError
| ValueError
| NotImplementedError
| DanglingReference. (* a reference outside the store; not a Python error *)

Inductive res (A : Type) :=
| Ok (a : A)
| Raise (e : exn)
| OutOfFuel.
Arguments Ok {A} a.
Arguments Raise {A} e.
Arguments OutOfFuel {A}.

(** State passing with exceptions. *)
Definition St (S A : Type) : Type := S → res (A * S).

Global Instance St_ret {S} : MRet (St S) := λ A a s, Ok (a, s).
Global Instance St_bind {S} : MBind (St S) := λ A B f m s,
  match m s with
  | Ok (a, s') => f a s'
  | Raise e => Raise e
  | OutOfFuel => OutOfFuel
  end.

Definition raise {S A} (e : exn) : St S A := λ _, Raise e.
Definition out_of_fuel {S A} : St S A := λ _, OutOfFuel.
Definition get {S} : St S S := λ s, Ok (s, s).
Definition put {S} (s : S) : St S unit := λ _, Ok (tt, s).

(** ** Logging *)

Inductive level := DEBUG | INFO | WARNING.

(** The messages of the [LOGGER] calls of [parser.py]; the class name in the
    text of a message is that of the logging parser. *)
Inductive message :=
| Found (content : string)            (* found < content > *)
| NoMatch                             (* no match *)
| FoundSingleElement                  (* found single element *)
| DidNotMove                          (* handler did not move after a search round *)
| NoBeginMatch                        (* no begin match *)
| FoundBegin                          (* found begin *)
| FoundPatternNoWs                    (* found pattern (no ws) *)
| FoundPatternWs                      (* found pattern (ws) *)
| BothAccepted                        (* capture+end: both accepted, break *)
| EndPrioritized                      (* capture+end: end prioritized, break *)
| CapturePrioritized                  (* capture+end: capture prioritized, continue *)
| LeadingCapture                      (* capture<end: leading capture, continue *)
| LeadingEnd                          (* end<capture: leading end, break *)
| EndBreak                            (* end: break *)
| CaptureNextIsNewline                (* capture: next is newline, continue *)
| CaptureContinue                     (* capture: continue *)
| NoPatternsInLine (line : string).   (* No patterns found in line, skipping < line > *)

Record log_record := {
  log_level : level;
  log_message : message;
  log_parser : ref;
  log_position : POS;
  log_verbosity : Z
}.

(** The value of [handler.anchor], a dynamically typed attribute. *)
Inductive anchor_value :=
| AnchorInt (column : Z)
| AnchorPos (p : POS).

(** What parsing mutates: the handler's anchor and the log. *)
Record pstate := {
  anchor : anchor_value;
  log : list log_record
}.

Definition LOGGER (l : level) (m : message) (self : ref) (p : POS) (verbosity : Z)
  : St pstate unit :=
  λ s, Ok (tt, {| anchor := anchor s;
                  log := log s ++ [{| log_level := l; log_message := m; log_parser := self;
                                      log_position := p; log_verbosity := verbosity |}] |}).

Definition set_anchor (a : anchor_value) : St pstate unit :=
  λ s, Ok (tt, {| anchor := a; log := log s |}).

Definition is_warning (r : log_record) : bool :=
  match log_level r with WARNING => true | _ => false end.

(** ** The content handler *)

(** Modelled from the spec: [ContentHandler] ([handler.py] is not part of the
    sources).  Its operations are those section 4.1 of the specification
    lists; all are pure except [search], which reads and updates the anchor
    and returns the match with its span, or nothing. *)
Record ContentHandler := {
  lines : list string;
  line_lengths : list Z;
  next : POS → POS;
  prev : POS → POS;
  range : POS → POS → list POS;
  read_pos : POS → POS → string;
  read_line : POS → string;
  read_length : POS → Z → bool → string;
  search : anchor_value → Pattern → POS → option POS → kwargs
           → option (Match * span) * anchor_value
}.

Definition handler_search (h : ContentHandler) (pattern : Pattern) (starting : POS)
    (boundary : option POS) (kw : kwargs) : St pstate (option (Match * span)) :=
  λ s, let '(r, a) := search h (anchor s) pattern starting boundary kw in
       Ok (r, {| anchor := a; log := log s |}).

(** [(len(handler.lines) - 1, handler.line_lengths[-1])], the boundary used
    when none is given. *)
Definition end_of_buffer {S} (h : ContentHandler) : St S POS :=
  match py_index (line_lengths h) (-1) with
  | Some n => mret (Z.of_nat (length (lines h)) - 1, n)
  | None => raise IndexError
  end.

(** [if boundary is None: boundary = (len(handler.lines) - 1,
    handler.line_lengths[-1])] *)
Definition boundary_or_end {S} (h : ContentHandler) (boundary : option POS) : St S POS :=
  match boundary with
  | Some b => mret b
  | None => end_of_buffer h
  end.

(** ** Parsing *)

(** What [_parse] returns: [(parsed, elements, span)]. *)
Definition parse_result : Type := bool * list element * option span.

(** Reading [span[1]]: TypeError when [span] is [None]. *)
Definition span_end {S} (sp : option span) : St S POS :=
  match sp with
  | Some s => mret s.2
  | None => raise TypeError
  end.

(** [parser.attr] for a slot: a string or [None] has no parser attribute. *)
Definition attr {S A} (store : list GrammarParser) (f : GrammarParser → A) (sl : slot)
  : St S A :=
  match sl with
  | Parser r =>
      match store !! r with
      | Some p => mret (f p)
      | None => raise DanglingReference
      end
  | _ => raise AttributeError
  end.

(** [[parser for parser in patterns if not parser.disabled]] *)
Fixpoint enabled_patterns {S} (store : list GrammarParser) (patterns : list slot)
  : St S (list ref) :=
  match patterns with
  | [] => mret []
  | sl :: rest =>
      d ← attr store disabled sl;
      ps ← enabled_patterns store rest;
      mret (match sl with
            | Parser r => if d : bool then ps else r :: ps
            | _ => ps
            end)
  end.

(** [[parser for parser in patterns if not parser.anchored]], on parsers of
    the store. *)
Definition is_anchored (store : list GrammarParser) (r : ref) : bool :=
  match store !! r with
  | Some p => anchored p
  | None => false
  end.

Definition not_anchored (store : list GrammarParser) (patterns : list ref) : list ref :=
  List.filter (λ r, negb (is_anchored store r)) patterns.

Section Parsers.
Context (h : ContentHandler) (store : list GrammarParser).

(** [GrammarParser.match_and_capture] *)
Definition match_and_capture (pattern : Pattern) (starting : POS)
    (boundary : option POS) (parsers : list (Z * slot)) (kw : kwargs)
  : St pstate (option span * string * list element) :=
  r ← handler_search h pattern starting boundary kw;
  match r with
  | Some (matching, sp) =>
      mret (Some sp, group matching,
            [Captures pattern matching parsers starting boundary kw])
  | None => mret (None, EmptyString, [])
  end.

(** [TokenParser._parse].  A missing boundary fails at [boundary[1]] at the
    latest. *)
Definition TokenParser_parse (self : ref) (p : GrammarParser) (starting : POS)
    (boundary : option POS) (verbosity : Z) : St pstate parse_result :=
  match boundary with
  | None => raise TypeError
  | Some boundary =>
      let content := read_pos h starting boundary in
      let elements :=
        [ContentElement (token p) self content (range h starting boundary) []] in
      _ ← set_anchor (AnchorInt boundary.2);
      _ ← LOGGER INFO (Found content) self starting verbosity;
      mret (true, elements, Some (starting, boundary))
  end.

(** [MatchParser._parse] *)
Definition MatchParser_parse (self : ref) (p : GrammarParser) (starting : POS)
    (boundary : option POS) (verbosity : Z) (kw : kwargs) : St pstate parse_result :=
  '(sp, content, captures) ←
    match_and_capture (exp_match p) starting boundary (parsers p) kw;
  match sp with
  | None =>
      _ ← LOGGER DEBUG NoMatch self starting verbosity;
      mret (false, [], None)
  | Some sp =>
      _ ← LOGGER INFO (Found content) self starting verbosity;
      let elements :=
        if token_set (token p)
        then [ContentElement (token p) self content (range h sp.1 sp.2) captures]
        else captures in
      mret (true, elements, Some sp)
  end.

Section Children.
(** [parser._parse(handler, current, boundary=boundary, verbosity=...,
    **kwargs)] on a child parser. *)
Variable child : ref → POS → option POS → Z → kwargs → St pstate parse_result.

(** [for parser in patterns: ... if parsed: ... break]: the first parser
    that succeeds, with what it returned. *)
Fixpoint try_patterns (patterns : list ref) (current boundary : POS)
    (verbosity : Z) (kw : kwargs)
  : St pstate (option (ref * list element * option span)) :=
  match patterns with
  | [] => mret None
  | parser :: rest =>
      '(parsed, captures, sp) ← child parser current (Some boundary) verbosity kw;
      if parsed : bool then mret (Some (parser, captures, sp))
      else try_patterns rest current boundary verbosity kw
  end.

(** *** PatternsParser *)

(** The candidate list of [PatternsParser._parse]. *)
Definition search_set (p : GrammarParser) (find_one injections : bool)
  : St pstate (list ref) :=
  patterns ← enabled_patterns store (patterns p);
  mret (if find_one || injections then patterns ++ injected_patterns p
        else patterns).

(** How one round of the [while] loop ends. *)
Inductive round_result :=
| RoundReturn (r : parse_result)                       (* return *)
| RoundBreak (elements : list element) (current : POS) (* break *)
| RoundNext (elements : list element) (current : POS). (* back to the loop test *)

Definition kw_child (allow_leading_all : bool) : kwargs :=
  {| kw_allow_leading_all := Some allow_leading_all;
     kw_find_one := None; kw_injections := None |}.

(** The tail of a round in which a child parsed (with [find_one] false):
    consume it, then the test [current == starting]. *)
Definition consume (self : ref) (starting : POS) (verbosity : Z)
    (elements captures : list element) (sp : option span)
  : St pstate round_result :=
  current ← span_end sp;
  let elements := elements ++ captures in
  if pos_eqb current starting
  then _ ← LOGGER WARNING DidNotMove self starting verbosity;
       mret (RoundBreak elements current)
  else mret (RoundNext elements current).

(** The body of the [while] loop of [PatternsParser._parse]. *)
Definition PatternsParser_round (self : ref) (patterns : list ref)
    (starting boundary : POS) (allow_leading_all find_one : bool) (verbosity : Z)
    (elements : list element) (current : POS) : St pstate round_result :=
  r ← try_patterns patterns current boundary (verbosity + 1)
        (kw_child allow_leading_all);
  match r with
  | Some (_, captures, sp) =>
      if find_one
      then _ ← LOGGER INFO FoundSingleElement self current verbosity;
           mret (RoundReturn (true, captures, sp))
      else consume self starting verbosity elements captures sp
  | None =>
      if find_one then mret (RoundBreak elements current)
      else
        let second_try_patterns := if allow_leading_all then [] else patterns in
        r ← try_patterns second_try_patterns current boundary (verbosity + 1)
              (kw_child true);
        match r with
        | Some (_, captures, sp) =>
            consume self starting verbosity elements captures sp
        | None => mret (RoundBreak elements current)
        end
  end.

(** [return bool(elements), elements, (starting, current)] *)
Definition PatternsParser_result (starting : POS) (elements : list element)
    (current : POS) : parse_result :=
  (match elements with [] => false | _ => true end, elements,
   Some (starting, current)).

(** [while current < boundary: ...], with the rounds counted by [fuel]. *)
Fixpoint PatternsParser_loop (fuel : nat) (self : ref) (patterns : list ref)
    (starting boundary : POS) (allow_leading_all find_one : bool) (verbosity : Z)
    (elements : list element) (current : POS) : St pstate parse_result :=
  if pos_ltb current boundary then
    match fuel with
    | O => out_of_fuel
    | S fuel =>
        r ← PatternsParser_round self patterns starting boundary
              allow_leading_all find_one verbosity elements current;
        match r with
        | RoundReturn r => mret r
        | RoundBreak elements current =>
            mret (PatternsParser_result starting elements current)
        | RoundNext elements current =>
            PatternsParser_loop fuel self patterns starting boundary
              allow_leading_all find_one verbosity elements current
        end
    end
  else mret (PatternsParser_result starting elements current).

(** [PatternsParser._parse] *)
Definition PatternsParser_parse (fuel : nat) (self : ref) (p : GrammarParser)
    (starting : POS) (boundary : option POS) (verbosity : Z) (kw : kwargs)
  : St pstate parse_result :=
  let allow_leading_all := default false (kw_allow_leading_all kw) in
  let find_one := default true (kw_find_one kw) in
  let injections := default false (kw_injections kw) in
  boundary ← boundary_or_end h boundary;
  patterns ← search_set p find_one injections;
  PatternsParser_loop fuel self patterns starting boundary allow_leading_all
    find_one verbosity [] (starting.1, starting.2).

(** *** BeginEndParser *)

(** The variables of the [while] loop of [BeginEndParser._parse]. *)
Record loop_state := {
  loop_current : POS;
  loop_patterns : list ref;
  loop_first_run : bool;
  loop_mid_elements : list element;
  loop_end_elements : list element
}.

(** What the searches of one iteration leave: [parsed] with
    [capture_elements] and [capture_span], the iteration-local
    [apply_end_pattern_last], [end_span] and [end_elements]. *)
Record found := {
  found_capture : option (list element * span);
  found_recursed : bool;
  found_end_span : option span;
  found_end_elements : list element
}.

(** The keywords a BeginEndParser hands to its children: its own
    [**kwargs] and [allow_leading_all]. *)
Definition kw_allow (kw : kwargs) (allow_leading_all : bool) : kwargs :=
  {| kw_allow_leading_all := Some allow_leading_all;
     kw_find_one := kw_find_one kw; kw_injections := kw_injections kw |}.

(** One pass over the patterns: the capture of the first child that
    parses, and whether that child is the parser itself. *)
Definition search_patterns (self : ref) (patterns : list ref)
    (current boundary : POS) (allow_leading_all : bool) (verbosity : Z)
    (kw : kwargs) : St pstate (option (list element * span) * bool) :=
  r ← try_patterns patterns current boundary (verbosity + 1)
        (kw_allow kw allow_leading_all);
  match r with
  | Some (parser, capture_elements, capture_span) =>
      _ ← LOGGER DEBUG
            (if allow_leading_all then FoundPatternWs else FoundPatternNoWs)
            self current verbosity;
      capture_span ← match capture_span with
                     | Some sp => mret sp
                     | None => raise TypeError
                     end;
      mret (Some (capture_elements, capture_span), bool_decide (parser = self))
  | None => mret (None, false)
  end.

(** The searches of one iteration: patterns and end pattern without
    leading characters and, when both fail, once more with them. *)
Definition find_capture_and_end (self : ref) (p : GrammarParser)
    (patterns : list ref) (current boundary : POS) (verbosity : Z) (kw : kwargs)
  : St pstate found :=
  '(capture, recursed) ←
    search_patterns self patterns current boundary false verbosity kw;
  '(end_span, _, end_elements) ←
    match_and_capture (exp_end p) current (Some boundary) (parsers_end p)
      (kw_child false);
  match capture, end_span with
  | None, None =>
      '(capture, recursed) ←
        search_patterns self patterns current boundary true verbosity kw;
      '(end_span, _, end_elements) ←
        match_and_capture (exp_end p) current (Some boundary) (parsers_end p)
          (kw_child true);
      mret {| found_capture := capture; found_recursed := recursed;
              found_end_span := end_span; found_end_elements := end_elements |}
  | _, _ =>
      mret {| found_capture := capture; found_recursed := recursed;
              found_end_span := end_span; found_end_elements := end_elements |}
  end.

(** [closing = end_span[0] if self.between_content else end_span[1]] *)
Definition closing_of (p : GrammarParser) (end_span : span) : POS :=
  if between_content p then end_span.1 else end_span.2.

(** Whether the capture closes where the end pattern does. *)
Definition pattern_at_end (capture_span end_span : span) : bool :=
  let capture_before_end := prev h capture_span.2 in
  if String.eqb (read_length h capture_before_end 1 false) newline
  then pos_eqb end_span.2 capture_before_end || pos_eqb end_span.2 capture_span.2
  else pos_eqb end_span.2 capture_span.2.

(** The outcome of the decision of one iteration. *)
Inductive decision :=
| Close (closing : POS) (end_span : span) (mid_elements : list element)
| Advance (current : POS) (mid_elements : list element).

(** The decision between capture and end pattern, from [if end_span:] to
    the end of its [else]. *)
Definition arbitrate (self : ref) (p : GrammarParser) (verbosity : Z)
    (current boundary : POS) (mid_elements : list element) (f : found)
  : St pstate decision :=
  match found_end_span f, found_capture f with
  | Some end_span, Some (capture_elements, capture_span) =>
      let end_before_pattern := pos_leb end_span.1 capture_span.1 in
      let empty_span_end := pos_eqb end_span.2 end_span.1 in
      if pattern_at_end capture_span end_span && (end_before_pattern || empty_span_end)
      then
        if empty_span_end then
          _ ← LOGGER DEBUG BothAccepted self current verbosity;
          mret (Close (closing_of p end_span) end_span
                  (mid_elements ++ capture_elements))
        else if negb (apply_end_pattern_last p) && negb (found_recursed f) then
          _ ← LOGGER DEBUG EndPrioritized self current verbosity;
          mret (Close (closing_of p end_span) end_span mid_elements)
        else
          _ ← LOGGER DEBUG CapturePrioritized self current verbosity;
          mret (Advance capture_span.2 (mid_elements ++ capture_elements))
      else if pos_ltb capture_span.1 end_span.1 then
        _ ← LOGGER DEBUG LeadingCapture self current verbosity;
        mret (Advance capture_span.2 (mid_elements ++ capture_elements))
      else
        _ ← LOGGER DEBUG LeadingEnd self current verbosity;
        mret (Close (closing_of p end_span) end_span mid_elements)
  | Some end_span, None =>
      _ ← LOGGER DEBUG EndBreak self current verbosity;
      mret (Close (closing_of p end_span) end_span mid_elements)
  | None, Some (capture_elements, capture_span) =>
      let mid_elements := mid_elements ++ capture_elements in
      if String.eqb (read_length h capture_span.2 1 false) newline then
        _ ← LOGGER DEBUG CaptureNextIsNewline self current verbosity;
        '(end_span, _, _) ←
          match_and_capture (exp_end p) capture_span.2 (Some boundary)
            (parsers_end p) (kw_child false);
        match end_span with
        | Some end_span =>
            if pos_leb end_span.2 (next h capture_span.2)
            then mret (Advance capture_span.2 mid_elements)
            else mret (Advance (next h capture_span.2) mid_elements)
        | None => mret (Advance (next h capture_span.2) mid_elements)
        end
      else
        _ ← LOGGER DEBUG CaptureContinue self current verbosity;
        mret (Advance capture_span.2 mid_elements)
  | None, None =>
      let line := read_line h current in
      _ ← (if nonempty line && negb (isspace line)
           then LOGGER WARNING (NoPatternsInLine line) self current verbosity
           else mret ());
      match py_index (line_lengths h) current.1 with
      | Some n => mret (Advance (next h (current.1, n)) mid_elements)
      | None => raise IndexError
      end
  end.

(** How one iteration of the loop ends, and how the loop ends. *)
Inductive iteration_result :=
| Break (closing : POS) (end_span : span) (mid_elements end_elements : list element)
| Continue (st : loop_state).

(** The body of the [while] loop of [BeginEndParser._parse]. *)
Definition BeginEndParser_iteration (self : ref) (p : GrammarParser)
    (boundary : POS) (verbosity : Z) (kw : kwargs) (st : loop_state)
  : St pstate iteration_result :=
  f ← find_capture_and_end self p (loop_patterns st) (loop_current st) boundary
        verbosity kw;
  d ← arbitrate self p verbosity (loop_current st) boundary (loop_mid_elements st) f;
  match d with
  | Close closing end_span mid_elements =>
      mret (Break closing end_span mid_elements (found_end_elements f))
  | Advance current mid_elements =>
      let current := if found_recursed f then next h current else current in
      let patterns := if loop_first_run st
                      then not_anchored store (loop_patterns st)
                      else loop_patterns st in
      mret (Continue {| loop_current := current; loop_patterns := patterns;
                        loop_first_run := false;
                        loop_mid_elements := mid_elements;
                        loop_end_elements := found_end_elements f |})
  end.

(** [while current <= boundary: ...], with the iterations counted by
    [fuel].  [Break] is a [break]; [Continue st] is the loop left through
    its condition (the [else] of the [while]) in state [st]. *)
Fixpoint BeginEndParser_loop (fuel : nat) (self : ref) (p : GrammarParser)
    (boundary : POS) (verbosity : Z) (kw : kwargs) (st : loop_state)
  : St pstate iteration_result :=
  if pos_leb (loop_current st) boundary then
    match fuel with
    | O => out_of_fuel
    | S fuel =>
        r ← BeginEndParser_iteration self p boundary verbosity kw st;
        match r with
        | Break _ _ _ _ => mret r
        | Continue st => BeginEndParser_loop fuel self p boundary verbosity kw st
        end
    end
  else mret (Continue st).

(** [closing] and [end_span] after the loop. *)
Definition loop_closing (boundary : POS) (r : iteration_result) : POS :=
  match r with
  | Break closing _ _ _ => closing
  | Continue _ => boundary
  end.

Definition loop_end_span (boundary : POS) (r : iteration_result)
  : option POS * POS :=
  match r with
  | Break _ end_span _ _ => (Some end_span.1, end_span.2)
  | Continue _ => (None, boundary)
  end.

Definition loop_mid (r : iteration_result) : list element :=
  match r with
  | Break _ _ mid_elements _ => mid_elements
  | Continue st => loop_mid_elements st
  end.

Definition loop_end (r : iteration_result) : list element :=
  match r with
  | Break _ _ _ end_elements => end_elements
  | Continue st => loop_end_elements st
  end.

(** The part of [BeginEndParser._parse] after the loop. *)
Definition BeginEndParser_finish (self : ref) (p : GrammarParser)
    (begin_span : span) (begin_elements : list element) (boundary : POS)
    (verbosity : Z) (r : iteration_result) : St pstate parse_result :=
  let closing := loop_closing boundary r in
  let end_span := loop_end_span boundary r in
  let start := if between_content p then begin_span.2 else begin_span.1 in
  let content := read_pos h start closing in
  _ ← LOGGER INFO (Found content) self start verbosity;
  let elements :=
    if token_set (token p)
    then [ContentBlockElement (token p) self content (range h start closing)
            (loop_mid r) begin_elements (loop_end r)]
    else begin_elements ++ loop_mid r ++ loop_end r in
  mret (true, elements, Some (begin_span.1, end_span.2)).

(** [BeginEndParser._parse] *)
Definition BeginEndParser_parse (fuel : nat) (self : ref) (p : GrammarParser)
    (starting : POS) (boundary : option POS) (verbosity : Z) (kw : kwargs)
  : St pstate parse_result :=
  let allow_leading_all := default false (kw_allow_leading_all kw) in
  '(begin_span, _, begin_elements) ←
    match_and_capture (exp_begin p) starting boundary (parsers_begin p)
      (kw_child allow_leading_all);
  match begin_span with
  | None =>
      _ ← LOGGER DEBUG NoBeginMatch self starting verbosity;
      mret (false, [], None)
  | Some begin_span =>
      _ ← LOGGER INFO FoundBegin self starting verbosity;
      boundary ← boundary_or_end h boundary;
      patterns ← enabled_patterns store (patterns p);
      r ← BeginEndParser_loop fuel self p boundary verbosity kw
            {| loop_current := begin_span.2; loop_patterns := patterns;
               loop_first_run := true; loop_mid_elements := [];
               loop_end_elements := [] |};
      BeginEndParser_finish self p begin_span begin_elements boundary verbosity r
  end.
End Children.

(** [LanguageParser._parse] is not part of [parser.py]. *)
Variable LanguageParser_parse :
  ref → POS → option POS → Z → kwargs → St pstate parse_result.

(** [parser._parse(...)]: the method of the parser's class.  [fuel] bounds
    the depth of the calls and the number of rounds of each loop. *)
Fixpoint _parse (fuel : nat) (self : ref) (starting : POS) (boundary : option POS)
    (verbosity : Z) (kw : kwargs) {struct fuel} : St pstate parse_result :=
  match fuel with
  | O => out_of_fuel
  | S fuel =>
      match store !! self with
      | None => raise DanglingReference
      | Some p =>
          match class p with
          | TokenParser => TokenParser_parse self p starting boundary verbosity
          | MatchParser => MatchParser_parse self p starting boundary verbosity kw
          | PatternsParser =>
              PatternsParser_parse (_parse fuel) fuel self p starting boundary
                verbosity kw
          | BeginEndParser =>
              BeginEndParser_parse (_parse fuel) fuel self p starting boundary
                verbosity kw
          | BeginWhileParser => raise NotImplementedError
          | LanguageParser => LanguageParser_parse self starting boundary verbosity kw
          end
      end
  end.
End Parsers.

(** ** Repository initialization *)

Global Instance slot_eq_dec : EqDecision slot.
Proof. solve_decision. Defined.

(** Attribute assignments on a parser object. *)
Definition with_attrs (p : GrammarParser) (i : bool) (ps : list slot)
    (cs bs es : list (Z * slot)) : GrammarParser :=
  {| class := class p; language := language p; key := key p; token := token p;
     comment := comment p; disabled := disabled p; initialized := i;
     anchored := anchored p; injected_patterns := injected_patterns p;
     exp_match := exp_match p; parsers := cs; patterns := ps;
     between_content := between_content p;
     apply_end_pattern_last := apply_end_pattern_last p;
     exp_begin := exp_begin p; exp_end := exp_end p;
     parsers_begin := bs; parsers_end := es; repository := repository p |}.

Definition set_initialized (p : GrammarParser) : GrammarParser :=
  with_attrs p true (patterns p) (parsers p) (parsers_begin p) (parsers_end p).
Definition set_patterns (ps : list slot) (p : GrammarParser) : GrammarParser :=
  with_attrs p (initialized p) ps (parsers p) (parsers_begin p) (parsers_end p).
Definition set_parsers (cs : list (Z * slot)) (p : GrammarParser) : GrammarParser :=
  with_attrs p (initialized p) (patterns p) cs (parsers_begin p) (parsers_end p).
Definition set_parsers_begin (bs : list (Z * slot)) (p : GrammarParser) : GrammarParser :=
  with_attrs p (initialized p) (patterns p) (parsers p) bs (parsers_end p).
Definition set_parsers_end (es : list (Z * slot)) (p : GrammarParser) : GrammarParser :=
  with_attrs p (initialized p) (patterns p) (parsers p) (parsers_begin p) es.

(** The parser graph: the store of parser objects, mutated in place. *)
Abbreviation graph := (list GrammarParser).

Definition lookup_parser (r : ref) : St graph GrammarParser :=
  λ s, match s !! r with
       | Some p => Ok (p, s)
       | None => Raise DanglingReference
       end.

Definition update_parser (r : ref) (f : GrammarParser → GrammarParser) : St graph unit :=
  λ s, match s !! r with
       | Some p => Ok (tt, <[r := f p]> s)
       | None => Raise DanglingReference
       end.

(** [d[k] = v] on a dictionary kept in insertion order. *)
Fixpoint dict_set (k : Z) (v : slot) (d : list (Z * slot)) : list (Z * slot) :=
  match d with
  | [] => [(k, v)]
  | (k', v') :: rest => if k' =? k then (k, v) :: rest else (k', v') :: dict_set k v rest
  end.

(** [l.index(x)]: the first position of [x]; [None] stands for ValueError. *)
Fixpoint index_of (x : slot) (l : list slot) : option nat :=
  match l with
  | [] => None
  | y :: rest => if decide (y = x) then Some O else S <$> index_of x rest
  end.

Section Repository.
(** [LanguageParser._find_include_scopes] and
    [LanguageParser.initialize_repository] are not part of [parser.py]. *)
Variable _find_include_scopes : graph → ref → string → res slot.
Variable LanguageParser_initialize_repository : ref → St graph unit.

(** [GrammarParser._find_include]; [key] is the string of the include, or
    [None] when the slot already holds [None]. *)
Definition _find_include (self : ref) (key : option string) : St graph slot :=
  p ← lookup_parser self;
  match language p with
  | None => raise (IncludedParserNotFound (default EmptyString key))
  | Some lang =>
      match key with
      | None => raise TypeError
      | Some key =>
          if bool_decide (key = "$self"%string) || bool_decide (key = "$base"%string)
          then mret (Parser lang)
          else
            match key with
            | EmptyString => raise IndexError
            | String c name =>
                if bool_decide (c = "#"%char) then
                  l ← lookup_parser lang;
                  mret (match repository l !! name with
                        | Some r => Parser r
                        | None => PyNone
                        end)
                else λ s, match _find_include_scopes s lang key with
                          | Ok sl => Ok (sl, s)
                          | Raise e => Raise e
                          | OutOfFuel => OutOfFuel
                          end
            end
      end
  end.

(** [value if isinstance(value, GrammarParser) else self._find_include(value)] *)
Definition resolve (self : ref) (value : slot) : St graph slot :=
  match value with
  | Parser _ => mret value
  | Include key => _find_include self (Some key)
  | PyNone => _find_include self None
  end.

Fixpoint resolve_patterns (self : ref) (patterns : list slot) : St graph (list slot) :=
  match patterns with
  | [] => mret []
  | value :: rest =>
      v ← resolve self value;
      vs ← resolve_patterns self rest;
      mret (v :: vs)
  end.

(** [for key, value in d.items(): if not isinstance(value, GrammarParser):
    d[key] = self._find_include(value)] on the captures dictionary read by
    [get_d] and written by [set_d]. *)
Fixpoint resolve_captures (self : ref) (get_d : GrammarParser → list (Z * slot))
    (set_d : list (Z * slot) → GrammarParser → GrammarParser)
    (items : list (Z * slot)) : St graph unit :=
  match items with
  | [] => mret ()
  | (k, value) :: rest =>
      _ ← match value with
          | Parser _ => mret ()
          | _ =>
              v ← resolve self value;
              update_parser self (λ p, set_d (dict_set k v (get_d p)) p)
          end;
      resolve_captures self get_d set_d rest
  end.

Section Children.
(** [parser.initialize_repository()] on a child parser. *)
Variable child : ref → St graph unit.

(** [for parser in ...: if not parser.initialized:
    parser.initialize_repository()] *)
Fixpoint initialize_children (children : list slot) : St graph unit :=
  match children with
  | [] => mret ()
  | sl :: rest =>
      s ← get;
      i ← attr s initialized sl;
      _ ← (if i : bool then mret ()
           else match sl with
                | Parser r => child r
                | _ => raise AttributeError
                end);
      initialize_children rest
  end.

(** [MatchParser.initialize_repository] *)
Definition MatchParser_initialize_repository (self : ref) : St graph unit :=
  _ ← update_parser self set_initialized;
  p ← lookup_parser self;
  _ ← resolve_captures self parsers set_parsers (parsers p);
  p ← lookup_parser self;
  initialize_children (snd <$> parsers p).

(** [[parser for parser in self.patterns if type(parser) == PatternsParser]] *)
Fixpoint pattern_parsers (s : graph) (patterns : list slot) : list ref :=
  match patterns with
  | [] => []
  | Parser r :: rest =>
      match s !! r with
      | Some c => if decide (class c = PatternsParser)
                  then r :: pattern_parsers s rest
                  else pattern_parsers s rest
      | None => pattern_parsers s rest
      end
  | _ :: rest => pattern_parsers s rest
  end.

(** [for parser in pattern_parsers: parser_index =
    self.patterns.index(parser); self.patterns[parser_index :
    parser_index + 1] = parser.patterns] *)
Fixpoint splice (self : ref) (pattern_parsers : list ref) : St graph unit :=
  match pattern_parsers with
  | [] => mret ()
  | parser :: rest =>
      p ← lookup_parser self;
      c ← lookup_parser parser;
      match index_of (Parser parser) (patterns p) with
      | None => raise ValueError
      | Some parser_index =>
          _ ← update_parser self
                (set_patterns (take parser_index (patterns p) ++ patterns c
                               ++ drop (S parser_index) (patterns p)));
          splice self rest
      end
  end.

(** [PatternsParser.initialize_repository] *)
Definition PatternsParser_initialize_repository (self : ref) : St graph unit :=
  _ ← update_parser self set_initialized;
  p ← lookup_parser self;
  ps ← resolve_patterns self (patterns p);
  _ ← update_parser self (set_patterns ps);
  _ ← initialize_children ps;
  s ← get;
  p ← lookup_parser self;
  splice self (pattern_parsers s (patterns p)).

(** [BeginEndParser.initialize_repository] *)
Definition BeginEndParser_initialize_repository (self : ref) : St graph unit :=
  _ ← update_parser self set_initialized;
  _ ← PatternsParser_initialize_repository self;
  p ← lookup_parser self;
  _ ← resolve_captures self parsers_end set_parsers_end (parsers_end p);
  p ← lookup_parser self;
  _ ← resolve_captures self parsers_begin set_parsers_begin (parsers_begin p);
  p ← lookup_parser self;
  _ ← initialize_children (snd <$> parsers_begin p);
  p ← lookup_parser self;
  initialize_children (snd <$> parsers_end p).

(** [BeginWhileParser.initialize_repository]: the parser has no
    attribute [parsers_end]. *)
Definition BeginWhileParser_initialize_repository (self : ref) : St graph unit :=
  _ ← update_parser self set_initialized;
  _ ← PatternsParser_initialize_repository self;
  raise AttributeError.
End Children.

(** [parser.initialize_repository()]: the method of the parser's class;
    [fuel] bounds the depth of the calls. *)
Fixpoint initialize_repository (fuel : nat) (self : ref) {struct fuel}
  : St graph unit :=
  match fuel with
  | O => out_of_fuel
  | S fuel =>
      p ← lookup_parser self;
      match class p with
      | TokenParser => mret ()
      | MatchParser => MatchParser_initialize_repository (initialize_repository fuel) self
      | PatternsParser =>
          PatternsParser_initialize_repository (initialize_repository fuel) self
      | BeginEndParser =>
          BeginEndParser_initialize_repository (initialize_repository fuel) self
      | BeginWhileParser =>
          BeginWhileParser_initialize_repository (initialize_repository fuel) self
      | LanguageParser => LanguageParser_initialize_repository self
      end
  end.
End Repository.

(** ** A content handler over a list of lines *)

Module Buffer.
(** The literal text of a pattern and whether it is a look-ahead
    [(?=text)], which matches the empty string in front of [text]. *)
Definition lookahead (pat : string) : option string :=
  if String.prefix "(?=" pat && String.eqb (substring (String.length pat - 1) 1 pat) ")"
  then Some (substring 3 (String.length pat - 4) pat)
  else None.

(** The literal after a leading [\G]. *)
Definition anchored_literal (pat : string) : option string :=
  if String.prefix "\G" pat then Some (substring 2 (String.length pat - 2) pat)
  else None.

(** The first column from [c] on at which [lit] starts in [line]; without
    [allow_leading_all] only whitespace may be skipped. *)
Fixpoint find_in_line (fuel : nat) (lit line : string) (c : nat)
    (allow_leading_all : bool) : option nat :=
  if String.prefix lit (substring c (String.length line - c) line) then Some c
  else match fuel with
       | O => None
       | S fuel =>
           match String.get c line with
           | Some ch =>
               if allow_leading_all || is_space_char ch
               then find_in_line fuel lit line (S c) allow_leading_all
               else None
           | None => None
           end
       end.

Section Handler.
Variable text : list string.

Definition line (l : Z) : string := default EmptyString (py_index text l).
Definition line_length (l : Z) : Z := Z.of_nat (String.length (line l)).
Definition flat : string := fold_right String.append EmptyString text.

(** The offset of a position in the whole text. *)
Definition offset (p : POS) : nat :=
  String.length (fold_right String.append EmptyString (take (Z.to_nat p.1) text))
  + Z.to_nat p.2.

Fixpoint position (ls : list string) (l : Z) (o : nat) : POS :=
  match ls with
  | [] => (l, Z.of_nat o)
  | s :: rest =>
      if (o <? String.length s)%nat then (l, Z.of_nat o)
      else position rest (l + 1) (o - String.length s)
  end.

Definition buffer_next (p : POS) : POS :=
  if p.2 =? line_length p.1
  then (if p.1 =? Z.of_nat (length text) then p else (p.1 + 1, 0))
  else (p.1, p.2 + 1).

Definition buffer_prev (p : POS) : POS :=
  if p.2 =? 0
  then (if p.1 =? 0 then (0, 0) else (p.1 - 1, line_length (p.1 - 1)))
  else (p.1, p.2 - 1).

Definition buffer_read_pos (a b : POS) : string :=
  substring (offset a) (offset b - offset a) flat.

Definition buffer_range (a b : POS) : list POS :=
  position text 0 <$> seq (offset a) (offset b - offset a).

Definition buffer_read_line (p : POS) : string :=
  substring (Z.to_nat p.2) (String.length (line p.1) - Z.to_nat p.2) (line p.1).

Definition buffer_read_length (p : POS) (n : Z) (skip_newline : bool) : string :=
  substring (offset p) (Z.to_nat n) flat.

(** The search in the line of [starting] and, with [allow_leading_all],
    in the lines after it, up to [boundary]. *)
Fixpoint search_lines (fuel : nat) (pat : string) (l : Z) (c : nat)
    (boundary : POS) (allow_leading_all : bool) : option span :=
  let lit := default pat (lookahead pat) in
  let width := match lookahead pat with Some _ => O | None => String.length lit end in
  match find_in_line (String.length (line l)) lit (line l) c allow_leading_all with
  | Some q =>
      let sp := ((l, Z.of_nat q), (l, Z.of_nat (q + width))) in
      if pos_leb sp.2 boundary then Some sp else None
  | None =>
      match fuel with
      | O => None
      | S fuel =>
          if allow_leading_all && (l <? boundary.1)
          then search_lines fuel pat (l + 1) 0 boundary allow_leading_all
          else None
      end
  end.

(** The match of the literal [lit] anchored by [\G]: it begins at the anchor
    [q], which is not before [starting]; without [allow_leading_all] the
    anchor is in the line of [starting], after whitespace only. *)
Definition search_anchored (lit : string) (q starting boundary : POS)
    (allow_leading_all : bool) : option span :=
  let sp := (q, (q.1, q.2 + Z.of_nat (String.length lit))) in
  let rest := substring (Z.to_nat q.2) (String.length (line q.1) - Z.to_nat q.2) (line q.1) in
  let skipped :=
    substring (Z.to_nat starting.2) (Z.to_nat q.2 - Z.to_nat starting.2) (line q.1) in
  if (0 <=? q.1) && (0 <=? q.2) && pos_leb starting q && pos_leb sp.2 boundary
     && String.prefix lit rest
     && (allow_leading_all || ((q.1 =? starting.1) && all_space skipped))
  then Some sp
  else None.

Definition buffer_search (a : anchor_value) (pattern : Pattern) (starting : POS)
    (boundary : option POS) (kw : kwargs) : option (Match * span) * anchor_value :=
  let boundary :=
    default (Z.of_nat (length text) - 1, line_length (Z.of_nat (length text) - 1))
      boundary in
  let allow_leading_all := default false (kw_allow_leading_all kw) in
  let found :=
    match anchored_literal (_pattern pattern) with
    | Some lit =>
        let q := match a with
                 | AnchorPos q => q
                 | AnchorInt column => (starting.1, column)
                 end in
        search_anchored lit q starting boundary allow_leading_all
    | None =>
        search_lines (length text) (_pattern pattern) starting.1 (Z.to_nat starting.2)
          boundary allow_leading_all
    end in
  match found with
  | Some sp => (Some ({| group := buffer_read_pos sp.1 sp.2 |}, sp), AnchorPos sp.2)
  | None => (None, a)
  end.

(** Modelled from the spec: a [ContentHandler] over the lines [text]
    ([handler.py] is not part of the sources), with the operations of
    section 4.1 of the specification.  Patterns are read literally, as a
    look-ahead for a literal, or as a literal anchored by [\G], which
    matches at [handler.anchor] only. *)
Definition handler : ContentHandler :=
  {| lines := text;
     line_lengths := (λ s, Z.of_nat (String.length s)) <$> text;
     next := buffer_next;
     prev := buffer_prev;
     range := buffer_range;
     read_pos := buffer_read_pos;
     read_line := buffer_read_line;
     read_length := buffer_read_length;
     search := buffer_search |}.
End Handler.
End Buffer.

(** ** Vocabulary of the statements *)

(** The elements of a successful [MatchParser._parse]: one element of the
    parser's token around the captures, or the captures themselves. *)
Definition MatchParser_elements (h : ContentHandler) (self : ref) (p : GrammarParser)
    (starting : POS) (boundary : option POS) (kw : kwargs) (matching : Match)
    (sp : span) : list element :=
  let children :=
    [Captures (exp_match p) matching (parsers p) starting boundary kw] in
  if token_set (token p)
  then [ContentElement (token p) self (group matching) (range h sp.1 sp.2) children]
  else children.

(** [parser.disabled] for a parser of the store. *)
Definition is_disabled (store : list GrammarParser) (r : ref) : bool :=
  match store !! r with
  | Some p => disabled p
  | None => false
  end.

(** The state after one more record in the log. *)
Definition logged (s : pstate) (l : level) (m : message) (self : ref) (p : POS)
    (verbosity : Z) : pstate :=
  {| anchor := anchor s;
     log := log s ++ [{| log_level := l; log_message := m; log_parser := self;
                         log_position := p; log_verbosity := verbosity |}] |}.

(** Two child functions that agree on the parsers that satisfy [P]. *)
Definition agree (P : ref → Prop)
    (child child' : ref → POS → option POS → Z → kwargs → St pstate parse_result) : Prop :=
  ∀ r, P r → ∀ starting boundary verbosity kw s,
    child' r starting boundary verbosity kw s = child r starting boundary verbosity kw s.

(** An end span that the searches of an iteration report is the span of a
    match of the end pattern. *)
Definition end_match (h : ContentHandler) (p : GrammarParser) (boundary : POS)
    (end_span : span) : Prop :=
  ∃ a current allow_leading_all matching a',
    search h a (exp_end p) current (Some boundary) (kw_child allow_leading_all)
    = (Some (matching, end_span), a').

(** The state in which the loop starts: the anchor as the begin match left
    it, and the record of the begin match in the log. *)
Definition after_begin (s : pstate) (a : anchor_value) (self : ref) (starting : POS)
    (verbosity : Z) : pstate :=
  logged {| anchor := a; log := log s |} INFO FoundBegin self starting verbosity.

(** The loop state after the begin match. *)
Definition first_state (begin_span : span) (patterns : list ref) : loop_state :=
  {| loop_current := begin_span.2; loop_patterns := patterns; loop_first_run := true;
     loop_mid_elements := []; loop_end_elements := [] |}.

(** The elements of the begin match. *)
Definition begin_captures (p : GrammarParser) (matching : Match) (starting : POS)
    (boundary : option POS) (kw : kwargs) : list element :=
  [Captures (exp_begin p) matching (parsers_begin p) starting boundary
     (kw_child (default false (kw_allow_leading_all kw)))].

(** The elements that [BeginEndParser._parse] returns. *)
Definition block_elements (h : ContentHandler) (self : ref) (p : GrammarParser)
    (begin_span : span) (begin_elements : list element) (boundary : POS)
    (r : iteration_result) : list element :=
  let start := if between_content p then begin_span.2 else begin_span.1 in
  if token_set (token p)
  then [ContentBlockElement (token p) self (read_pos h start (loop_closing boundary r))
          (range h start (loop_closing boundary r)) (loop_mid r) begin_elements
          (loop_end r)]
  else begin_elements ++ loop_mid r ++ loop_end r.

(** The position an enclosing PatternsParser stands at after a round. *)
Definition round_current (r : round_result) : option POS :=
  match r with
  | RoundReturn _ => None
  | RoundBreak _ current | RoundNext _ current => Some current
  end.

(** A slot that holds a parser of the graph that is initialized. *)
Definition resolved (g : graph) (sl : slot) : Prop :=
  ∃ r c, sl = Parser r ∧ g !! r = Some c ∧ initialized c = true.

(** ** Graphs without include cycles *)

(** The slots that [initialize_repository] of the parser's class reads. *)
Definition used_slots (p : GrammarParser) : list slot :=
  match class p with
  | MatchParser => snd <$> parsers p
  | PatternsParser => patterns p
  | BeginEndParser => patterns p ++ (snd <$> parsers_begin p) ++ (snd <$> parsers_end p)
  | _ => []
  end.

(** An initialized parser whose slots are resolved to initialized parsers
    and whose patterns hold no plain PatternsParser. *)
Definition settled (g : graph) (p : GrammarParser) : Prop :=
  initialized p = true
  ∧ Forall (resolved g) (used_slots p)
  ∧ (class p = PatternsParser ∨ class p = BeginEndParser →
     pattern_parsers g (patterns p) = []).

(** What a slot of the parser [r] may hold in a graph ranked by [rank]: a
    parser of lower rank, or an include of the language itself or of a name
    of its repository that stands for a parser of lower rank. *)
Definition slot_ok (rank : ref → nat) (g : graph) (r : ref) (p : GrammarParser)
    (sl : slot) : Prop :=
  match sl with
  | Parser c => (rank c < rank r)%nat ∧ is_Some (g !! c)
  | Include key =>
      ∃ lang, language p = Some lang ∧ (rank lang < rank r)%nat ∧ is_Some (g !! lang)
              ∧ (key = "$self"%string ∨ key = "$base"%string
                 ∨ ∃ name, key = String "#" name
                           ∧ ∀ l c, g !! lang = Some l → repository l !! name = Some c →
                                    (rank c < rank r)%nat ∧ is_Some (g !! c))
  | PyNone => True
  end.

(** A graph without cycles: every slot leads to a parser of lower rank; the
    keys of a captures dictionary are distinct; token parsers and languages
    are initialized, as their constructors leave them. *)
Definition acyclic (rank : ref → nat) (g : graph) : Prop :=
  ∀ r p, g !! r = Some p →
    Forall (slot_ok rank g r p) (used_slots p)
    ∧ NoDup (fst <$> parsers p) ∧ NoDup (fst <$> parsers_begin p)
    ∧ NoDup (fst <$> parsers_end p)
    ∧ (class p = TokenParser ∨ class p = LanguageParser → initialized p = true).

(** Every initialized parser of rank below [k] is settled. *)
Definition settled_below (rank : ref → nat) (k : nat) (g : graph) : Prop :=
  ∀ r p, g !! r = Some p → (rank r < k)%nat → initialized p = true → settled g p.

(** How [initialize_repository] changes a graph: no parser is added or
    removed, and none changes its class, its language or its repository or
    loses its initialization. *)
Definition evolves (g g' : graph) : Prop :=
  length g' = length g
  ∧ ∀ r p, g !! r = Some p →
      ∃ p', g' !! r = Some p' ∧ class p' = class p ∧ language p' = language p
            ∧ repository p' = repository p
            ∧ (initialized p = true → initialized p' = true).

(** What an include of a parser of rank below [k] resolves to. *)
Definition good_slot (rank : ref → nat) (g : graph) (k : nat) (sl : slot) : Prop :=
  sl = PyNone ∨ ∃ c, sl = Parser c ∧ (rank c < k)%nat ∧ is_Some (g !! c).

(** What a call of [initialize_repository] on the parser [self] of rank
    below [k] achieves. *)
Definition init_post (rank : ref → nat) (self : ref) (k : nat) (g g1 : graph) : Prop :=
  acyclic rank g1 ∧ settled_below rank k g1 ∧ evolves g g1
  ∧ (∀ r, (rank self ≤ rank r)%nat → r ≠ self → g1 !! r = g !! r)
  ∧ ∃ p1, g1 !! self = Some p1 ∧ settled g1 p1.

Definition child_spec (rank : ref → nat) (child : ref → St graph unit) : Prop :=
  ∀ c g g1 k pc,
    acyclic rank g → settled_below rank k g → (rank c < k)%nat →
    g !! c = Some pc → initialized pc = false →
    child c g = Ok ((), g1) → init_post rank c k g g1.

(** A slot that holds a parser of rank below that of [self]. *)
Definition lower (rank : ref → nat) (self : ref) (sl : slot) : Prop :=
  ∃ c, sl = Parser c ∧ (rank c < rank self)%nat.

(** ** Graphs with include cycles *)

(** Token parsers and the language are initialized when they are built. *)
Definition leaves_initialized (g : graph) : Prop :=
  ∀ r p, g !! r = Some p → class p = TokenParser ∨ class p = LanguageParser →
         initialized p = true.

(** A slot that holds an initialized parser, or one that [P] names: a slot
    of a parser whose initialization is under way, which that call has
    still to visit. *)
Definition pending (P : slot → Prop) (g : graph) (sl : slot) : Prop :=
  resolved g sl ∨ P sl.

(** The patterns of every plain PatternsParser that is initialized, which
    a splice may copy into another parser, are pending. *)
Definition closed (P : slot → Prop) (g : graph) : Prop :=
  ∀ r q, g !! r = Some q → initialized q = true → class q = PatternsParser →
         Forall (pending P g) (patterns q).

(** No parser that is initialized is changed. *)
Definition stable (g g' : graph) : Prop :=
  ∀ r p, g !! r = Some p → initialized p = true → g' !! r = Some p.

(** What a call of [initialize_repository] on a parser [c] that is not
    initialized achieves in a graph that may have cycles. *)
Definition cyclic_post (P : slot → Prop) (c : ref) (g g1 : graph) : Prop :=
  evolves g g1 ∧ stable g g1 ∧ closed P g1
  ∧ ∃ p1, g1 !! c = Some p1 ∧ initialized p1 = true
          ∧ Forall (pending P g1) (used_slots p1).

Definition cyclic_spec (child : ref → St graph unit) : Prop :=
  ∀ P c g g1 pc,
    leaves_initialized g → closed (λ sl, P sl ∨ sl = Parser c) g →
    g !! c = Some pc → initialized pc = false →
    child c g = Ok ((), g1) → cyclic_post P c g g1.

(** ** What repository initialization may change *)

(** A parser object after [initialize_repository]: either untouched, or
    marked initialized and with [patterns] and the captures dictionaries
    possibly replaced.  Every other attribute is as before. *)
Definition rewritten (p p' : GrammarParser) : Prop :=
  p' = p ∨ ∃ ps cs bs es, p' = with_attrs p true ps cs bs es.

(** The same parser objects, each one rewritten. *)
Definition rewrites (g g' : graph) : Prop := Forall2 rewritten g g'.

(** The number of parsers that are not initialized. *)
Definition uninitialized (g : graph) : nat :=
  length (List.filter (λ p, negb (initialized p)) g).

(** What a computation on the graph does, for the proofs about the depth of
    the calls: its result satisfies [Q], it may raise, and it runs out of
    fuel only when [T] does not hold. *)
Definition outcome {A} (T : Prop) (m : St graph A) (g : graph)
    (Q : A → graph → Prop) : Prop :=
  match m g with
  | Ok (a, g') => Q a g'
  | Raise _ => True
  | OutOfFuel => ¬ T
  end.

(** Fuel that is enough for a call of [initialize_repository] on [self]:
    more than the number of parsers that are not initialized, or as much
    when [self] is one of them; the collaborators do not run out of fuel
    themselves. *)
Definition deep_enough (scopes : graph → ref → string → res slot)
    (language_init : ref → St graph unit) (fuel : nat) (self : ref) (g : graph) : Prop :=
  (∀ g r key, scopes g r key ≠ OutOfFuel)
  ∧ (∀ r g, language_init r g ≠ OutOfFuel)
  ∧ ((uninitialized g < fuel)%nat
     ∨ ∃ p, g !! self = Some p ∧ initialized p = false ∧ (uninitialized g ≤ fuel)%nat).

(** What the splice of [PatternsParser.initialize_repository] puts in the
    place of a pattern: the patterns of a plain PatternsParser, and the
    pattern itself otherwise. *)
Definition spliced (g : graph) (sl : slot) : list slot :=
  match sl with
  | Parser r =>
      match g !! r with
      | Some c => if decide (class c = PatternsParser) then patterns c else [sl]
      | None => [sl]
      end
  | _ => [sl]
  end.

(** The parsers [rs], tried in turn at [current] from the state [s], all
    report that they did not parse, and leave the state [s']. *)
Inductive all_fail
    (child : ref → POS → option POS → Z → kwargs → St pstate parse_result)
    (current boundary : POS) (verbosity : Z) (kw : kwargs)
  : list ref → pstate → pstate → Prop :=
| all_fail_nil s : all_fail child current boundary verbosity kw [] s s
| all_fail_cons r rs s s1 s' captures sp :
    child r current (Some boundary) verbosity kw s = Ok ((false, captures, sp), s1) →
    all_fail child current boundary verbosity kw rs s1 s' →
    all_fail child current boundary verbosity kw (r :: rs) s s'.

(** The candidates of [PatternsParser._parse] when every pattern is a parser
    of the store: the patterns that are not disabled, then the injected
    patterns when [find_one] or [injections] is set. *)
Definition candidates (store : list GrammarParser) (p : GrammarParser) (rs : list ref)
    (kw : kwargs) : list ref :=
  let own := List.filter (λ r, negb (is_disabled store r)) rs in
  if default true (kw_find_one kw) || default false (kw_injections kw)
  then own ++ injected_patterns p else own.

(** A parser that fails at [current] whatever the state. *)
Definition fails_at
    (child : ref → POS → option POS → Z → kwargs → St pstate parse_result)
    (current boundary : POS) (verbosity : Z) (kw : kwargs) (r : ref) : Prop :=
  ∀ s, ∃ captures sp s',
    child r current (Some boundary) verbosity kw s = Ok ((false, captures, sp), s').

(** A parser that, whatever the state, parses at [current] a span that ends
    at [current]. *)
Definition stalls_at
    (child : ref → POS → option POS → Z → kwargs → St pstate parse_result)
    (current boundary : POS) (verbosity : Z) (kw : kwargs) (r : ref) : Prop :=
  ∀ s, ∃ captures start s',
    child r current (Some boundary) verbosity kw s
    = Ok ((true, captures, Some (start, current)), s').

(** ** Grammars whose includes can be resolved *)

(** A slot that [initialize_repository] can resolve to a parser: a parser
    already, or an include of the language itself or of a name that the
    repository of the language has. *)
Definition resolvable (g : graph) (p : GrammarParser) (sl : slot) : Prop :=
  match sl with
  | Parser _ => True
  | Include key =>
      ∃ lang, language p = Some lang
              ∧ (key = "$self"%string ∨ key = "$base"%string
                 ∨ ∃ name l c, key = String "#" name ∧ g !! lang = Some l
                               ∧ repository l !! name = Some c)
  | PyNone => False
  end.

(** Every parser that is still to be initialized is no BeginWhileParser and
    holds slots that can be resolved only. *)
Definition complete (g : graph) : Prop :=
  ∀ r p, g !! r = Some p → initialized p = false →
    class p ≠ BeginWhileParser ∧ Forall (resolvable g p) (used_slots p).

(** A slot that holds a parser of the graph of rank below [k]. *)
Definition parser_below (rank : ref → nat) (g : graph) (k : nat) (sl : slot) : Prop :=
  ∃ c, sl = Parser c ∧ (rank c < k)%nat ∧ is_Some (g !! c).

(** ** Concrete grammars and buffers *)

Module Examples.
(** The state of a fresh handler and an empty log. *)
Definition start : pstate := {| anchor := AnchorInt 0; log := [] |}.

(** No parser of the examples is a LanguageParser. *)
Definition no_language_parse
  : ref → POS → option POS → Z → kwargs → St pstate parse_result :=
  λ _ _ _ _ _, raise NotImplementedError.

(** Keywords of a call with [find_one=False]. *)
Definition find_all : kwargs :=
  {| kw_allow_leading_all := None; kw_find_one := Some false; kw_injections := None |}.

(** The grammar [{"name": "tok"}] on a buffer of two lines. *)
Definition token_store : list GrammarParser :=
  [TokenParser_init None "" "tok" "" false].
Definition two_lines : ContentHandler :=
  Buffer.handler [("ab" +:+ newline)%string; "cde"%string].

(** The grammars [{"name": "letter", "match": "b"}] and [{"match": "b"}]
    on the buffer [ab]. *)
Definition match_store : list GrammarParser :=
  [MatchParser_init None "" "letter" "" false "b" [];
   MatchParser_init None "" "" "" false "b" []].
Definition ab : ContentHandler := Buffer.handler ["ab"%string].

(** A PatternsParser with one pattern of its own, [{"match": "a"}], and
    one injected pattern, [{"match": "b"}]. *)
Definition injected : GrammarParser :=
  with_injected (PatternsParser_init None "" "" "" false [Parser 1%nat]) [2%nat].
Definition injected_store : list GrammarParser :=
  [injected;
   MatchParser_init None "" "a" "" false "a" [];
   MatchParser_init None "" "b" "" false "b" []].

(** The repository rule [{"name": "block", "begin": "a", "end": "abc",
    "patterns": [{"include": "#block"}]}] after initialization: the
    parser is its own child.  The buffer is [aabc]. *)
Definition nested_store : list GrammarParser :=
  [BeginEndParser_init None "block" None (Some "block"%string) "" false false
     "a" "abc" [Parser 0%nat] [] []].
Definition nested_block : GrammarParser :=
  BeginEndParser_init None "block" None (Some "block"%string) "" false false
    "a" "abc" [Parser 0%nat] [] [].
Definition aabc : ContentHandler := Buffer.handler ["aabc"%string].
Definition nested_child := _parse aabc nested_store no_language_parse 4.

(** The loop state after the begin match [a] at [(0, 0)]. *)
Definition nested_first : loop_state :=
  {| loop_current := (0, 1); loop_patterns := [0%nat]; loop_first_run := true;
     loop_mid_elements := []; loop_end_elements := [] |}.

(** The rule [{"name": "tag", "begin": "<", "end": ">", "patterns":
    [{"match": "\Gx"}, {"match": "y"}]}] on the buffer [<y>]; the first
    pattern is anchored to the begin match. *)
Definition tag : GrammarParser :=
  BeginEndParser_init None "tag" None (Some "tag"%string) "" false false
    "<" ">" [Parser 1%nat; Parser 2%nat] [] [].
Definition tag_store : list GrammarParser :=
  [tag;
   MatchParser_init None "" "x" "" false "\Gx" [];
   MatchParser_init None "" "y" "" false "y" []].
Definition tag_buffer : ContentHandler := Buffer.handler ["<y>"%string].
Definition tag_child := _parse tag_buffer tag_store no_language_parse 1.
Definition tag_first : loop_state :=
  {| loop_current := (0, 1); loop_patterns := [1%nat; 2%nat];
     loop_first_run := true; loop_mid_elements := []; loop_end_elements := [] |}.

(** The rules [{"name": "tag", "begin": "<", "end": ">", "patterns":
    [{"include": "#x"}, {"include": "#group"}]}], [x]: [{"name": "x",
    "match": "\Gx"}] and [group]: [{"name": "group", "begin": ":", "end":
    ";", "patterns": [{"include": "#x"}]}] after initialization, on the
    buffer [<x:x;>]. *)
Definition reached : GrammarParser :=
  BeginEndParser_init None "tag" None (Some "tag"%string) "" false false
    "<" ">" [Parser 1%nat; Parser 2%nat] [] [].
Definition reached_store : list GrammarParser :=
  [reached;
   MatchParser_init None "" "x" "" false "\Gx" [];
   BeginEndParser_init None "group" None (Some "group"%string) "" false false
     ":" ";" [Parser 1%nat] [] []].
Definition reached_buffer : ContentHandler := Buffer.handler ["<x:x;>"%string].
Definition reached_child := _parse reached_buffer reached_store no_language_parse 3.

(** The rule [{"name": "block", "begin": "a", "end": "z"}] on the buffer of
    the one line [a]: the end pattern never matches. *)
Definition unclosed : GrammarParser :=
  BeginEndParser_init None "block" None (Some "block"%string) "" false false
    "a" "z" [] [] [].
Definition unclosed_store : list GrammarParser := [unclosed].
Definition a_line : ContentHandler := Buffer.handler [("a" +:+ newline)%string].
Definition unclosed_child := _parse a_line unclosed_store no_language_parse 1.

(** The rule [{"contentName": "inner", "begin": "<", "end": ">"}] on the
    buffer [<y>]. *)
Definition inner : GrammarParser :=
  BeginEndParser_init None "inner" (Some "inner"%string) None "" false false
    "<" ">" [] [] [].
Definition inner_store : list GrammarParser := [inner].

(** The grammar [{"patterns": [{"match": "a"}, {"match": "(?=b)"}]}]: the
    second pattern matches the empty string in front of a [b]. *)
Definition letters_store : list GrammarParser :=
  [PatternsParser_init None "" "" "" false [Parser 1%nat; Parser 2%nat];
   MatchParser_init None "" "a" "" false "a" [];
   MatchParser_init None "" "" "" false "(?=b)" []].
Definition c : ContentHandler := Buffer.handler ["c"%string].
Definition b : ContentHandler := Buffer.handler ["b"%string].
Definition letters_child (h : ContentHandler) :=
  _parse h letters_store no_language_parse 1.

(** Modelled from the spec: a [LanguageParser] ([language.py] is not part of
    the sources), which section 4.10 of the specification describes as a
    PatternsParser with a [repository] mapping; it is its own language. *)
Definition language_parser (self : ref) (patterns : list slot)
    (repository : gmap string ref) : GrammarParser :=
  {| class := LanguageParser; language := Some self; key := ""; token := Some ""%string;
     comment := ""; disabled := false; initialized := true; anchored := false;
     injected_patterns := [];
     exp_match := {| _pattern := "" |}; parsers := []; patterns := patterns;
     between_content := false; apply_end_pattern_last := false;
     exp_begin := {| _pattern := "" |}; exp_end := {| _pattern := "" |};
     parsers_begin := []; parsers_end := []; repository := repository |}.

(** No include of the examples names another grammar, and the language of
    an example is never initialized through a child. *)
Definition no_scopes : graph → ref → string → res slot :=
  λ _ _ key, Raise (IncludedParserNotFound key).
Definition no_language_init : ref → St graph unit := λ _, mret ().

(** The grammar [{"repository": {"rule": {"patterns": [{"include":
    "#missing"}]}}}]: the language at 0 and the rule at 1. *)
Definition missing_graph : graph :=
  [language_parser 0%nat [] {[ "rule"%string := 1%nat ]};
   PatternsParser_init (Some 0%nat) "rule" "" "" false [Include "#missing"]].

(** The grammar [{"repository": {"a": {"patterns": [{"include": "#b"},
    {"match": "x"}]}, "b": {"patterns": [{"include": "#a"}, {"match":
    "y"}]}}}]: the language at 0, the rules [a] and [b] at 1 and 2, and the
    two match patterns at 3 and 4. *)
Definition cyclic_graph : graph :=
  [language_parser 0%nat [] {[ "a"%string := 1%nat; "b"%string := 2%nat ]};
   PatternsParser_init (Some 0%nat) "a" "" "" false [Include "#b"; Parser 3%nat];
   PatternsParser_init (Some 0%nat) "b" "" "" false [Include "#a"; Parser 4%nat];
   MatchParser_init (Some 0%nat) "" "x" "" false "x" [];
   MatchParser_init (Some 0%nat) "" "y" "" false "y" []].

(** The grammar [{"repository": {"a": {"patterns": [{"include": "#b"},
    {"match": "x"}]}, "b": {"patterns": [{"match": "y"}]}}}], without a
    cycle. *)
Definition acyclic_graph : graph :=
  [language_parser 0%nat [] {[ "a"%string := 1%nat; "b"%string := 2%nat ]};
   PatternsParser_init (Some 0%nat) "a" "" "" false [Include "#b"; Parser 3%nat];
   PatternsParser_init (Some 0%nat) "b" "" "" false [Parser 4%nat];
   MatchParser_init (Some 0%nat) "" "x" "" false "x" [];
   MatchParser_init (Some 0%nat) "" "y" "" false "y" []].

(** The graph that the first call of [initialize_repository] on the rule [a]
    of [acyclic_graph] leaves. *)
Definition acyclic_initialized : graph :=
  Eval vm_compute in
    match initialize_repository no_scopes no_language_init 3 1%nat acyclic_graph with
    | Ok (_, g) => g
    | _ => []
    end.

(** The grammar [{"repository": {"block": {"name": "block", "begin": "a",
    "end": "abc", "patterns": [{"include": "#block"}]}}}], a begin/end rule
    that includes itself: the language at 0 and the rule at 1. *)
Definition nesting_graph : graph :=
  [language_parser 0%nat [] {[ "block"%string := 1%nat ]};
   BeginEndParser_init (Some 0%nat) "block" None (Some "block"%string) "" false false
     "a" "abc" [Include "#block"] [] []].
Definition nesting_initialized : graph :=
  Eval vm_compute in
    match initialize_repository no_scopes no_language_init 2 1%nat nesting_graph with
    | Ok (_, g) => g
    | _ => []
    end.

(** The grammar [{"repository": {"block": {"name": "block", "begin": "a",
    "end": "z", "patterns": [{"include": "#inner"}]}, "inner": {"patterns":
    [{"include": "#block"}, {"match": "x"}]}}}], a cycle through a begin/end
    rule and a pattern-only rule: the language at 0, the rules [block] and
    [inner] at 1 and 2, the match pattern at 3. *)
Definition mixed_graph : graph :=
  [language_parser 0%nat [] {[ "block"%string := 1%nat; "inner"%string := 2%nat ]};
   BeginEndParser_init (Some 0%nat) "block" None (Some "block"%string) "" false false
     "a" "z" [Include "#inner"] [] [];
   PatternsParser_init (Some 0%nat) "inner" "" "" false [Include "#block"; Parser 3%nat];
   MatchParser_init (Some 0%nat) "" "x" "" false "x" []].
Definition mixed_initialized : graph :=
  Eval vm_compute in
    match initialize_repository no_scopes no_language_init 3 1%nat mixed_graph with
    | Ok (_, g) => g
    | _ => []
    end.

(** A rank of the parsers of [acyclic_graph]: the language, the match
    patterns, the rule [b], the rule [a]. *)
Definition acyclic_rank (r : ref) : nat :=
  match r with
  | 0 => 0
  | 1 => 3
  | 2 => 2
  | _ => 1
  end%nat.

(** A rule [a] with the patterns [b] and [x], where [b] is a plain
    PatternsParser with the pattern [y]: the rule [a] of [acyclic_graph]
    with its patterns resolved, before the splice. *)
Definition unspliced_graph : graph :=
  [Examples.language_parser 0%nat [] {[ "a"%string := 1%nat; "b"%string := 2%nat ]};
   PatternsParser_init (Some 0%nat) "a" "" "" false [Parser 2%nat; Parser 3%nat];
   PatternsParser_init (Some 0%nat) "b" "" "" false [Parser 4%nat];
   MatchParser_init (Some 0%nat) "" "x" "" false "x" [];
   MatchParser_init (Some 0%nat) "" "y" "" false "y" []].

(** The grammar [{"patterns": [{"match": "x"}, {"include": "#rule"}]}]
    built without a language. *)
Definition orphan_graph : graph :=
  [PatternsParser_init None "" "" "" false [Parser 1%nat; Include "#rule"];
   MatchParser_init None "" "x" "" false "x" []].

(** The grammar [{"repository": {"rule": {"patterns": [{"include": ""}]}}}]. *)
Definition empty_include_graph : graph :=
  [Examples.language_parser 0%nat [] {[ "rule"%string := 1%nat ]};
   PatternsParser_init (Some 0%nat) "rule" "" "" false [Include ""]].

(** The grammar [{"repository": {"rule": {"match": "(a)(b)", "captures":
    {"1": {"name": "first"}, "2": {"include": "#missing"}}}}}]. *)
Definition missing_capture_graph : graph :=
  [Examples.language_parser 0%nat [] {[ "rule"%string := 1%nat ]};
   MatchParser_init (Some 0%nat) "rule" "" "" false "(a)(b)"
     [(1, Parser 2%nat); (2, Include "#missing")];
   TokenParser_init (Some 0%nat) "" "first" "" false].

(** The grammar [{"repository": {"rule": {"begin": "a", "while": "b"}}}];
    the attributes of a BeginWhileParser that [initialize_repository] reads
    are those of a PatternsParser. *)
Definition while_graph : graph :=
  [Examples.language_parser 0%nat [] {[ "rule"%string := 1%nat ]};
   {| class := BeginWhileParser; language := Some 0%nat; key := "rule";
      token := None; comment := ""; disabled := false; initialized := false;
      anchored := false; injected_patterns := [];
      exp_match := {| _pattern := "" |}; parsers := []; patterns := [];
      between_content := false; apply_end_pattern_last := false;
      exp_begin := {| _pattern := "a" |}; exp_end := {| _pattern := "" |};
      parsers_begin := []; parsers_end := []; repository := ∅ |}].
(** The grammar [{"patterns": [{"match": "x"}, {"begin": "a", "while":
    "b"}]}] after initialization. *)
Definition while_store : list GrammarParser :=
  [PatternsParser_init None "" "" "" false [Parser 1%nat; Parser 2%nat];
   MatchParser_init None "" "" "" false "x" [];
   {| class := BeginWhileParser; language := None; key := "";
      token := None; comment := ""; disabled := false; initialized := true;
      anchored := false; injected_patterns := [];
      exp_match := {| _pattern := "" |}; parsers := []; patterns := [];
      between_content := false; apply_end_pattern_last := false;
      exp_begin := {| _pattern := "a" |}; exp_end := {| _pattern := "" |};
      parsers_begin := []; parsers_end := []; repository := ∅ |}].
(** The rule [{"name": "block", "begin": "a", "end": "z", "patterns":
    [{"match": "(?=b)"}]}] after initialization; on the buffer [ab] the
    pattern matches the empty string after the begin match. *)
Definition stall_block : GrammarParser :=
  BeginEndParser_init None "block" None (Some "block"%string) "" false false
    "a" "z" [Parser 1%nat] [] [].
Definition stall_store : list GrammarParser :=
  [stall_block; MatchParser_init None "" "" "" false "(?=b)" []].
(** The grammar [{"patterns": [{"match": "a", "disabled": true}, {"match":
    "b"}]}] after initialization. *)
Definition disabled_store : list GrammarParser :=
  [PatternsParser_init None "" "" "" false [Parser 1%nat; Parser 2%nat];
   MatchParser_init None "" "" "" true "a" [];
   MatchParser_init None "" "" "" false "b" []].
(** The rule [{"name": "bracket", "begin": "<", "end": "(?=y)"}] on the
    buffer [<y>]: the end pattern matches right after the begin match. *)
Definition bracket_store : list GrammarParser :=
  [BeginEndParser_init None "bracket" None (Some "bracket"%string) "" false false
     "<" "(?=y)" [] [] []].
(** The rule [{"name": "gap", "begin": "<", "end": "y", "patterns":
    [{"match": " "}]}] on the buffer [< y>]: after the begin match the
    pattern matches the space, and the end pattern the [y] behind it. *)
Definition gap : GrammarParser :=
  BeginEndParser_init None "gap" None (Some "gap"%string) "" false false
    "<" "y" [Parser 1%nat] [] [].
Definition gap_store : list GrammarParser :=
  [gap; MatchParser_init None "" "" "" false " " []].
Definition gap_buffer : ContentHandler := Buffer.handler ["< y>"%string].

(** The rule [{"name": "tag", "begin": "<", "end": ">", "patterns":
    [{"match": "y"}]}] on the two lines [<y] and [>]. *)
Definition broken_tag : GrammarParser :=
  BeginEndParser_init None "tag" None (Some "tag"%string) "" false false
    "<" ">" [Parser 1%nat] [] [].
Definition broken_tag_store : list GrammarParser :=
  [broken_tag; MatchParser_init None "" "" "" false "y" []].
Definition broken_tag_buffer : ContentHandler :=
  Buffer.handler [("<y" +:+ newline)%string; ">"%string].

(** A line of a no-break space (U+00A0) and a next-line character (U+0085),
    which [str.isspace] takes for whitespace, before the newline. *)
Definition blank_line : ContentHandler :=
  Buffer.handler [String (ascii_of_nat 160) (String (ascii_of_nat 133) newline)].
End Examples.

(** * Properties *)

(** ** The state monad *)

Lemma bind_Ok {S A B} (m : St S A) (f : A → St S B) (s s' : S) (a : A) :
  m s = Ok (a, s') → (m ≫= f) s = f a s'.
Proof. intros H. unfold mbind, St_bind. now rewrite H. Qed.

Lemma bind_Ok_inv {S A B} (m : St S A) (f : A → St S B) (s s2 : S) (b : B) :
  (m ≫= f) s = Ok (b, s2) → ∃ a s1, m s = Ok (a, s1) ∧ f a s1 = Ok (b, s2).
Proof.
  unfold mbind, St_bind. destruct (m s) as [[a s1]| |]; try discriminate.
  intros H. now exists a, s1.
Qed.

Ltac monad := unfold mbind, St_bind, mret, St_ret, raise, out_of_fuel in *.

(** ** TokenParser *)

(** C7: with a boundary, [TokenParser._parse] succeeds with one element of
    the parser's token over the text and the indices from [starting] to
    [boundary], and returns the span [(starting, boundary)]; the anchor of
    the handler becomes the column of the boundary, [boundary[1]]. *)
Theorem TokenParser_parse_succeeds (h : ContentHandler) (store : list GrammarParser)
    lang (fuel : nat) (self : ref) (p : GrammarParser) (starting boundary : POS)
    (verbosity : Z) (kw : kwargs) (s : pstate) :
  store !! self = Some p →
  class p = TokenParser →
  ∃ s', _parse h store lang (S fuel) self starting (Some boundary) verbosity kw s
        = Ok ((true,
               [ContentElement (token p) self (read_pos h starting boundary)
                  (range h starting boundary) []],
               Some (starting, boundary)), s')
        ∧ anchor s' = AnchorInt boundary.2.
Proof.
  intros Hp Hc. simpl. rewrite Hp, Hc. unfold TokenParser_parse.
  eexists. split; [reflexivity|reflexivity].
Qed.

Lemma TokenParser_parse_succeeds_witness :
  ∃ s', _parse Examples.two_lines Examples.token_store Examples.no_language_parse
          1 0%nat (0, 0) (Some (1, 2)) 0 no_kwargs Examples.start
        = Ok ((true,
               [ContentElement (Some "tok"%string) 0%nat
                  (read_pos Examples.two_lines (0, 0) (1, 2))
                  (range Examples.two_lines (0, 0) (1, 2)) []],
               Some ((0, 0), (1, 2))), s')
        ∧ anchor s' = AnchorInt 2.
Proof.
  exact (TokenParser_parse_succeeds Examples.two_lines Examples.token_store
           Examples.no_language_parse 0 0%nat _ (0, 0) (1, 2) 0 no_kwargs
           Examples.start eq_refl eq_refl).
Defined.

(** C7, as stated, fails: after [TokenParser._parse] with the boundary
    [(1, 2)] the anchor is the integer [2], not the position [(1, 2)]. *)
Lemma TokenParser_anchor_is_not_the_boundary :
  ∃ r s', _parse Examples.two_lines Examples.token_store Examples.no_language_parse
            1 0%nat (0, 0) (Some (1, 2)) 0 no_kwargs Examples.start = Ok (r, s')
          ∧ anchor s' = AnchorInt 2
          ∧ anchor s' ≠ AnchorPos (1, 2).
Proof.
  eexists _, _. split; [reflexivity|]. split; [reflexivity|discriminate].
Qed.

(** ** MatchParser *)

(** C8: [MatchParser._parse] returns [(False, [], None)] when the search of
    its pattern between [starting] and [boundary] finds nothing; on a match
    it returns the span of the match with, when the token is not empty, one
    element of that token whose content is the matched text and whose
    captures are the capture children, and otherwise the capture children
    themselves. *)
Theorem MatchParser_parse_result (h : ContentHandler) (store : list GrammarParser)
    lang (fuel : nat) (self : ref) (p : GrammarParser) (starting : POS)
    (boundary : option POS) (verbosity : Z) (kw : kwargs) (s : pstate)
    (found : option (Match * span)) (a : anchor_value) :
  store !! self = Some p →
  class p = MatchParser →
  search h (anchor s) (exp_match p) starting boundary kw = (found, a) →
  ∃ s', _parse h store lang (S fuel) self starting boundary verbosity kw s
        = Ok (match found with
              | None => (false, [], None)
              | Some (matching, sp) =>
                  (true, MatchParser_elements h self p starting boundary kw matching sp,
                   Some sp)
              end, s')
        ∧ anchor s' = a.
Proof.
  intros Hp Hc Hs. simpl. rewrite Hp, Hc.
  unfold MatchParser_parse, match_and_capture, handler_search, MatchParser_elements.
  monad. rewrite Hs. destruct found as [[matching sp]|]; simpl; eauto.
Qed.

Lemma MatchParser_parse_result_witness :
  (∃ s', _parse Examples.ab Examples.match_store Examples.no_language_parse 1 0%nat
           (0, 0) (Some (0, 2)) 0 (kw_child true) Examples.start
         = Ok ((true,
                [ContentElement (Some "letter"%string) 0%nat "b" [(0, 1)]
                   [Captures {| _pattern := "b" |} {| group := "b" |} [] (0, 0)
                      (Some (0, 2)) (kw_child true)]],
                Some ((0, 1), (0, 2))), s')
         ∧ anchor s' = AnchorPos (0, 2))
  ∧ (∃ s', _parse Examples.ab Examples.match_store Examples.no_language_parse 1 1%nat
             (0, 0) (Some (0, 2)) 0 (kw_child true) Examples.start
           = Ok ((true,
                  [Captures {| _pattern := "b" |} {| group := "b" |} [] (0, 0)
                     (Some (0, 2)) (kw_child true)],
                  Some ((0, 1), (0, 2))), s')
           ∧ anchor s' = AnchorPos (0, 2))
  ∧ (∃ s', _parse Examples.ab Examples.match_store Examples.no_language_parse 1 0%nat
             (0, 0) (Some (0, 2)) 0 (kw_child false) Examples.start
           = Ok ((false, [], None), s')
           ∧ anchor s' = AnchorInt 0).
Proof.
  split; [|split].
  - exact (MatchParser_parse_result Examples.ab Examples.match_store
             Examples.no_language_parse 0 0%nat _ (0, 0) (Some (0, 2)) 0 (kw_child true)
             Examples.start (Some ({| group := "b" |}, ((0, 1), (0, 2))))
             (AnchorPos (0, 2)) eq_refl eq_refl eq_refl).
  - exact (MatchParser_parse_result Examples.ab Examples.match_store
             Examples.no_language_parse 0 1%nat _ (0, 0) (Some (0, 2)) 0 (kw_child true)
             Examples.start (Some ({| group := "b" |}, ((0, 1), (0, 2))))
             (AnchorPos (0, 2)) eq_refl eq_refl eq_refl).
  - exact (MatchParser_parse_result Examples.ab Examples.match_store
             Examples.no_language_parse 0 0%nat _ (0, 0) (Some (0, 2)) 0 (kw_child false)
             Examples.start None (AnchorInt 0) eq_refl eq_refl eq_refl).
Defined.

(** ** PatternsParser *)

Lemma enabled_patterns_resolved {S} (store : list GrammarParser) (rs : list ref) (s : S) :
  Forall (λ r, is_Some (store !! r)) rs →
  enabled_patterns store (Parser <$> rs) s
  = Ok (List.filter (λ r, negb (is_disabled store r)) rs, s).
Proof.
  induction 1 as [|r rs [p Hp] _ IH]; [reflexivity|].
  rewrite fmap_cons. simpl. monad. unfold attr. rewrite Hp. monad. rewrite IH.
  unfold is_disabled at 3. rewrite Hp. now destruct (disabled p).
Qed.

(** C6, amended: in [PatternsParser._parse] the loop searches the parser's
    own non-disabled patterns, followed by [injected_patterns] if and only if
    [find_one] or [injections] is true; with both false the search set is
    exactly the parser's own non-disabled patterns. *)
Theorem PatternsParser_search_set (h : ContentHandler) (store : list GrammarParser)
    child (fuel : nat) (self : ref) (p : GrammarParser) (rs : list ref)
    (starting : POS) (boundary : option POS) (verbosity : Z) (kw : kwargs)
    (s : pstate) :
  patterns p = Parser <$> rs →
  Forall (λ r, is_Some (store !! r)) rs →
  let find_one := default true (kw_find_one kw) in
  let injections := default false (kw_injections kw) in
  let own := List.filter (λ r, negb (is_disabled store r)) rs in
  search_set store p find_one injections s
  = Ok (if find_one || injections then own ++ injected_patterns p else own, s)
  ∧ PatternsParser_parse h store child fuel self p starting boundary verbosity kw s
    = (b ← boundary_or_end h boundary;
       PatternsParser_loop child fuel self
         (if find_one || injections then own ++ injected_patterns p else own)
         starting b (default false (kw_allow_leading_all kw)) find_one verbosity []
         starting) s.
Proof.
  intros Hps Hrs find_one injections own.
  assert (Hset : search_set store p find_one injections s
                 = Ok (if find_one || injections then own ++ injected_patterns p
                       else own, s)).
  { unfold search_set. rewrite Hps. monad.
    rewrite (enabled_patterns_resolved store rs s Hrs). reflexivity. }
  split; [exact Hset|].
  unfold PatternsParser_parse. fold find_one. fold injections. monad.
  destruct (boundary_or_end h boundary s) as [[b s1]| |] eqn:Hb; try reflexivity.
  assert (s1 = s) as ->.
  { destruct boundary; simpl in Hb; monad.
    - congruence.
    - unfold end_of_buffer in Hb. destruct (py_index _ _); monad; congruence. }
  rewrite Hset. now destruct starting.
Qed.

Lemma PatternsParser_search_set_witness :
  injected_patterns Examples.injected = [2%nat]
  ∧ search_set Examples.injected_store Examples.injected false false Examples.start
    = Ok ([1%nat], Examples.start)
  ∧ search_set Examples.injected_store Examples.injected false true Examples.start
    = Ok ([1%nat; 2%nat], Examples.start)
  ∧ search_set Examples.injected_store Examples.injected true false Examples.start
    = Ok ([1%nat; 2%nat], Examples.start).
Proof.
  pose proof (λ kw,
                proj1 (PatternsParser_search_set Examples.ab Examples.injected_store
                         Examples.no_language_parse 0 0%nat Examples.injected [1%nat]
                         (0, 0) None 0 kw Examples.start eq_refl
                         ltac:(repeat constructor; eexists; reflexivity))) as H.
  split; [reflexivity|]. split; [|split].
  - exact (H Examples.find_all).
  - exact (H {| kw_allow_leading_all := None; kw_find_one := Some false;
                kw_injections := Some true |}).
  - exact (H {| kw_allow_leading_all := None; kw_find_one := None;
                kw_injections := Some false |}).
Defined.

(** C6, as stated, fails: with [injections] false and [find_one] true (its
    default) the injected pattern is in the search set, and the parse finds
    its match [b] at the start of the buffer [b]. *)
Lemma PatternsParser_injected_without_injections :
  (∃ p, Examples.injected_store !! 0%nat = Some p
        ∧ search_set Examples.injected_store p true false Examples.start
          = Ok ([1%nat; 2%nat], Examples.start)
        ∧ injected_patterns p = [2%nat])
  ∧ ∃ s', _parse (Buffer.handler ["b"%string]) Examples.injected_store
            Examples.no_language_parse 2 0%nat (0, 0) None 0
            {| kw_allow_leading_all := None; kw_find_one := None;
               kw_injections := Some false |} Examples.start
          = Ok ((true,
                 [ContentElement (Some "b"%string) 2%nat "b" [(0, 0)]
                    [Captures {| _pattern := "b" |} {| group := "b" |} [] (0, 0)
                       (Some (0, 1)) (kw_child false)]],
                 Some ((0, 0), (0, 1))), s').
Proof.
  split.
  - eexists. split; [reflexivity|]. split; reflexivity.
  - eexists. vm_compute. reflexivity.
Qed.

(** ** Positions and strings *)

Lemma pos_eqb_eq (p q : POS) : pos_eqb p q = true ↔ p = q.
Proof.
  destruct p as [a b], q as [c d]. unfold pos_eqb. simpl.
  rewrite andb_true_iff, !Z.eqb_eq. split.
  - intros [-> ->]. reflexivity.
  - intros [= -> ->]. split; reflexivity.
Qed.

Lemma pos_eqb_neq (p q : POS) : pos_eqb p q = false ↔ p ≠ q.
Proof.
  rewrite <- pos_eqb_eq. destruct (pos_eqb p q); split; congruence.
Qed.

(** [pattern_at_end], as a proposition. *)
Lemma pattern_at_end_spec (h : ContentHandler) (capture_span end_span : span) :
  pattern_at_end h capture_span end_span = true
  ↔ end_span.2 = capture_span.2
    ∨ (read_length h (prev h capture_span.2) 1 false = newline
       ∧ end_span.2 = prev h capture_span.2).
Proof.
  unfold pattern_at_end.
  destruct (String.eqb _ newline) eqn:E.
  - apply String.eqb_eq in E. rewrite orb_true_iff, !pos_eqb_eq. tauto.
  - apply String.eqb_neq in E. rewrite pos_eqb_eq. tauto.
Qed.

(** ** BeginEndParser: the decision between capture and end pattern *)

(** C1, amended: in an iteration that found both a capture and an end match,
    when the pattern is at the end (the end match stops where the capture
    does or, if the character before the end of the capture is a newline,
    just before it) and the end match starts no later than the capture or is
    empty: an empty end match appends the capture and closes the block at
    the end span; otherwise, with neither [applyEndPatternLast] nor the
    iteration's own flag set, the block closes at the end span and the
    capture is dropped; otherwise the capture is appended and [current]
    becomes the end of the capture, which the iteration's own flag, when
    set, moves one position further before the next iteration. *)
Theorem BeginEndParser_capture_at_end (h : ContentHandler) (store : list GrammarParser)
    child (self : ref) (p : GrammarParser) (boundary : POS) (verbosity : Z)
    (kw : kwargs) (st : loop_state) (s s1 : pstate) (f : found)
    (capture_elements : list element) (capture_span end_span : span) :
  find_capture_and_end h child self p (loop_patterns st) (loop_current st) boundary
    verbosity kw s = Ok (f, s1) →
  found_capture f = Some (capture_elements, capture_span) →
  found_end_span f = Some end_span →
  (end_span.2 = capture_span.2
   ∨ (read_length h (prev h capture_span.2) 1 false = newline
      ∧ end_span.2 = prev h capture_span.2)) →
  (pos_leb end_span.1 capture_span.1 = true ∨ end_span.2 = end_span.1) →
  ∃ m,
    BeginEndParser_iteration h store child self p boundary verbosity kw st s
    = Ok (if pos_eqb end_span.2 end_span.1 then
            Break (closing_of p end_span) end_span
              (loop_mid_elements st ++ capture_elements) (found_end_elements f)
          else if negb (apply_end_pattern_last p) && negb (found_recursed f) then
            Break (closing_of p end_span) end_span (loop_mid_elements st)
              (found_end_elements f)
          else
            Continue
              {| loop_current := if found_recursed f then next h capture_span.2
                                 else capture_span.2;
                 loop_patterns := if loop_first_run st
                                  then not_anchored store (loop_patterns st)
                                  else loop_patterns st;
                 loop_first_run := false;
                 loop_mid_elements := loop_mid_elements st ++ capture_elements;
                 loop_end_elements := found_end_elements f |},
          logged s1 DEBUG m self (loop_current st) verbosity).
Proof.
  intros Hf Hc He Hat Hbefore.
  apply pattern_at_end_spec in Hat.
  assert (Hcond : pattern_at_end h capture_span end_span
                  && (pos_leb end_span.1 capture_span.1
                      || pos_eqb end_span.2 end_span.1) = true).
  { rewrite Hat. simpl. destruct Hbefore as [->| ->%pos_eqb_eq]; [reflexivity|].
    apply orb_true_r. }
  unfold BeginEndParser_iteration. rewrite (bind_Ok _ _ _ _ _ Hf).
  unfold arbitrate. rewrite Hc, He, Hcond.
  destruct (pos_eqb end_span.2 end_span.1).
  - eexists. reflexivity.
  - destruct (negb (apply_end_pattern_last p) && negb (found_recursed f));
      eexists; reflexivity.
Qed.

Lemma BeginEndParser_capture_at_end_witness :
  ∃ m capture_elements end_elements s1,
    BeginEndParser_iteration Examples.aabc Examples.nested_store Examples.nested_child
      0%nat Examples.nested_block (0, 4) 0 no_kwargs Examples.nested_first Examples.start
    = Ok (Continue {| loop_current := (1, 0); loop_patterns := [0%nat];
                      loop_first_run := false; loop_mid_elements := capture_elements;
                      loop_end_elements := end_elements |},
          logged s1 DEBUG m 0%nat (0, 1) 0).
Proof.
  edestruct (BeginEndParser_capture_at_end Examples.aabc Examples.nested_store
               Examples.nested_child 0%nat Examples.nested_block (0, 4) 0 no_kwargs
               Examples.nested_first Examples.start) as [m Hm].
  - vm_compute. reflexivity.
  - reflexivity.
  - reflexivity.
  - left. reflexivity.
  - left. reflexivity.
  - exists m. eexists _, _, _. exact Hm.
Defined.

(** C1, as stated, fails: on the buffer [aabc] the first iteration of the
    rule [block] finds itself as capture over [(0, 1)..(0, 4)] and the end
    match [abc] over the same span; the capture is appended, but the loop
    continues from [(1, 0)], the position after the end of the capture. *)
Lemma BeginEndParser_continues_after_capture_end :
  ∃ f s1 capture_elements st1 s2,
    find_capture_and_end Examples.aabc Examples.nested_child 0%nat
      Examples.nested_block [0%nat] (0, 1) (0, 4) 0 no_kwargs Examples.start
    = Ok (f, s1)
    ∧ found_capture f = Some (capture_elements, ((0, 1), (0, 4)))
    ∧ found_end_span f = Some ((0, 1), (0, 4))
    ∧ found_recursed f = true
    ∧ pattern_at_end Examples.aabc ((0, 1), (0, 4)) ((0, 1), (0, 4)) = true
    ∧ BeginEndParser_iteration Examples.aabc Examples.nested_store
        Examples.nested_child 0%nat Examples.nested_block (0, 4) 0 no_kwargs
        Examples.nested_first Examples.start
      = Ok (Continue st1, s2)
    ∧ loop_mid_elements st1 = capture_elements
    ∧ loop_current st1 = (1, 0)
    ∧ loop_current st1 ≠ (0, 4).
Proof.
  eexists _, _, _, _, _.
  split; [vm_compute; reflexivity|].
  split; [reflexivity|]. split; [reflexivity|]. split; [reflexivity|].
  split; [reflexivity|].
  split; [vm_compute; reflexivity|].
  split; [reflexivity|]. split; [reflexivity|]. discriminate.
Qed.

(** ** BeginEndParser: anchored patterns *)

(** [MatchParser.__init__] and [BeginEndParser.__init__] set [anchored]
    exactly when the pattern, respectively the begin pattern, contains the
    two characters of [\G]. *)
Lemma MatchParser_init_anchored language key name comment disabled match_ captures :
  anchored (MatchParser_init language key name comment disabled match_ captures)
  = contains "\G" match_.
Proof. simpl. now destruct (contains _ _). Qed.

Lemma BeginEndParser_init_anchored language key contentName name comment disabled
    applyEndPatternLast begin_ end_ patterns beginCaptures endCaptures :
  anchored (BeginEndParser_init language key contentName name comment disabled
              applyEndPatternLast begin_ end_ patterns beginCaptures endCaptures)
  = contains "\G" begin_.
Proof. simpl. now destruct (contains _ _). Qed.

Section Attempts.
Context (h : ContentHandler) (store : list GrammarParser).
Context (P : ref → Prop).
Variables child child' : ref → POS → option POS → Z → kwargs → St pstate parse_result.
Hypothesis Hagree : agree P child child'.

(** A pass over the patterns calls the child function on those patterns
    only. *)
Lemma try_patterns_agree patterns current boundary verbosity kw s :
  Forall P patterns →
  try_patterns child' patterns current boundary verbosity kw s
  = try_patterns child patterns current boundary verbosity kw s.
Proof.
  intros HP. revert s. induction HP as [|r rs Hr _ IH]; intros s; [reflexivity|].
  simpl. monad. rewrite (Hagree r Hr).
  destruct (child r current (Some boundary) verbosity kw s) as [[[[[] ?] ?] ?]| |];
    auto.
Qed.

Lemma search_patterns_agree self patterns current boundary allow verbosity kw s :
  Forall P patterns →
  search_patterns child' self patterns current boundary allow verbosity kw s
  = search_patterns child self patterns current boundary allow verbosity kw s.
Proof.
  intros HP. unfold search_patterns. monad.
  now rewrite (try_patterns_agree _ _ _ _ _ _ HP).
Qed.

Lemma find_capture_and_end_agree self p patterns current boundary verbosity kw s :
  Forall P patterns →
  find_capture_and_end h child' self p patterns current boundary verbosity kw s
  = find_capture_and_end h child self p patterns current boundary verbosity kw s.
Proof.
  intros HP. unfold find_capture_and_end. monad.
  rewrite (search_patterns_agree _ _ _ _ _ _ _ _ HP).
  destruct (search_patterns child _ _ _ _ _ _ _ s) as [[[c r] s1]| |]; try reflexivity.
  destruct (match_and_capture _ _ _ _ _ _ s1) as [[[[e ?] ?] s2]| |]; try reflexivity.
  destruct c, e; try reflexivity.
  now rewrite (search_patterns_agree _ _ _ _ _ _ _ _ HP).
Qed.

Lemma BeginEndParser_iteration_agree self p boundary verbosity kw st s :
  Forall P (loop_patterns st) →
  BeginEndParser_iteration h store child' self p boundary verbosity kw st s
  = BeginEndParser_iteration h store child self p boundary verbosity kw st s.
Proof.
  intros HP. unfold BeginEndParser_iteration. monad.
  now rewrite (find_capture_and_end_agree _ _ _ _ _ _ _ _ HP).
Qed.
End Attempts.

(** What one iteration does to the candidate patterns. *)
Lemma BeginEndParser_iteration_patterns h store child self p boundary verbosity kw
    st s st1 s1 :
  BeginEndParser_iteration h store child self p boundary verbosity kw st s
  = Ok (Continue st1, s1) →
  loop_patterns st1 = (if loop_first_run st then not_anchored store (loop_patterns st)
                       else loop_patterns st)
  ∧ loop_first_run st1 = false.
Proof.
  unfold BeginEndParser_iteration. intros H.
  apply bind_Ok_inv in H as (f & s2 & _ & H).
  apply bind_Ok_inv in H as (d & s3 & _ & H).
  destruct d; monad; inversion H; subst; simpl; auto.
Qed.

Lemma not_anchored_Forall (store : list GrammarParser) (patterns : list ref) :
  Forall (λ r, is_anchored store r = false) (not_anchored store patterns).
Proof.
  unfold not_anchored. apply List.Forall_forall. intros r Hr.
  apply List.filter_In in Hr as [_ Hr]. now apply negb_true_iff in Hr.
Qed.

Lemma not_anchored_id (store : list GrammarParser) (patterns : list ref) :
  Forall (λ r, is_anchored store r = false) patterns →
  not_anchored store patterns = patterns.
Proof.
  induction 1 as [|r rs Hr _ IH]; [reflexivity|].
  unfold not_anchored in *. simpl. now rewrite Hr, IH.
Qed.

(** Once the candidate patterns hold no anchored parser, the loop never calls
    one: it runs the same whatever the child function does on them. *)
Lemma BeginEndParser_loop_agree h store child child' fuel self p boundary verbosity kw
    st s :
  agree (λ r, is_anchored store r = false) child child' →
  Forall (λ r, is_anchored store r = false) (loop_patterns st) →
  BeginEndParser_loop h store child' fuel self p boundary verbosity kw st s
  = BeginEndParser_loop h store child fuel self p boundary verbosity kw st s.
Proof.
  intros Hagree. revert st s. induction fuel as [|fuel IH]; intros st s HP; [reflexivity|].
  simpl. destruct (pos_leb (loop_current st) boundary); [|reflexivity].
  monad.
  rewrite (BeginEndParser_iteration_agree h store _ child child' Hagree _ _ _ _ _ _ _ HP).
  destruct (BeginEndParser_iteration h store child self p boundary verbosity kw st s)
    as [[[| st1] s1]| |] eqn:E; try reflexivity.
  apply IH. apply BeginEndParser_iteration_patterns in E as [-> _].
  destruct (loop_first_run st); [apply not_anchored_Forall|exact HP].
Qed.

(** C9, amended: when the first iteration of the loop does not leave it, the
    candidate patterns of the next iteration are the candidates whose
    [anchored] flag is not set, in their order, and [first_run] is cleared;
    every later iteration that does not leave the loop keeps the candidates
    as they are; and the loop itself calls no anchored child again: the rest
    of the loop is the same whatever the child function does on the
    anchored parsers.  This says nothing of the calls that a candidate
    which is kept makes on its own patterns. *)
Theorem BeginEndParser_drops_anchored (h : ContentHandler) (store : list GrammarParser)
    child (self : ref) (p : GrammarParser) (boundary : POS) (verbosity : Z)
    (kw : kwargs) (st st1 : loop_state) (s s1 : pstate) :
  loop_first_run st = true →
  BeginEndParser_iteration h store child self p boundary verbosity kw st s
  = Ok (Continue st1, s1) →
  loop_patterns st1 = List.filter (λ r, negb (is_anchored store r)) (loop_patterns st)
  ∧ (∀ r q, store !! r = Some q →
       (r ∈ loop_patterns st1 ↔ r ∈ loop_patterns st ∧ anchored q = false))
  ∧ loop_first_run st1 = false
  ∧ (∀ st2 s2 st3 s3,
       loop_first_run st2 = false →
       BeginEndParser_iteration h store child self p boundary verbosity kw st2 s2
       = Ok (Continue st3, s3) →
       loop_patterns st3 = loop_patterns st2 ∧ loop_first_run st3 = false)
  ∧ (∀ child' fuel,
       agree (λ r, is_anchored store r = false) child child' →
       BeginEndParser_loop h store child' fuel self p boundary verbosity kw st1 s1
       = BeginEndParser_loop h store child fuel self p boundary verbosity kw st1 s1).
Proof.
  intros Hfirst Hit.
  apply BeginEndParser_iteration_patterns in Hit as [Hps Hrun]. rewrite Hfirst in Hps.
  assert (Hall : Forall (λ r, is_anchored store r = false) (loop_patterns st1))
    by (rewrite Hps; apply not_anchored_Forall).
  split; [exact Hps|]. split; [|split; [exact Hrun|split]].
  - intros r q Hq. rewrite Hps. unfold not_anchored.
    rewrite !list_elem_of_In, List.filter_In. unfold is_anchored. rewrite Hq.
    now rewrite negb_true_iff.
  - intros st2 s2 st3 s3 H2 Hit2.
    apply BeginEndParser_iteration_patterns in Hit2 as [-> ->]. now rewrite H2.
  - intros child' fuel Hagree. now apply BeginEndParser_loop_agree.
Qed.

Lemma BeginEndParser_drops_anchored_witness :
  ∃ st1 s1,
    BeginEndParser_iteration Examples.tag_buffer Examples.tag_store Examples.tag_child
      0%nat Examples.tag (0, 3) 0 no_kwargs Examples.tag_first Examples.start
    = Ok (Continue st1, s1)
    ∧ anchored <$> Examples.tag_store !! 1%nat = Some true
    ∧ anchored <$> Examples.tag_store !! 2%nat = Some false
    ∧ loop_patterns Examples.tag_first = [1%nat; 2%nat]
    ∧ loop_patterns st1 = [2%nat]
    ∧ loop_first_run st1 = false
    ∧ ∀ child' fuel,
        agree (λ r, is_anchored Examples.tag_store r = false) Examples.tag_child child' →
        BeginEndParser_loop Examples.tag_buffer Examples.tag_store child' fuel 0%nat
          Examples.tag (0, 3) 0 no_kwargs st1 s1
        = BeginEndParser_loop Examples.tag_buffer Examples.tag_store Examples.tag_child
            fuel 0%nat Examples.tag (0, 3) 0 no_kwargs st1 s1.
Proof.
  eexists _, _. split; [vm_compute; reflexivity|].
  split; [reflexivity|]. split; [reflexivity|]. split; [reflexivity|].
  pose proof (λ st1, BeginEndParser_drops_anchored Examples.tag_buffer
                       Examples.tag_store Examples.tag_child 0%nat Examples.tag (0, 3)
                       0 no_kwargs Examples.tag_first st1 Examples.start) as H.
  edestruct H as (Hps & _ & Hrun & _ & Hloop).
  - reflexivity.
  - vm_compute. reflexivity.
  - split; [rewrite Hps; reflexivity|]. split; [exact Hrun|exact Hloop].
Defined.

(** C9, as stated, fails: a child that was dropped can be attempted in a
    later iteration, through a candidate that was kept.  In [reached_store]
    the anchored pattern [\Gx] is a pattern of the rule [tag] and of the
    rule [group], which is itself a pattern of [tag].  On the buffer
    [<x:x;>] the first iteration of [tag] parses [x] at [(0, 1)] and leaves
    [group] as the only candidate; in the second iteration [group] parses
    its begin [:] and then calls the anchored pattern, which parses the [x]
    at [(0, 3)]. *)
Lemma BeginEndParser_anchored_reached :
  anchored <$> Examples.reached_store !! 1%nat = Some true
  ∧ ∃ st1 s1 st2 s2,
      BeginEndParser_iteration Examples.reached_buffer Examples.reached_store
        Examples.reached_child 0%nat Examples.reached (0, 6) 0 no_kwargs
        Examples.tag_first (after_begin Examples.start (AnchorPos (0, 1)) 0%nat (0, 0) 0)
      = Ok (Continue st1, s1)
      ∧ loop_patterns st1 = [2%nat]
      ∧ Forall (λ r, log_parser r = 1%nat → log_position r = (0, 1)) (log s1)
      ∧ BeginEndParser_iteration Examples.reached_buffer Examples.reached_store
          Examples.reached_child 0%nat Examples.reached (0, 6) 0 no_kwargs st1 s1
        = Ok (Continue st2, s2)
      ∧ loop_current st1 = (0, 2)
      ∧ {| log_level := INFO; log_message := Found "x"; log_parser := 1%nat;
           log_position := (0, 3); log_verbosity := 2 |} ∈ log s2
      ∧ loop_mid_elements st2
        = [ContentElement (Some "x"%string) 1%nat "x" [(0, 1)]
             [Captures {| _pattern := "\Gx" |} {| group := "x" |} [] (0, 1) (Some (0, 6))
                (kw_child false)];
           ContentBlockElement (Some "group"%string) 2%nat ":x;" [(0, 2); (0, 3); (0, 4)]
             [ContentElement (Some "x"%string) 1%nat "x" [(0, 3)]
                [Captures {| _pattern := "\Gx" |} {| group := "x" |} [] (0, 3)
                   (Some (0, 6)) (kw_child false)]]
             [Captures {| _pattern := ":" |} {| group := ":" |} [] (0, 2) (Some (0, 6))
                (kw_child false)]
             [Captures {| _pattern := ";" |} {| group := ";" |} [] (0, 4) (Some (0, 6))
                (kw_child false)]].
Proof.
  split; [reflexivity|]. eexists _, _, _, _.
  split; [vm_compute; reflexivity|]. split; [reflexivity|].
  split; [repeat constructor; discriminate|].
  split; [vm_compute; reflexivity|]. split; [reflexivity|].
  split; [|reflexivity]. apply list_elem_of_In. simpl. tauto.
Qed.

(** ** BeginEndParser: how the block closes *)

Lemma boundary_or_end_pure {S} (h : ContentHandler) (boundary : option POS) (s s' : S)
    (b : POS) :
  boundary_or_end h boundary s = Ok (b, s') →
  s' = s ∧ ∀ {T} (t : T), boundary_or_end h boundary t = Ok (b, t).
Proof.
  unfold boundary_or_end, end_of_buffer.
  destruct boundary as [b'|]; [|destruct (py_index _ _)]; monad; intros [= <- <-] || intros [=];
    auto.
Qed.

(** The position at which the loop stands when it is left through its
    condition is past the boundary. *)
Lemma BeginEndParser_loop_exhausted h store child fuel self p boundary verbosity kw
    st s st' s' :
  BeginEndParser_loop h store child fuel self p boundary verbosity kw st s
  = Ok (Continue st', s') →
  pos_leb (loop_current st') boundary = false.
Proof.
  revert st s. induction fuel as [|fuel IH]; intros st s; simpl;
    destruct (pos_leb (loop_current st) boundary) eqn:E; monad; try discriminate.
  - intros [= <- <-]. exact E.
  - destruct (BeginEndParser_iteration _ _ _ _ _ _ _ _ _ _) as [[[|st1] s1]| |];
      try discriminate.
    apply IH.
  - intros [= <- <-]. exact E.
Qed.

Lemma match_and_capture_span h pattern starting boundary parsers kw s sp content
    captures s' :
  match_and_capture h pattern starting boundary parsers kw s
  = Ok ((Some sp, content, captures), s') →
  ∃ matching, search h (anchor s) pattern starting boundary kw
              = (Some (matching, sp), anchor s').
Proof.
  unfold match_and_capture, handler_search. monad.
  destruct (search h (anchor s) pattern starting boundary kw) as [[[m sp']|] a];
    intros [= <- <- <- <-]. now exists m.
Qed.

Lemma find_capture_and_end_match h child self p patterns current boundary verbosity kw
    s f s' end_span :
  find_capture_and_end h child self p patterns current boundary verbosity kw s
  = Ok (f, s') →
  found_end_span f = Some end_span →
  end_match h p boundary end_span.
Proof.
  unfold find_capture_and_end. intros H Hf.
  apply bind_Ok_inv in H as ([c r] & s1 & _ & H).
  apply bind_Ok_inv in H as ([[e content] els] & s2 & He & H).
  assert (Hfirst : ∀ f', (mret f' : St pstate found) s2 = Ok (f, s') →
                         found_end_span f' = e → end_match h p boundary end_span).
  { intros f' [= <- <-] <-. destruct (found_end_span f') eqn:E; [|discriminate].
    injection Hf as ->.
    apply match_and_capture_span in He as [m Hm]. now exists (anchor s1), current, false, m, (anchor s2). }
  destruct c as [c|], e as [e|]; try (eapply Hfirst; [exact H|reflexivity]).
  apply bind_Ok_inv in H as ([c' r'] & s3 & _ & H).
  apply bind_Ok_inv in H as ([[e' content'] els'] & s4 & He' & H).
  monad. injection H as <- <-. simpl in Hf. subst e'.
  apply match_and_capture_span in He' as [m Hm].
  now exists (anchor s3), current, true, m, (anchor s4).
Qed.

Lemma arbitrate_Close h self p verbosity current boundary mid_elements f s closing
    end_span mid s' :
  arbitrate h self p verbosity current boundary mid_elements f s
  = Ok (Close closing end_span mid, s') →
  found_end_span f = Some end_span ∧ closing = closing_of p end_span.
Proof.
  unfold arbitrate, LOGGER. monad.
  repeat match goal with
         | |- context [match ?x with _ => _ end] => destruct x eqn:?
         end;
    intros [=]; subst; auto.
Qed.

(** A block that the loop closes by [break] closes at a match of the end
    pattern. *)
Lemma BeginEndParser_loop_Break h store child fuel self p boundary verbosity kw st s
    closing end_span mid_elements end_elements s' :
  BeginEndParser_loop h store child fuel self p boundary verbosity kw st s
  = Ok (Break closing end_span mid_elements end_elements, s') →
  closing = closing_of p end_span ∧ end_match h p boundary end_span.
Proof.
  revert st s. induction fuel as [|fuel IH]; intros st s; simpl;
    destruct (pos_leb (loop_current st) boundary); monad; try discriminate.
  destruct (BeginEndParser_iteration _ _ _ _ _ _ _ _ _ _) as [[[c e m els|st1] s1]| |] eqn:E;
    try discriminate; [|apply IH].
  intros [= -> -> -> -> ->].
  unfold BeginEndParser_iteration in E.
  apply bind_Ok_inv in E as (f & s2 & Hf & E).
  apply bind_Ok_inv in E as (d & s3 & Hd & E).
  destruct d; monad; [|discriminate]. injection E as -> -> -> <- ->.
  apply arbitrate_Close in Hd as [Hes ->].
  split; [reflexivity|]. eapply find_capture_and_end_match; eassumption.
Qed.

(** [BeginEndParser._parse] after a begin match: the loop, then the
    construction of the result. *)
Lemma BeginEndParser_parse_matched h store child fuel self p starting boundary
    verbosity kw s matching begin_span a b ps r s2 :
  search h (anchor s) (exp_begin p) starting boundary
    (kw_child (default false (kw_allow_leading_all kw)))
  = (Some (matching, begin_span), a) →
  boundary_or_end h boundary (after_begin s a self starting verbosity)
  = Ok (b, after_begin s a self starting verbosity) →
  enabled_patterns store (patterns p) (after_begin s a self starting verbosity)
  = Ok (ps, after_begin s a self starting verbosity) →
  BeginEndParser_loop h store child fuel self p b verbosity kw (first_state begin_span ps)
    (after_begin s a self starting verbosity) = Ok (r, s2) →
  BeginEndParser_parse h store child fuel self p starting boundary verbosity kw s
  = Ok ((true,
         block_elements h self p begin_span (begin_captures p matching starting boundary kw)
           b r,
         Some (begin_span.1, (loop_end_span b r).2)),
        logged s2 INFO
          (Found (read_pos h (if between_content p then begin_span.2 else begin_span.1)
                    (loop_closing b r)))
          self (if between_content p then begin_span.2 else begin_span.1) verbosity).
Proof.
  intros Hs Hb Hps Hloop.
  unfold BeginEndParser_parse, match_and_capture, handler_search. monad.
  rewrite Hs. simpl.
  unfold after_begin, logged in Hb, Hps, Hloop. simpl in Hb, Hps, Hloop.
  rewrite Hb, Hps. unfold first_state in Hloop. rewrite Hloop.
  reflexivity.
Qed.

(** C2, amended: when the begin pattern matched and the loop is left through
    its condition, without a [break], the parse succeeds; [closing] is the
    boundary, [end_span] is [(None, boundary)], the loop stands past the
    boundary, and the block built from the elements gathered so far is
    returned over the span from the begin match to the boundary.  The only
    record logged after the loop is the INFO of the block found: this path
    emits no warning. *)
Theorem BeginEndParser_closes_at_boundary (h : ContentHandler)
    (store : list GrammarParser) child (fuel : nat) (self : ref) (p : GrammarParser)
    (starting : POS) (boundary : option POS) (verbosity : Z) (kw : kwargs) (s : pstate)
    (matching : Match) (begin_span : span) (a : anchor_value) (b : POS)
    (ps : list ref) (st : loop_state) (s2 : pstate) :
  search h (anchor s) (exp_begin p) starting boundary
    (kw_child (default false (kw_allow_leading_all kw)))
  = (Some (matching, begin_span), a) →
  boundary_or_end h boundary (after_begin s a self starting verbosity)
  = Ok (b, after_begin s a self starting verbosity) →
  enabled_patterns store (patterns p) (after_begin s a self starting verbosity)
  = Ok (ps, after_begin s a self starting verbosity) →
  BeginEndParser_loop h store child fuel self p b verbosity kw (first_state begin_span ps)
    (after_begin s a self starting verbosity) = Ok (Continue st, s2) →
  let start := if between_content p then begin_span.2 else begin_span.1 in
  let begin_elements := begin_captures p matching starting boundary kw in
  BeginEndParser_parse h store child fuel self p starting boundary verbosity kw s
  = Ok ((true,
         if token_set (token p)
         then [ContentBlockElement (token p) self (read_pos h start b) (range h start b)
                 (loop_mid_elements st) begin_elements (loop_end_elements st)]
         else begin_elements ++ loop_mid_elements st ++ loop_end_elements st,
         Some (begin_span.1, b)),
        logged s2 INFO (Found (read_pos h start b)) self start verbosity)
  ∧ loop_closing b (Continue st) = b
  ∧ loop_end_span b (Continue st) = (None, b)
  ∧ pos_leb (loop_current st) b = false.
Proof.
  intros Hs Hb Hps Hloop start begin_elements.
  split; [|split; [reflexivity|split; [reflexivity|]]].
  - exact (BeginEndParser_parse_matched _ _ _ _ _ _ _ _ _ _ _ _ _ _ _ _ _ _
             Hs Hb Hps Hloop).
  - exact (BeginEndParser_loop_exhausted _ _ _ _ _ _ _ _ _ _ _ _ _ Hloop).
Qed.

Lemma BeginEndParser_closes_at_boundary_witness :
  ∃ st s2,
    BeginEndParser_parse Examples.a_line Examples.unclosed_store Examples.unclosed_child
      2 0%nat Examples.unclosed (0, 0) None 0 no_kwargs Examples.start
    = Ok ((true,
           [ContentBlockElement (Some "block"%string) 0%nat
              (read_pos Examples.a_line (0, 0) (0, 2))
              (range Examples.a_line (0, 0) (0, 2)) (loop_mid_elements st)
              (begin_captures Examples.unclosed {| group := "a" |} (0, 0) None no_kwargs)
              (loop_end_elements st)],
           Some ((0, 0), (0, 2))),
          logged s2 INFO (Found (read_pos Examples.a_line (0, 0) (0, 2))) 0%nat (0, 0) 0)
    ∧ pos_leb (loop_current st) (0, 2) = false.
Proof.
  pose proof (λ st s2,
                BeginEndParser_closes_at_boundary Examples.a_line
                  Examples.unclosed_store Examples.unclosed_child 2 0%nat
                  Examples.unclosed (0, 0) None 0 no_kwargs Examples.start
                  {| group := "a" |} ((0, 0), (0, 1)) (AnchorPos (0, 1)) (0, 2) [] st s2
                  eq_refl eq_refl eq_refl) as H.
  eexists _, _. edestruct H as (Hp & _ & _ & Hlt).
  - vm_compute. reflexivity.
  - split; [exact Hp|exact Hlt].
Defined.

(** C2, as stated, fails: the block [a] of the buffer is never closed by its
    end pattern; the loop is left through its condition and the parse
    returns the block up to the boundary [(0, 2)], but no warning is in the
    log. *)
Lemma BeginEndParser_unclosed_without_warning :
  ∃ st s2 elements s',
    BeginEndParser_loop Examples.a_line Examples.unclosed_store Examples.unclosed_child
      2 0%nat Examples.unclosed (0, 2) 0 no_kwargs (first_state ((0, 0), (0, 1)) [])
      (after_begin Examples.start (AnchorPos (0, 1)) 0%nat (0, 0) 0)
    = Ok (Continue st, s2)
    ∧ _parse Examples.a_line Examples.unclosed_store Examples.no_language_parse 3 0%nat
        (0, 0) None 0 no_kwargs Examples.start
      = Ok ((true, elements, Some ((0, 0), (0, 2))), s')
    ∧ List.filter is_warning (log s') = [].
Proof.
  eexists _, _, _, _.
  split; [vm_compute; reflexivity|].
  split; [vm_compute; reflexivity|].
  reflexivity.
Qed.

(** A round of an enclosing PatternsParser (with [find_one] false) whose
    first pass is won by a child moves [current] to the end of the span the
    child returned. *)
Lemma PatternsParser_round_consumes child self patterns starting boundary
    allow_leading_all verbosity elements current s parser captures sp s1 :
  try_patterns child patterns current boundary (verbosity + 1)
    (kw_child allow_leading_all) s
  = Ok (Some (parser, captures, Some sp), s1) →
  ∃ r s2,
    PatternsParser_round child self patterns starting boundary allow_leading_all false
      verbosity elements current s = Ok (r, s2)
    ∧ round_current r = Some sp.2.
Proof.
  intros H. unfold PatternsParser_round. rewrite (bind_Ok _ _ _ _ _ H).
  unfold consume, span_end, LOGGER. monad.
  destruct (pos_eqb sp.2 starting); eexists _, _; split; reflexivity.
Qed.

(** C10: a successful [BeginEndParser._parse] returns the span from the start
    of the begin match to the end of [end_span], which is the match of the
    end pattern at which the loop broke, or the boundary when the loop was
    left through its condition.  With [contentName] (and a token) the block
    element's content and indices run only from the end of the begin match
    to [closing].  An enclosing PatternsParser that consumes the block moves
    its cursor to the end of the returned span. *)
Theorem BeginEndParser_returned_span (h : ContentHandler) (store : list GrammarParser)
    child (fuel : nat) (self : ref) (p : GrammarParser) (starting : POS)
    (boundary : option POS) (verbosity : Z) (kw : kwargs) (s : pstate)
    (matching : Match) (begin_span : span) (a : anchor_value) (b : POS)
    (ps : list ref) (r : iteration_result) (s2 : pstate) :
  search h (anchor s) (exp_begin p) starting boundary
    (kw_child (default false (kw_allow_leading_all kw)))
  = (Some (matching, begin_span), a) →
  boundary_or_end h boundary (after_begin s a self starting verbosity)
  = Ok (b, after_begin s a self starting verbosity) →
  enabled_patterns store (patterns p) (after_begin s a self starting verbosity)
  = Ok (ps, after_begin s a self starting verbosity) →
  BeginEndParser_loop h store child fuel self p b verbosity kw (first_state begin_span ps)
    (after_begin s a self starting verbosity) = Ok (r, s2) →
  let begin_elements := begin_captures p matching starting boundary kw in
  let elements := block_elements h self p begin_span begin_elements b r in
  let returned := (begin_span.1, (loop_end_span b r).2) in
  (∃ s3, BeginEndParser_parse h store child fuel self p starting boundary verbosity kw s
         = Ok ((true, elements, Some returned), s3))
  ∧ match r with
    | Break closing end_span _ _ =>
        end_match h p b end_span ∧ closing = closing_of p end_span
        ∧ returned = (begin_span.1, end_span.2)
    | Continue _ => loop_closing b r = b ∧ returned = (begin_span.1, b)
    end
  ∧ (between_content p = true → token_set (token p) = true →
     elements
     = [ContentBlockElement (token p) self (read_pos h begin_span.2 (loop_closing b r))
          (range h begin_span.2 (loop_closing b r)) (loop_mid r) begin_elements
          (loop_end r)])
  ∧ (∀ child' self' patterns' starting' boundary' allow' verbosity' elements' current'
       s3 s4 parser,
       try_patterns child' patterns' current' boundary' (verbosity' + 1)
         (kw_child allow') s3
       = Ok (Some (parser, elements, Some returned), s4) →
       ∃ r' s5,
         PatternsParser_round child' self' patterns' starting' boundary' allow' false
           verbosity' elements' current' s3 = Ok (r', s5)
         ∧ round_current r' = Some (loop_end_span b r).2).
Proof.
  intros Hs Hb Hps Hloop begin_elements elements returned.
  split; [|split; [|split]].
  - eexists. exact (BeginEndParser_parse_matched _ _ _ _ _ _ _ _ _ _ _ _ _ _ _ _ _ _
                      Hs Hb Hps Hloop).
  - destruct r as [closing end_span mid_elements end_elements|st].
    + apply BeginEndParser_loop_Break in Hloop as [-> Hend]. auto.
    + auto.
  - intros Hbetween Htoken. unfold elements, block_elements.
    now rewrite Hbetween, Htoken.
  - intros child' self' patterns' starting' boundary' allow' verbosity' elements' current'
      s3 s4 parser Htry.
    exact (PatternsParser_round_consumes _ _ _ _ _ _ _ _ _ _ _ _ _ _ Htry).
Qed.

Lemma BeginEndParser_returned_span_witness :
  ∃ s3, BeginEndParser_parse Examples.tag_buffer Examples.inner_store
          Examples.no_language_parse 2 0%nat Examples.inner (0, 0) None 0 no_kwargs
          Examples.start
        = Ok ((true,
               [ContentBlockElement (Some "inner"%string) 0%nat "y" [(0, 1)] []
                  [Captures {| _pattern := "<" |} {| group := "<" |} [] (0, 0) None
                     (kw_child false)]
                  [Captures {| _pattern := ">" |} {| group := ">" |} [] (0, 1)
                     (Some (0, 3)) (kw_child true)]],
               Some ((0, 0), (0, 3))), s3).
Proof.
  pose proof (λ r s2,
                BeginEndParser_returned_span Examples.tag_buffer Examples.inner_store
                  Examples.no_language_parse 2 0%nat Examples.inner (0, 0) None 0
                  no_kwargs Examples.start {| group := "<" |} ((0, 0), (0, 1))
                  (AnchorPos (0, 1)) (0, 3) [] r s2 eq_refl eq_refl eq_refl) as H.
  edestruct H as (Hp & _).
  - vm_compute. reflexivity.
  - exact Hp.
Defined.

(** ** PatternsParser: the end of the search loop *)

(** The two ways in which a round ends the loop of [PatternsParser._parse]
    that looks for several elements: when no child parses in the pass nor
    in its retry the loop ends at once and logs nothing; when a child
    parses, in the pass or in the retry, and [current] then equals
    [starting], the position at which the parse began, the parser logs the
    warning that the handler did not move and the loop ends. *)
Lemma PatternsParser_loop_stops
    child (fuel : nat) (self : ref) (patterns : list ref) (starting boundary : POS)
    (allow_leading_all : bool) (verbosity : Z) (elements : list element)
    (current : POS) (s s1 : pstate) (first : option (ref * list element * option span)) :
  pos_ltb current boundary = true →
  try_patterns child patterns current boundary (verbosity + 1)
    (kw_child allow_leading_all) s = Ok (first, s1) →
  let retry :=
    try_patterns child (if allow_leading_all then [] else patterns) current boundary
      (verbosity + 1) (kw_child true) s1 in
  let loop :=
    PatternsParser_loop child (S fuel) self patterns starting boundary allow_leading_all
      false verbosity elements current s in
  (∀ s2, first = None → retry = Ok (None, s2) →
         loop = Ok (PatternsParser_result starting elements current, s2))
  ∧ (∀ parser captures sp,
       first = Some (parser, captures, Some sp) → sp.2 = starting →
       loop = Ok (PatternsParser_result starting (elements ++ captures) starting,
                  logged s1 WARNING DidNotMove self starting verbosity))
  ∧ (∀ parser captures sp s2,
       first = None → retry = Ok (Some (parser, captures, Some sp), s2) →
       sp.2 = starting →
       loop = Ok (PatternsParser_result starting (elements ++ captures) starting,
                  logged s2 WARNING DidNotMove self starting verbosity)).
Proof.
  intros Hlt H1 retry loop. subst retry loop. simpl. rewrite Hlt.
  unfold PatternsParser_round, consume, span_end, LOGGER, logged. monad. rewrite H1.
  split; [|split].
  - intros s2 -> H2. now rewrite H2.
  - intros parser captures sp -> Hsp.
    assert (pos_eqb sp.2 starting = true) as -> by now apply pos_eqb_eq.
    now rewrite Hsp.
  - intros parser captures sp s2 -> H2 Hsp. rewrite H2.
    assert (pos_eqb sp.2 starting = true) as -> by now apply pos_eqb_eq.
    now rewrite Hsp.
Qed.

Lemma PatternsParser_loop_stops_witness :
  (∃ s2, PatternsParser_loop (Examples.letters_child Examples.c) 1 0%nat
           [1%nat; 2%nat] (0, 0) (0, 1) false false 0 [] (0, 0) Examples.start
         = Ok (PatternsParser_result (0, 0) [] (0, 0), s2)
         ∧ List.filter is_warning (log s2) = [])
  ∧ (∃ captures s1,
       PatternsParser_loop (Examples.letters_child Examples.b) 1 0%nat
         [1%nat; 2%nat] (0, 0) (0, 1) false false 0 [] (0, 0) Examples.start
       = Ok (PatternsParser_result (0, 0) ([] ++ captures) (0, 0),
             logged s1 WARNING DidNotMove 0%nat (0, 0) 0)).
Proof.
  split.
  - pose proof (λ s1 Ha s2,
                  proj1 (PatternsParser_loop_stops (Examples.letters_child Examples.c)
                           0 0%nat [1%nat; 2%nat] (0, 0) (0, 1) false 0 [] (0, 0)
                           Examples.start s1 None eq_refl Ha) s2 eq_refl) as H.
    eexists. split.
    + eapply H; vm_compute; reflexivity.
    + reflexivity.
  - pose proof (λ s1 parser captures sp Ha,
                  proj1 (proj2 (PatternsParser_loop_stops
                                  (Examples.letters_child Examples.b) 0 0%nat
                                  [1%nat; 2%nat] (0, 0) (0, 1) false 0 [] (0, 0)
                                  Examples.start s1
                                  (Some (parser, captures, Some sp)) eq_refl Ha))
                    parser captures sp eq_refl) as H.
    eexists _, _. eapply H.
    + vm_compute. reflexivity.
    + reflexivity.
Defined.

(** On the buffer [c] the first pass of the parser and its retry find
    nothing; the loop ends with [current] where it was, and no warning is
    logged. *)
Lemma PatternsParser_stops_without_warning :
  pos_ltb (0, 0) (0, 1) = true
  ∧ ∃ s', _parse Examples.c Examples.letters_store Examples.no_language_parse 2 0%nat
            (0, 0) None 0 Examples.find_all Examples.start
          = Ok ((false, [], Some ((0, 0), (0, 0))), s')
          ∧ List.filter is_warning (log s') = [].
Proof.
  split; [reflexivity|]. eexists. split; [vm_compute; reflexivity|reflexivity].
Qed.

(** *** A stall that the loop does not detect *)

Lemma PatternsParser_loop_S child fuel self patterns starting boundary
    allow_leading_all find_one verbosity elements current s :
  pos_ltb current boundary = true →
  PatternsParser_loop child (S fuel) self patterns starting boundary allow_leading_all
    find_one verbosity elements current s
  = (r ← PatternsParser_round child self patterns starting boundary allow_leading_all
           find_one verbosity elements current;
     match r with
     | RoundReturn r => mret r
     | RoundBreak elements current =>
         mret (PatternsParser_result starting elements current)
     | RoundNext elements current =>
         PatternsParser_loop child fuel self patterns starting boundary
           allow_leading_all find_one verbosity elements current
     end) s.
Proof. intros H. simpl. now rewrite H. Qed.

(** On the buffer [ab], a round of the grammar [letters] that starts at
    [(0, 1)] parses the empty match in front of [b] and stays at [(0, 1)]. *)
Lemma letters_round_stalls (k : nat) (elements : list element) (s : pstate) :
  ∃ captures s',
    PatternsParser_round
      (_parse Examples.ab Examples.letters_store Examples.no_language_parse (S k))
      0%nat [1%nat; 2%nat] (0, 0) (0, 2) false false 0 elements (0, 1) s
    = Ok (RoundNext (elements ++ captures) (0, 1), s').
Proof. destruct s. eexists _, _. vm_compute. reflexivity. Qed.

Lemma letters_loop_stalls (k n : nat) (elements : list element) (s : pstate) :
  PatternsParser_loop
    (_parse Examples.ab Examples.letters_store Examples.no_language_parse (S k))
    n 0%nat [1%nat; 2%nat] (0, 0) (0, 2) false false 0 elements (0, 1) s
  = OutOfFuel.
Proof.
  revert elements s. induction n as [|n IH]; intros elements s; [reflexivity|].
  rewrite PatternsParser_loop_S by reflexivity.
  destruct (letters_round_stalls k elements s) as (captures & s' & H).
  rewrite (bind_Ok _ _ _ _ _ H). apply IH.
Qed.

(** C4, on the code: the search loop of [PatternsParser._parse] does not
    end on the buffer [ab] with the patterns [a] and [(?=b)].  The
    first round parses [a] and moves to [(0, 1)]; from there every round
    parses the empty match of [(?=b)] and [current] stays at [(0, 1)].  The
    test after a round compares [current] with [starting], the position at
    which the parse began, not with the position at which the round began:
    [(0, 1)] is not [starting], no warning is logged and the next round
    begins.  No number of rounds is enough. *)
Theorem PatternsParser_loop_livelock (fuel : nat) :
  _parse Examples.ab Examples.letters_store Examples.no_language_parse fuel 0%nat
    (0, 0) None 0 Examples.find_all Examples.start
  = OutOfFuel.
Proof.
  destruct fuel as [|[|k]]; [reflexivity|reflexivity|].
  change (PatternsParser_loop
            (_parse Examples.ab Examples.letters_store Examples.no_language_parse (S k))
            (S k) 0%nat [1%nat; 2%nat] (0, 0) (0, 2) false false 0 [] (0, 0)
            Examples.start = OutOfFuel).
  rewrite PatternsParser_loop_S by reflexivity.
  assert (∃ captures s',
             PatternsParser_round
               (_parse Examples.ab Examples.letters_store Examples.no_language_parse
                  (S k))
               0%nat [1%nat; 2%nat] (0, 0) (0, 2) false false 0 [] (0, 0) Examples.start
             = Ok (RoundNext captures (0, 1), s')) as (captures & s' & H)
    by (eexists _, _; vm_compute; reflexivity).
  rewrite (bind_Ok _ _ _ _ _ H). apply letters_loop_stalls.
Qed.

(** ** Repository initialization: includes that are not found *)

(** An include [#name] whose name is not in the repository of the language
    is resolved to [None]; no exception is raised. *)
Lemma _find_include_absent scopes (g : graph) (self lang : ref) (p l : GrammarParser)
    (name : string) :
  g !! self = Some p →
  language p = Some lang →
  g !! lang = Some l →
  repository l !! name = None →
  _find_include scopes self (Some (String "#" name)) g = Ok (PyNone, g).
Proof.
  intros Hp Hlang Hl Hname. unfold _find_include, lookup_parser. monad.
  rewrite Hp, Hlang. simpl. rewrite Hl, Hname. reflexivity.
Qed.

(** Without a language, [_find_include] raises IncludedParserNotFound. *)
Lemma _find_include_no_language scopes (g : graph) (self : ref) (p : GrammarParser)
    (key : string) :
  g !! self = Some p →
  language p = None →
  _find_include scopes self (Some key) g = Raise (IncludedParserNotFound key).
Proof.
  intros Hp Hlang. unfold _find_include, lookup_parser. monad.
  now rewrite Hp, Hlang.
Qed.

Lemma lookup_parser_Ok (g : graph) (r : ref) (p : GrammarParser) :
  g !! r = Some p → lookup_parser r g = Ok (p, g).
Proof. intros Hp. unfold lookup_parser. now rewrite Hp. Qed.

Lemma update_parser_Ok (g : graph) (r : ref) (p : GrammarParser)
    (f : GrammarParser → GrammarParser) :
  g !! r = Some p → update_parser r f g = Ok ((), <[r := f p]> g).
Proof. intros Hp. unfold update_parser. now rewrite Hp. Qed.

Lemma resolve_patterns_resolved_parsers scopes (g : graph) (self : ref) (rs : list ref) :
  resolve_patterns scopes self (Parser <$> rs) g = Ok (Parser <$> rs, g).
Proof.
  induction rs as [|r rs IH]; [reflexivity|].
  rewrite fmap_cons. cbn [resolve_patterns resolve]. monad. now rewrite IH.
Qed.

Lemma resolve_patterns_parsers scopes (g : graph) (self : ref) (rs : list ref)
    (rest : list slot) :
  resolve_patterns scopes self ((Parser <$> rs) ++ rest) g
  = (vs ← resolve_patterns scopes self rest; mret ((Parser <$> rs) ++ vs)) g.
Proof.
  induction rs as [|r rs IH].
  - simpl. monad. now destruct (resolve_patterns scopes self rest g) as [[]| |].
  - rewrite fmap_cons. cbn [app resolve_patterns resolve]. monad. rewrite IH. monad.
    now destruct (resolve_patterns scopes self rest g) as [[]| |].
Qed.

Lemma initialize_children_skip child (g : graph) (rs : list ref) (rest : list slot) :
  Forall (λ r, ∃ c, g !! r = Some c ∧ initialized c = true) rs →
  initialize_children child ((Parser <$> rs) ++ rest) g
  = initialize_children child rest g.
Proof.
  induction 1 as [|r rs (c & Hc & Hi) _ IH]; [reflexivity|].
  rewrite fmap_cons. cbn [app initialize_children]. unfold get, attr. monad.
  rewrite Hc. monad. rewrite Hi. exact IH.
Qed.

(** C3, on the code: when a PatternsParser that has a language holds, after
    parsers that are initialized, an include [#name] whose name the
    repository of the language does not have, [initialize_repository]
    resolves the include to [None] and then fails with AttributeError when
    it reads [initialized] of that [None]; IncludedParserNotFound is not
    raised. *)
Theorem initialize_repository_missing_include scopes language_init (fuel : nat)
    (g : graph) (self lang : ref) (p l : GrammarParser) (name : string)
    (before after : list ref) :
  g !! self = Some p →
  class p = PatternsParser →
  language p = Some lang →
  lang ≠ self →
  g !! lang = Some l →
  repository l !! name = None →
  patterns p = (Parser <$> before) ++ Include (String "#" name) :: (Parser <$> after) →
  Forall (λ r, r = self ∨ ∃ c, g !! r = Some c ∧ initialized c = true) before →
  initialize_repository scopes language_init (S fuel) self g = Raise AttributeError.
Proof.
  intros Hp Hc Hlang Hne Hl Hname Hps Hbefore.
  cbn [initialize_repository]. rewrite (bind_Ok _ _ _ _ _ (lookup_parser_Ok g self p Hp)).
  rewrite Hc. unfold PatternsParser_initialize_repository.
  rewrite (bind_Ok _ _ _ _ _ (update_parser_Ok g self p set_initialized Hp)).
  set (g1 := <[self := set_initialized p]> g).
  assert (Hself : g1 !! self = Some (set_initialized p))
    by (apply list_lookup_insert_eq; eapply lookup_lt_Some; eassumption).
  assert (Hlang1 : g1 !! lang = Some l)
    by (unfold g1; rewrite list_lookup_insert_ne by congruence; exact Hl).
  rewrite (bind_Ok _ _ _ _ _ (lookup_parser_Ok g1 self _ Hself)).
  cbn [patterns set_initialized with_attrs].
  assert (Hres : resolve_patterns scopes self (patterns p) g1
                 = Ok ((Parser <$> before) ++ PyNone :: (Parser <$> after), g1)).
  { rewrite Hps, resolve_patterns_parsers. cbn [resolve_patterns resolve]. monad.
    assert (Hfind : _find_include scopes self (Some (String "#" name)) g1
                    = Ok (PyNone, g1)) by (eapply _find_include_absent; eauto).
    now rewrite Hfind, (resolve_patterns_resolved_parsers scopes g1 self after). }
  rewrite (bind_Ok _ _ _ _ _ Hres).
  rewrite (bind_Ok _ _ _ _ _ (update_parser_Ok g1 self _ _ Hself)).
  set (g2 := <[self := _]> g1).
  assert (Hskip : Forall (λ r, ∃ c, g2 !! r = Some c ∧ initialized c = true) before).
  { eapply Forall_impl; [exact Hbefore|]. intros r Hr.
    destruct (decide (r = self)) as [->|Hr'].
    - eexists. split.
      + unfold g2. apply list_lookup_insert_eq. eapply lookup_lt_Some; eassumption.
      + reflexivity.
    - destruct Hr as [->|(c & Hr & Hi)]; [congruence|].
      exists c. split; [|exact Hi]. unfold g2, g1.
      now rewrite !list_lookup_insert_ne by congruence. }
  unfold mbind at 1, St_bind.
  now rewrite (initialize_children_skip _ g2 before _ Hskip).
Qed.

Lemma initialize_repository_missing_include_witness :
  initialize_repository Examples.no_scopes Examples.no_language_init 1 1%nat
    Examples.missing_graph
  = Raise AttributeError.
Proof.
  refine (initialize_repository_missing_include Examples.no_scopes
            Examples.no_language_init 0 Examples.missing_graph 1%nat 0%nat _ _
            "missing" [] [] eq_refl eq_refl eq_refl _ eq_refl eq_refl eq_refl _).
  - discriminate.
  - constructor.
Defined.

(** ** Repository initialization: a second call *)

Lemma set_initialized_id (p : GrammarParser) :
  initialized p = true → set_initialized p = p.
Proof. destruct p. simpl. now intros ->. Qed.

Lemma set_patterns_id (p : GrammarParser) : set_patterns (patterns p) p = p.
Proof. now destruct p. Qed.

Lemma update_parser_id (g : graph) (r : ref) (p : GrammarParser)
    (f : GrammarParser → GrammarParser) :
  g !! r = Some p → f p = p → update_parser r f g = Ok ((), g).
Proof.
  intros Hp Hf. unfold update_parser. rewrite Hp, Hf.
  f_equal. f_equal. exact (list_insert_id g r p Hp).
Qed.

Lemma resolve_patterns_resolved scopes (g : graph) (self : ref) (ps : list slot) :
  Forall (resolved g) ps → resolve_patterns scopes self ps g = Ok (ps, g).
Proof.
  induction 1 as [|sl ps (r & c & -> & _) _ IH]; [reflexivity|].
  simpl. monad. now rewrite IH.
Qed.

Lemma initialize_children_resolved child (g : graph) (ps : list slot) :
  Forall (resolved g) ps → initialize_children child ps g = Ok ((), g).
Proof.
  induction 1 as [|sl ps (r & c & -> & Hc & Hi) _ IH]; [reflexivity|].
  cbn [initialize_children]. unfold get, attr. monad. rewrite Hc. monad. rewrite Hi.
  exact IH.
Qed.

(** On a PatternsParser that is initialized and whose patterns are all
    parsers that are initialized, a call of [initialize_repository] resolves
    nothing and initializes no child; all it does is to splice the plain
    PatternsParser children that are among the patterns, and when there is
    none it leaves the graph as it is. *)
Lemma initialize_repository_again scopes language_init (fuel : nat) (self : ref)
    (g : graph) (p : GrammarParser) :
  g !! self = Some p →
  class p = PatternsParser →
  initialized p = true →
  Forall (resolved g) (patterns p) →
  initialize_repository scopes language_init (S fuel) self g
  = splice self (pattern_parsers g (patterns p)) g
  ∧ (pattern_parsers g (patterns p) = [] →
     initialize_repository scopes language_init (S fuel) self g = Ok ((), g)).
Proof.
  intros Hp Hc Hi Hps.
  assert (Heq : initialize_repository scopes language_init (S fuel) self g
                = splice self (pattern_parsers g (patterns p)) g).
  { simpl. unfold lookup_parser at 1. monad. rewrite Hp, Hc.
    unfold PatternsParser_initialize_repository. monad.
    rewrite (update_parser_id g self p _ Hp (set_initialized_id p Hi)).
    unfold lookup_parser at 1. rewrite Hp.
    rewrite (resolve_patterns_resolved scopes g self _ Hps).
    rewrite (update_parser_id g self p _ Hp (set_patterns_id p)).
    rewrite (initialize_children_resolved _ g _ Hps).
    unfold get, lookup_parser at 1. now rewrite Hp. }
  split; [exact Heq|]. intros Hnone. now rewrite Heq, Hnone.
Qed.

(** ** Repository initialization: graphs without cycles *)

Lemma evolves_refl g : evolves g g.
Proof. split; [reflexivity|]. intros r p Hp. exists p. auto. Qed.

Lemma evolves_trans g1 g2 g3 : evolves g1 g2 → evolves g2 g3 → evolves g1 g3.
Proof.
  intros [L1 H1] [L2 H2]. split; [congruence|]. intros r p Hp.
  destruct (H1 r p Hp) as (p2 & Hp2 & ? & ? & ? & ?).
  destruct (H2 r p2 Hp2) as (p3 & Hp3 & ? & ? & ? & ?).
  exists p3. repeat split; try congruence. auto.
Qed.

Lemma evolves_insert (g : graph) r p q :
  g !! r = Some p → class q = class p → language q = language p →
  repository q = repository p → (initialized p = true → initialized q = true) →
  evolves g (<[r := q]> g).
Proof.
  intros Hp Hc Hl Hr Hi. split; [apply length_insert|]. intros r' p' Hp'.
  destruct (decide (r' = r)) as [->|Hne].
  - exists q. rewrite list_lookup_insert_eq by (eapply lookup_lt_Some; eauto).
    assert (p' = p) as -> by congruence. auto.
  - exists p'. rewrite list_lookup_insert_ne by congruence. auto.
Qed.

Lemma evolves_is_Some g g' (r : ref) : evolves g g' → is_Some (g !! r) → is_Some (g' !! r).
Proof. intros [_ H] [p Hp]. destruct (H r p Hp) as (p' & -> & _). eauto. Qed.

Lemma evolves_None g g' (r : ref) : evolves g g' → g !! r = None → g' !! r = None.
Proof.
  intros [L _] H. apply lookup_ge_None in H. apply lookup_ge_None. lia.
Qed.

Lemma resolved_evolves g g' sl : evolves g g' → resolved g sl → resolved g' sl.
Proof.
  intros [_ H] (r & c & -> & Hc & Hi). destruct (H r c Hc) as (c' & Hc' & _ & _ & _ & Hi').
  exists r, c'. auto.
Qed.

Lemma pattern_parsers_evolves g g' ps :
  evolves g g' → pattern_parsers g' ps = pattern_parsers g ps.
Proof.
  intros Hev. induction ps as [|[r| |] ps IH]; simpl; auto.
  destruct (g !! r) as [c|] eqn:Hc.
  - destruct Hev as [_ H]. destruct (H r c Hc) as (c' & -> & Hcl & _). rewrite Hcl.
    destruct (decide (class c = PatternsParser)); congruence.
  - now rewrite (evolves_None g g' r Hev Hc).
Qed.

Lemma slot_ok_evolves rank g g' r p p' sl :
  evolves g g' → language p' = language p →
  slot_ok rank g r p sl → slot_ok rank g' r p' sl.
Proof.
  intros Hev Hl. destruct sl as [c|key|]; simpl; auto.
  - intros [? ?]. split; [auto|]. eapply evolves_is_Some; eauto.
  - intros (lang & Hlang & Hr & Hs & Hkey). exists lang. rewrite Hl.
    repeat split; auto; [eapply evolves_is_Some; eauto|].
    destruct Hkey as [?|[?|(name & -> & Hname)]]; auto.
    right. right. exists name. split; [reflexivity|]. intros l' c Hl' Hc.
    destruct Hs as [l Hlk]. destruct Hev as [Hlen H].
    destruct (H lang l Hlk) as (l2 & Hl2 & _ & _ & Hrep & _).
    assert (l2 = l') as -> by congruence. rewrite Hrep in Hc.
    destruct (Hname l c Hlk Hc) as [? ?]. split; [auto|].
    eapply evolves_is_Some; [split; eassumption|auto].
Qed.

Lemma settled_evolves g g' p :
  evolves g g' → settled g p → settled g' p.
Proof.
  intros Hev (Hi & Hres & Hpp). split; [auto|]. split.
  - eapply Forall_impl; [exact Hres|]. intros sl. now apply resolved_evolves.
  - intros Hc. rewrite (pattern_parsers_evolves g g' _ Hev). auto.
Qed.


Lemma pattern_parsers_app g ps qs :
  pattern_parsers g (ps ++ qs) = pattern_parsers g ps ++ pattern_parsers g qs.
Proof.
  induction ps as [|[r| |] ps IH]; simpl; auto.
  destruct (g !! r) as [c|]; auto.
  destruct (decide (class c = PatternsParser)); simpl; congruence.
Qed.

Lemma pattern_parsers_elem g ps c :
  c ∈ pattern_parsers g ps →
  ∃ pc, g !! c = Some pc ∧ class pc = PatternsParser ∧ Parser c ∈ ps.
Proof.
  induction ps as [|sl ps IH]; simpl.
  - intros H. inversion H.
  - assert (Htail : c ∈ pattern_parsers g ps →
                    ∃ pc, g !! c = Some pc ∧ class pc = PatternsParser
                          ∧ Parser c ∈ sl :: ps).
    { intros H. destruct (IH H) as (pc & ? & ? & ?). exists pc. split_and!; auto.
      now right. }
    destruct sl as [r| |]; auto.
    destruct (g !! r) as [pr|] eqn:Hr; auto.
    destruct (decide (class pr = PatternsParser)); auto.
    intros [->|H]%elem_of_cons; auto. exists pr. split_and!; auto. left.
Qed.

(** The first plain PatternsParser among the patterns is where [index]
    finds it. *)
Lemma pattern_parsers_first g cur c rest :
  pattern_parsers g cur = c :: rest →
  ∃ pre post, cur = pre ++ Parser c :: post
              ∧ pattern_parsers g pre = [] ∧ pattern_parsers g post = rest
              ∧ index_of (Parser c) cur = Some (length pre).
Proof.
  induction cur as [|sl cur IH]; [discriminate|].
  intros H.
  assert (Hc : ∃ pc, g !! c = Some pc ∧ class pc = PatternsParser).
  { destruct (pattern_parsers_elem g (sl :: cur) c) as (pc & ? & ? & _);
      [rewrite H; left|eauto]. }
  destruct Hc as (pc & Hpc & Hcl).
  assert (Hskip : pattern_parsers g (sl :: cur) = pattern_parsers g cur →
                  sl ≠ Parser c →
                  ∃ pre post, sl :: cur = pre ++ Parser c :: post
                    ∧ pattern_parsers g pre = [] ∧ pattern_parsers g post = rest
                    ∧ index_of (Parser c) (sl :: cur) = Some (length pre)).
  { intros Heq Hne. rewrite Heq in H. destruct (IH H) as (pre & post & -> & Hpre & Hpost & Hi).
    exists (sl :: pre), post. split_and!; auto.
    - change (pattern_parsers g ([sl] ++ pre) = []). rewrite pattern_parsers_app, Hpre.
      rewrite app_nil_r. change (pattern_parsers g (sl :: cur') = pattern_parsers g cur')
        in Heq || idtac.
      destruct sl as [r| |]; simpl in *; auto.
      destruct (g !! r) as [pr|]; auto.
      destruct (decide (class pr = PatternsParser)); auto.
      exfalso. rewrite pattern_parsers_app in Heq. simpl in Heq.
      apply (f_equal length) in Heq. simpl in Heq. rewrite !length_app in Heq.
      simpl in Heq. lia.
    - simpl. destruct (decide (sl = Parser c)); [contradiction|]. now rewrite Hi. }
  destruct sl as [r| |]; [|apply Hskip; [reflexivity|discriminate]..].
  simpl in H. destruct (g !! r) as [pr|] eqn:Hr.
  - destruct (decide (class pr = PatternsParser)) as [Hpr|Hpr].
    + injection H as -> Hrest. exists [], cur. split_and!; auto.
      simpl. destruct (decide (Parser c = Parser c)); [reflexivity|contradiction].
    + apply Hskip.
      * simpl. rewrite Hr. destruct (decide (class pr = PatternsParser)); congruence.
      * intros [= ->]. congruence.
  - apply Hskip.
    + simpl. now rewrite Hr.
    + intros [= ->]. congruence.
Qed.


Lemma set_patterns_set_patterns a b p : set_patterns a (set_patterns b p) = set_patterns a p.
Proof. reflexivity. Qed.

Lemma evolves_set_patterns (g : graph) self p cur :
  g !! self = Some p → evolves g (<[self := set_patterns cur p]> g).
Proof. intros Hp. apply (evolves_insert g self p); auto. Qed.

(** The splice leaves patterns that are resolved and hold no plain
    PatternsParser, when the parsers spliced in are such themselves. *)
Lemma splice_ok (Q : slot → Prop) todo :
  ∀ g g' self p,
    g !! self = Some p →
    pattern_parsers g (patterns p) = todo →
    Forall (resolved g) (patterns p) → Forall Q (patterns p) →
    (∀ c, c ∈ todo → c ≠ self) →
    (∀ c pc, c ∈ todo → g !! c = Some pc →
       pattern_parsers g (patterns pc) = [] ∧ Forall (resolved g) (patterns pc)
       ∧ Forall Q (patterns pc)) →
    splice self todo g = Ok ((), g') →
    evolves g g' ∧ (∀ r, r ≠ self → g' !! r = g !! r)
    ∧ ∃ cur', g' !! self = Some (set_patterns cur' p)
              ∧ pattern_parsers g' cur' = [] ∧ Forall (resolved g') cur' ∧ Forall Q cur'.
Proof.
  induction todo as [|c rest IH]; intros g g' self p Hp Htodo Hres HQ Hne Hch.
  - intros [= <-]. split_and!; auto using evolves_refl.
    exists (patterns p). rewrite set_patterns_id. auto.
  - cbn [splice]. intros H.
    rewrite (bind_Ok _ _ _ _ _ (lookup_parser_Ok g self p Hp)) in H.
    destruct (pattern_parsers_elem g (patterns p) c) as (pc & Hpc & Hcl & _);
      [rewrite Htodo; left|].
    rewrite (bind_Ok _ _ _ _ _ (lookup_parser_Ok g c pc Hpc)) in H.
    destruct (pattern_parsers_first g _ c rest Htodo)
      as (pre & post & Hcur & Hpre & Hpost & Hidx).
    rewrite Hidx in H.
    assert (Htake : take (length pre) (patterns p) = pre)
      by (rewrite Hcur; apply take_app_length).
    assert (Hdrop : drop (S (length pre)) (patterns p) = post).
    { rewrite Hcur. change (pre ++ Parser c :: post) with (pre ++ [Parser c] ++ post).
      rewrite app_assoc. rewrite drop_app_length'; [reflexivity|].
      rewrite length_app. simpl. lia. }
    rewrite Htake, Hdrop in H.
    set (cur1 := pre ++ patterns pc ++ post) in H.
    rewrite (bind_Ok _ _ _ _ _ (update_parser_Ok g self p _ Hp)) in H.
    set (g1 := <[self := set_patterns cur1 p]> g) in H.
    assert (Hev1 : evolves g g1) by now apply evolves_set_patterns.
    assert (Hself1 : g1 !! self = Some (set_patterns cur1 p))
      by (apply list_lookup_insert_eq; eapply lookup_lt_Some; eauto).
    assert (Hother : ∀ r, r ≠ self → g1 !! r = g !! r)
      by (intros r Hr; unfold g1; now rewrite list_lookup_insert_ne by congruence).
    destruct (Hch c pc ltac:(left) Hpc) as (Hpc1 & Hpc2 & Hpc3).
    rewrite Hcur in Hres, HQ.
    apply Forall_app in Hres as [Hres1 Hres2]. apply Forall_cons in Hres2 as [_ Hres2].
    apply Forall_app in HQ as [HQ1 HQ2]. apply Forall_cons in HQ2 as [_ HQ2].
    destruct (IH g1 g' self (set_patterns cur1 p) Hself1) as (Hev & Hframe & cur' & Hs & Hpp & Hr & Hq).
    + rewrite (pattern_parsers_evolves g g1 _ Hev1). cbn [patterns set_patterns with_attrs].
      unfold cur1. rewrite !pattern_parsers_app, Hpre, Hpc1, Hpost. reflexivity.
    + cbn [patterns set_patterns with_attrs]. unfold cur1.
      eapply Forall_impl; [|intros sl; apply (resolved_evolves g g1 sl Hev1)].
      rewrite !Forall_app. auto.
    + cbn [patterns set_patterns with_attrs]. unfold cur1. rewrite !Forall_app. auto.
    + intros c' Hc'. apply Hne. now right.
    + intros c' pc' Hc' Hpc'. rewrite Hother in Hpc' by (apply Hne; now right).
      destruct (Hch c' pc' ltac:(now right) Hpc') as (H0 & H1 & H2).
      rewrite (pattern_parsers_evolves g g1 _ Hev1). split_and!; auto.
      eapply Forall_impl; [exact H1|]. intros sl. now apply resolved_evolves.
    + exact H.
    + split_and!.
      * eapply evolves_trans; eauto.
      * intros r Hr'. rewrite Hframe by auto. auto.
      * exists cur'. rewrite set_patterns_set_patterns in Hs. auto.
Qed.

Section Acyclic.
Variable scopes : graph → ref → string → res slot.
Variable language_init : ref → St graph unit.
Variable rank : ref → nat.

Lemma resolve_ok g self p sl sl' g' :
  g !! self = Some p →
  slot_ok rank g self p sl →
  resolve scopes self sl g = Ok (sl', g') →
  g' = g ∧ good_slot rank g (rank self) sl'.
Proof.
  intros Hp Hok. destruct sl as [c|key|]; simpl.
  - intros [= <- <-]. split; [reflexivity|]. right. exists c. destruct Hok. auto.
  - destruct Hok as (lang & Hlang & Hr & Hs & Hkey).
    unfold _find_include. rewrite (bind_Ok _ _ _ _ _ (lookup_parser_Ok g self p Hp)).
    rewrite Hlang.
    destruct Hkey as [->|[->|(name & -> & Hname)]].
    + simpl. intros [= <- <-]. split; [reflexivity|]. right. exists lang. auto.
    + simpl. intros [= <- <-]. split; [reflexivity|]. right. exists lang. auto.
    + destruct Hs as [l Hl].
      rewrite bool_decide_eq_false_2 by discriminate.
      rewrite bool_decide_eq_false_2 by discriminate. simpl.
      rewrite (bind_Ok _ _ _ _ _ (lookup_parser_Ok g lang l Hl)).
      destruct (repository l !! name) as [c|] eqn:Hc; intros [= <- <-];
        (split; [reflexivity|]).
      * right. exists c. destruct (Hname l c Hl Hc). auto.
      * now left.
  - unfold _find_include. rewrite (bind_Ok _ _ _ _ _ (lookup_parser_Ok g self p Hp)).
    destruct (language p); discriminate.
Qed.

Lemma resolve_patterns_ok g self p ps ps' g' :
  g !! self = Some p →
  Forall (slot_ok rank g self p) ps →
  resolve_patterns scopes self ps g = Ok (ps', g') →
  g' = g ∧ Forall (good_slot rank g (rank self)) ps'.
Proof.
  intros Hp Hok. revert ps' g'. induction Hok as [|sl ps Hsl _ IH]; intros ps' g'.
  - intros [= <- <-]. auto.
  - cbn [resolve_patterns]. intros H.
    apply bind_Ok_inv in H as (v & g1 & Hv & H).
    apply bind_Ok_inv in H as (vs & g2 & Hvs & H).
    injection H as <- <-.
    destruct (resolve_ok g self p sl v g1 Hp Hsl Hv) as [-> Hgood].
    destruct (IH vs g2 Hvs) as [-> Hgoods]. auto.
Qed.

Lemma good_slot_evolves g g' k sl : evolves g g' → good_slot rank g k sl → good_slot rank g' k sl.
Proof.
  intros Hev [->|(c & -> & Hr & Hs)]; [now left|]. right. exists c.
  repeat split; auto. eapply evolves_is_Some; eauto.
Qed.

Lemma initialize_children_ok child ps g g' k :
  child_spec rank child →
  Forall (good_slot rank g k) ps →
  acyclic rank g → settled_below rank k g →
  initialize_children child ps g = Ok ((), g') →
  acyclic rank g' ∧ settled_below rank k g' ∧ evolves g g'
  ∧ (∀ r, (k ≤ rank r)%nat → g' !! r = g !! r)
  ∧ Forall (resolved g') ps.
Proof.
  intros Hchild. revert g g'. induction ps as [|sl ps IH]; intros g g' Hps Hac Hset.
  - intros [= <-]. split_and!; auto using evolves_refl.
  - apply Forall_cons in Hps as [Hsl Hps].
    cbn [initialize_children]. unfold get. intros H.
    apply bind_Ok_inv in H as (s & g0 & [= <- <-] & H).
    apply bind_Ok_inv in H as (i & g0 & Hi & H).
    destruct Hsl as [->|(c & -> & Hr & [pc Hpc])]; [discriminate Hi|].
    unfold attr in Hi. rewrite Hpc in Hi. injection Hi as <- <-.
    apply bind_Ok_inv in H as ([] & g1 & Hc & H).
    destruct (initialized pc) eqn:Hini.
    + injection Hc as <-.
      destruct (IH g g' Hps Hac Hset H) as (? & ? & Hev & ? & ?).
      split_and!; auto. constructor; [|auto].
      eapply resolved_evolves; [exact Hev|]. exists c, pc. auto.
    + destruct (Hchild c g g1 k pc Hac Hset Hr Hpc Hini Hc)
        as (Hac1 & Hset1 & Hev1 & Hframe1 & p1 & Hp1 & Hs1).
      assert (Hps1 : Forall (good_slot rank g1 k) ps).
      { eapply Forall_impl; [exact Hps|]. intros sl. now apply good_slot_evolves. }
      destruct (IH g1 g' Hps1 Hac1 Hset1 H) as (? & ? & Hev & Hframe & ?).
      split_and!; auto.
      * eapply evolves_trans; eauto.
      * intros r Hk. rewrite Hframe by auto. apply Hframe1; [lia|].
        intros ->. lia.
      * constructor; [|auto]. eapply resolved_evolves; [exact Hev|].
        exists c, p1. destruct Hs1 as (? & _). auto.
Qed.

Lemma used_slots_set_patterns (P : slot → Prop) ps q :
  Forall P ps → Forall P (used_slots q) → Forall P (used_slots (set_patterns ps q)).
Proof.
  unfold used_slots. cbn [class set_patterns with_attrs patterns parsers parsers_begin
                          parsers_end].
  destruct (class q); auto. rewrite !Forall_app. tauto.
Qed.

Lemma acyclic_change g g' self p q :
  acyclic rank g → evolves g g' → (∀ r, r ≠ self → g' !! r = g !! r) →
  g !! self = Some p → g' !! self = Some q →
  Forall (slot_ok rank g' self q) (used_slots q) →
  NoDup (parsers q).*1 → NoDup (parsers_begin q).*1 → NoDup (parsers_end q).*1 →
  acyclic rank g'.
Proof.
  intros Hac Hev Hframe Hp Hq Hslots Hps Hpb Hpe r pr Hr.
  destruct (decide (r = self)) as [->|Hne].
  - assert (pr = q) as -> by congruence.
    destruct (Hac self p Hp) as (_ & _ & _ & _ & Hleaf).
    split_and!; auto.
    destruct Hev as [_ Hev]. destruct (Hev self p Hp) as (q' & Hq' & Hc & _ & _ & Hi).
    assert (q' = q) as -> by congruence. rewrite Hc. auto.
  - rewrite Hframe in Hr by auto.
    destruct (Hac r pr Hr) as (Hsl & ? & ? & ? & ?). split_and!; auto.
    eapply Forall_impl; [exact Hsl|]. intros sl. now apply slot_ok_evolves.
Qed.

Lemma acyclic_NoDup g r p :
  acyclic rank g → g !! r = Some p →
  NoDup (parsers p).*1 ∧ NoDup (parsers_begin p).*1 ∧ NoDup (parsers_end p).*1.
Proof. intros Hac Hp. destruct (Hac r p Hp) as (_ & ? & ? & ? & _). auto. Qed.

Lemma settled_below_change g g' self k :
  settled_below rank k g → evolves g g' → (∀ r, r ≠ self → g' !! r = g !! r) →
  (k ≤ rank self)%nat → settled_below rank k g'.
Proof.
  intros Hset Hev Hframe Hk r pr Hr Hrank Hi.
  assert (r ≠ self) by (intros ->; lia).
  rewrite Hframe in Hr by auto. eapply settled_evolves; eauto.
Qed.

Lemma settled_below_lift g g1 self k :
  settled_below rank k g → evolves g g1 →
  (∀ r, (rank self ≤ rank r)%nat → r ≠ self → g1 !! r = g !! r) →
  settled_below rank (rank self) g1 →
  (∀ p1, g1 !! self = Some p1 → settled g1 p1) →
  settled_below rank k g1.
Proof.
  intros Hset Hev Hframe Hlow Hself r pr Hr Hrank Hi.
  destruct (decide (r = self)) as [->|Hne]; [auto|].
  destruct (decide (rank r < rank self)%nat); [eapply Hlow; eauto|].
  rewrite Hframe in Hr by (auto; lia). eapply settled_evolves; eauto.
Qed.

Lemma settled_below_le g k k' :
  settled_below rank k g → (k' ≤ k)%nat → settled_below rank k' g.
Proof. intros H Hk r p Hr Hrank. apply (H r p Hr). lia. Qed.

Lemma good_resolved_lower g self sl :
  good_slot rank g (rank self) sl → resolved g sl → lower rank self sl.
Proof.
  intros [->|(c & -> & ? & ?)] (r & pc & Heq & _); [discriminate|]. exists c. auto.
Qed.

Lemma lower_resolved_slot_ok g self p sl :
  lower rank self sl → resolved g sl → slot_ok rank g self p sl.
Proof.
  intros (c & -> & Hr) (r & pc & [= <-] & Hc & _). simpl. eauto.
Qed.

Lemma good_slot_ok g self p sl : good_slot rank g (rank self) sl → slot_ok rank g self p sl.
Proof. intros [->|(c & -> & ? & ?)]; simpl; auto. Qed.

Lemma lookup_insert_self (g : graph) self (p q : GrammarParser) :
  g !! self = Some p → <[self := q]> g !! self = Some q.
Proof. intros Hp. apply list_lookup_insert_eq. eapply lookup_lt_Some; eauto. Qed.

(** [PatternsParser.initialize_repository], on a PatternsParser or from
    [BeginEndParser.initialize_repository]. *)
Lemma patterns_part_ok child self g g1 p :
  child_spec rank child →
  acyclic rank g → settled_below rank (rank self) g →
  g !! self = Some p →
  Forall (slot_ok rank g self p) (patterns p) →
  PatternsParser_initialize_repository scopes child self g = Ok ((), g1) →
  acyclic rank g1 ∧ settled_below rank (rank self) g1 ∧ evolves g g1
  ∧ (∀ r, r ≠ self → (rank self ≤ rank r)%nat → g1 !! r = g !! r)
  ∧ ∃ cur, g1 !! self = Some (set_patterns cur (set_initialized p))
           ∧ Forall (resolved g1) cur ∧ pattern_parsers g1 cur = []
           ∧ Forall (lower rank self) cur.
Proof.
  intros Hchild Hac Hset Hp Hpat H. unfold PatternsParser_initialize_repository in H.
  rewrite (bind_Ok _ _ _ _ _ (update_parser_Ok g self p _ Hp)) in H.
  set (q1 := set_initialized p) in *. set (ga := <[self := q1]> g) in *.
  assert (Hqa : ga !! self = Some q1) by (eapply lookup_insert_self; eauto).
  assert (Heva : evolves g ga) by (apply (evolves_insert g self p); auto).
  assert (Hfa : ∀ r, r ≠ self → ga !! r = g !! r)
    by (intros r Hr; unfold ga; now rewrite list_lookup_insert_ne by congruence).
  assert (Haca : acyclic rank ga).
  { destruct (acyclic_NoDup g self p Hac Hp) as (? & ? & ?).
    apply (acyclic_change g ga self p q1); auto.
    destruct (Hac self p Hp) as (Hsl & _).
    eapply Forall_impl; [exact Hsl|]. intros sl. now apply slot_ok_evolves. }
  assert (Hseta : settled_below rank (rank self) ga)
    by (eapply settled_below_change; eauto).
  rewrite (bind_Ok _ _ _ _ _ (lookup_parser_Ok ga self q1 Hqa)) in H.
  apply bind_Ok_inv in H as (ps & ga' & Hres & H).
  destruct (resolve_patterns_ok ga self q1 (patterns q1) ps ga' Hqa) as [-> Hgood]; auto.
  { eapply Forall_impl; [exact Hpat|]. intros sl. now apply slot_ok_evolves. }
  rewrite (bind_Ok _ _ _ _ _ (update_parser_Ok ga self q1 _ Hqa)) in H.
  set (q2 := set_patterns ps q1) in *. set (gb := <[self := q2]> ga) in *.
  assert (Hqb : gb !! self = Some q2) by (eapply lookup_insert_self; eauto).
  assert (Hevb : evolves ga gb) by (apply (evolves_insert ga self q1); auto).
  assert (Hfb : ∀ r, r ≠ self → gb !! r = ga !! r)
    by (intros r Hr; unfold gb; now rewrite list_lookup_insert_ne by congruence).
  assert (Hgoodb : Forall (good_slot rank gb (rank self)) ps).
  { eapply Forall_impl; [exact Hgood|]. intros sl. now apply good_slot_evolves. }
  assert (Hacb : acyclic rank gb).
  { destruct (acyclic_NoDup ga self q1 Haca Hqa) as (? & ? & ?).
    apply (acyclic_change ga gb self q1 q2); auto.
    apply used_slots_set_patterns.
    - eapply Forall_impl; [exact Hgoodb|]. intros sl. apply good_slot_ok.
    - destruct (Haca self q1 Hqa) as (Hsl & _).
      eapply Forall_impl; [exact Hsl|]. intros sl. now apply slot_ok_evolves. }
  assert (Hsetb : settled_below rank (rank self) gb)
    by (eapply settled_below_change; eauto).
  apply bind_Ok_inv in H as ([] & gc & Hchildren & H).
  destruct (initialize_children_ok child ps gb gc (rank self) Hchild Hgoodb Hacb Hsetb
              Hchildren) as (Hacc & Hsetc & Hevc & Hfc & Hresc).
  unfold get in H. rewrite (bind_Ok _ _ gc gc gc eq_refl) in H.
  assert (Hqc : gc !! self = Some q2) by (rewrite Hfc by lia; exact Hqb).
  rewrite (bind_Ok _ _ _ _ _ (lookup_parser_Ok gc self q2 Hqc)) in H.
  assert (Hlowc : Forall (lower rank self) ps).
  { apply Forall_forall. intros sl Hsl.
    eapply good_resolved_lower.
    - eapply good_slot_evolves; [exact Hevc|]. eapply Forall_forall in Hgoodb; eauto.
    - eapply Forall_forall in Hresc; eauto. }
  destruct (splice_ok (lower rank self) (pattern_parsers gc (patterns q2)) gc g1 self q2 Hqc
              eq_refl)
    as (Hev1 & Hf1 & cur & Hq1 & Hpp1 & Hres1 & Hlow1); auto.
  - intros c Hc. destruct (pattern_parsers_elem gc _ c Hc) as (pc & _ & _ & Hin).
    eapply Forall_forall in Hlowc; [|exact Hin].
    destruct Hlowc as (c' & [= <-] & Hr). intros ->. lia.
  - intros c pc Hc Hpc.
    destruct (pattern_parsers_elem gc _ c Hc) as (pc' & Hpc' & Hcl & Hin).
    assert (pc' = pc) as -> by congruence.
    assert (Hrank : (rank c < rank self)%nat).
    { eapply Forall_forall in Hlowc; [|exact Hin]. destruct Hlowc as (c' & [= <-] & Hr).
      exact Hr. }
    assert (Hini : initialized pc = true).
    { eapply Forall_forall in Hresc; [|exact Hin].
      destruct Hresc as (c' & pc' & [= <-] & Hpc'' & Hi). congruence. }
    destruct (Hsetc c pc Hpc Hrank Hini) as (_ & Hr & Hpp).
    unfold used_slots in Hr. rewrite Hcl in Hr. split_and!; auto.
    destruct (Hacc c pc Hpc) as (Hsl & _). unfold used_slots in Hsl. rewrite Hcl in Hsl.
    apply Forall_forall. intros sl Hsl'.
    eapply Forall_forall in Hsl; [|exact Hsl']. eapply Forall_forall in Hr; [|exact Hsl'].
    destruct Hr as (c' & pc' & -> & _ & _). destruct Hsl as [Hlt _].
    exists c'. split; [reflexivity|lia].
  - split_and!.
    + destruct (acyclic_NoDup gc self q2 Hacc Hqc) as (? & ? & ?).
      apply (acyclic_change gc g1 self q2 (set_patterns cur q2)); auto.
      apply used_slots_set_patterns.
      * apply Forall_forall. intros sl Hsl. apply lower_resolved_slot_ok.
        -- eapply Forall_forall in Hlow1; eauto.
        -- eapply Forall_forall in Hres1; eauto.
      * destruct (Hacc self q2 Hqc) as (Hsl & _).
        eapply Forall_impl; [exact Hsl|]. intros sl. now apply slot_ok_evolves.
    + eapply settled_below_change; eauto.
    + eapply evolves_trans; [exact Heva|]. eapply evolves_trans; [exact Hevb|].
      eapply evolves_trans; eauto.
    + intros r Hne Hr. rewrite Hf1, Hfc, Hfb, Hfa by auto. reflexivity.
    + exists cur. split_and!; auto.
Qed.

Lemma dict_set_app k v v0 (done rest : list (Z * slot)) :
  k ∉ done.*1 → dict_set k v (done ++ (k, v0) :: rest) = done ++ (k, v) :: rest.
Proof.
  induction done as [|[k' v'] done IH]; simpl.
  - intros _. now rewrite Z.eqb_refl.
  - intros Hk. apply not_elem_of_cons in Hk as [Hne Hk].
    destruct (Z.eqb_spec k' k); [congruence|]. now rewrite IH.
Qed.

Section Captures.
Variable get_d : GrammarParser → list (Z * slot).
Variable set_d : list (Z * slot) → GrammarParser → GrammarParser.
Hypothesis get_set : ∀ d p, get_d (set_d d p) = d.
Hypothesis set_get : ∀ p, set_d (get_d p) p = p.
Hypothesis set_set : ∀ d d' p, set_d d' (set_d d p) = set_d d' p.
Hypothesis set_class : ∀ d p, class (set_d d p) = class p.
Hypothesis set_language : ∀ d p, language (set_d d p) = language p.
Hypothesis set_repository : ∀ d p, repository (set_d d p) = repository p.
Hypothesis set_initialized' : ∀ d p, initialized (set_d d p) = initialized p.

(** The loop that resolves the includes of a captures dictionary. *)
Lemma resolve_captures_ok todo :
  ∀ done g g' self p,
    g !! self = Some p →
    get_d p = done ++ todo →
    NoDup (done ++ todo).*1 →
    Forall (slot_ok rank g self p) todo.*2 →
    resolve_captures scopes self get_d set_d todo g = Ok ((), g') →
    evolves g g' ∧ (∀ r, r ≠ self → g' !! r = g !! r)
    ∧ ∃ todo', g' !! self = Some (set_d (done ++ todo') p)
               ∧ todo'.*1 = todo.*1
               ∧ Forall (good_slot rank g' (rank self)) todo'.*2.
Proof.
  induction todo as [|[k v] todo IH]; intros done g g' self p Hp Hd Hnd Hok.
  - intros [= <-]. split_and!; auto using evolves_refl.
    exists []. rewrite <- Hd, set_get. split_and!; auto.
  - rewrite fmap_cons in Hok. apply Forall_cons in Hok as [Hv Hok].
    cbn [resolve_captures]. intros H. apply bind_Ok_inv in H as ([] & g1 & Hstep & H).
    assert (Hparser : ∀ c, v = Parser c → g1 = g →
              evolves g g' ∧ (∀ r, r ≠ self → g' !! r = g !! r)
              ∧ ∃ todo', g' !! self = Some (set_d (done ++ todo') p)
                         ∧ todo'.*1 = ((k, v) :: todo).*1
                         ∧ Forall (good_slot rank g' (rank self)) todo'.*2).
    { intros c -> ->.
      destruct (IH (done ++ [(k, Parser c)]) g g' self p Hp)
        as (Hev & Hf & todo' & Hs & Hk & Hg); auto.
      - now rewrite <- app_assoc.
      - now rewrite <- app_assoc.
      - split_and!; auto. exists ((k, Parser c) :: todo'). rewrite <- app_assoc in Hs.
        split; [exact Hs|]. split; [rewrite !fmap_cons; now f_equal|].
        rewrite fmap_cons. constructor; [|exact Hg].
        right. exists c. destruct Hv as [? ?]. split_and!; auto.
        eapply evolves_is_Some; eauto. }
    assert (Hinclude : (v' ← resolve scopes self v;
                        update_parser self (λ p, set_d (dict_set k v' (get_d p)) p)) g
                       = Ok ((), g1) →
              evolves g g' ∧ (∀ r, r ≠ self → g' !! r = g !! r)
              ∧ ∃ todo', g' !! self = Some (set_d (done ++ todo') p)
                         ∧ todo'.*1 = ((k, v) :: todo).*1
                         ∧ Forall (good_slot rank g' (rank self)) todo'.*2).
    { clear Hparser. intros Hstep'.
      apply bind_Ok_inv in Hstep' as (v' & g0 & Hres & Hup).
      destruct (resolve_ok g self p v v' g0 Hp Hv Hres) as [-> Hgood].
      rewrite (update_parser_Ok g self p _ Hp) in Hup. injection Hup as <-.
      rewrite Hd, dict_set_app in H.
      2:{ rewrite fmap_app in Hnd. apply NoDup_app in Hnd as (_ & Hnd & _).
          intros Hin. apply (Hnd k Hin). rewrite fmap_cons. left. }
      set (p1 := set_d (done ++ (k, v') :: todo) p) in *.
      set (g1 := <[self := p1]> g) in *.
      assert (Hev1 : evolves g g1).
      { apply (evolves_insert g self p); unfold p1; auto.
        now rewrite set_initialized'. }
      destruct (IH (done ++ [(k, v')]) g1 g' self p1)
        as (Hev & Hf & todo' & Hs & Hk & Hg); auto.
      - eapply lookup_insert_self; eauto.
      - unfold p1. now rewrite get_set, <- app_assoc.
      - rewrite <- app_assoc. simpl. rewrite !fmap_app, !fmap_cons in *. exact Hnd.
      - eapply Forall_impl; [exact Hok|]. intros sl. apply slot_ok_evolves; auto.
        unfold p1. apply set_language.
      - split_and!.
        + eapply evolves_trans; eauto.
        + intros r Hr. rewrite Hf by auto. unfold g1.
          now rewrite list_lookup_insert_ne by congruence.
        + exists ((k, v') :: todo'). unfold p1 in Hs. rewrite set_set, <- app_assoc in Hs.
          split; [exact Hs|]. split; [rewrite !fmap_cons; now f_equal|].
          rewrite fmap_cons. constructor; [|exact Hg].
          eapply good_slot_evolves; [|exact Hgood]. eapply evolves_trans; eauto. }
    destruct v as [c| |]; [|exact (Hinclude Hstep)..].
    injection Hstep as <-. eapply Hparser; eauto.
Qed.
End Captures.

Lemma used_slots_set_parsers (P : slot → Prop) d q :
  Forall P d.*2 → Forall P (used_slots q) → Forall P (used_slots (set_parsers d q)).
Proof.
  unfold used_slots. cbn [class set_parsers with_attrs patterns parsers parsers_begin
                          parsers_end].
  destruct (class q); auto.
Qed.

Lemma used_slots_set_parsers_begin (P : slot → Prop) d q :
  Forall P d.*2 → Forall P (used_slots q) →
  Forall P (used_slots (set_parsers_begin d q)).
Proof.
  unfold used_slots. cbn [class set_parsers_begin with_attrs patterns parsers
                          parsers_begin parsers_end].
  destruct (class q); auto. rewrite !Forall_app. tauto.
Qed.

Lemma used_slots_set_parsers_end (P : slot → Prop) d q :
  Forall P d.*2 → Forall P (used_slots q) →
  Forall P (used_slots (set_parsers_end d q)).
Proof.
  unfold used_slots. cbn [class set_parsers_end with_attrs patterns parsers
                          parsers_begin parsers_end].
  destruct (class q); auto. rewrite !Forall_app. tauto.
Qed.

Lemma set_parsers_get p : set_parsers (parsers p) p = p.
Proof. now destruct p. Qed.
Lemma set_parsers_begin_get p : set_parsers_begin (parsers_begin p) p = p.
Proof. now destruct p. Qed.
Lemma set_parsers_end_get p : set_parsers_end (parsers_end p) p = p.
Proof. now destruct p. Qed.

(** The state after [self.initialized = True]. *)
Lemma set_initialized_ok g self p k :
  acyclic rank g → settled_below rank k g → (k ≤ rank self)%nat →
  g !! self = Some p →
  let g' := <[self := set_initialized p]> g in
  acyclic rank g' ∧ settled_below rank k g' ∧ evolves g g'
  ∧ (∀ r, r ≠ self → g' !! r = g !! r)
  ∧ g' !! self = Some (set_initialized p).
Proof.
  intros Hac Hset Hk Hp g'.
  assert (Hev : evolves g g') by (apply (evolves_insert g self p); auto).
  assert (Hf : ∀ r, r ≠ self → g' !! r = g !! r)
    by (intros r Hr; unfold g'; now rewrite list_lookup_insert_ne by congruence).
  assert (Hq : g' !! self = Some (set_initialized p))
    by (eapply lookup_insert_self; eauto).
  split_and!; auto.
  - destruct (acyclic_NoDup g self p Hac Hp) as (? & ? & ?).
    apply (acyclic_change g g' self p (set_initialized p)); auto.
    destruct (Hac self p Hp) as (Hsl & _).
    eapply Forall_impl; [exact Hsl|]. intros sl. now apply slot_ok_evolves.
  - eapply settled_below_change; eauto.
Qed.

Lemma acyclic_used_slots g self p :
  acyclic rank g → g !! self = Some p → Forall (slot_ok rank g self p) (used_slots p).
Proof. intros Hac Hp. now destruct (Hac self p Hp). Qed.

(** [MatchParser.initialize_repository] on a parser that is not
    initialized. *)
Lemma MatchParser_case child self g g1 p k :
  child_spec rank child →
  acyclic rank g → settled_below rank k g → (rank self < k)%nat →
  g !! self = Some p → class p = MatchParser →
  MatchParser_initialize_repository scopes child self g = Ok ((), g1) →
  init_post rank self k g g1.
Proof.
  intros Hchild Hac Hset Hk Hp Hcl H. unfold MatchParser_initialize_repository in H.
  rewrite (bind_Ok _ _ _ _ _ (update_parser_Ok g self p _ Hp)) in H.
  destruct (set_initialized_ok g self p (rank self) Hac) as (Haca & Hseta & Heva & Hfa & Hqa);
    auto.
  { eapply settled_below_le; eauto. lia. }
  set (q1 := set_initialized p) in *. set (ga := <[self := q1]> g) in *.
  rewrite (bind_Ok _ _ _ _ _ (lookup_parser_Ok ga self q1 Hqa)) in H.
  apply bind_Ok_inv in H as ([] & gb & Hcap & H).
  destruct (acyclic_NoDup ga self q1 Haca Hqa) as (Hnd & Hndb & Hnde).
  assert (Hsl1 : Forall (slot_ok rank ga self q1) (parsers q1).*2).
  { pose proof (acyclic_used_slots ga self q1 Haca Hqa) as Hsl.
    unfold used_slots in Hsl. cbn [class q1 set_initialized with_attrs] in Hsl.
    rewrite Hcl in Hsl. exact Hsl. }
  destruct (resolve_captures_ok parsers set_parsers (λ _ _, eq_refl) set_parsers_get
              (λ _ _ _, eq_refl) (λ _ _, eq_refl) (λ _ _, eq_refl) (λ _ _, eq_refl)
              (λ _ _, eq_refl) (parsers q1) [] ga gb self q1 Hqa eq_refl Hnd Hsl1 Hcap)
    as (Hevb & Hfb & d & Hqb & Hkeys & Hgoodb).
  simpl in Hqb. set (q2 := set_parsers d q1) in *.
  assert (Hacb : acyclic rank gb).
  { apply (acyclic_change ga gb self q1 q2); auto.
    - apply used_slots_set_parsers.
      + eapply Forall_impl; [exact Hgoodb|]. intros sl. apply good_slot_ok.
      + pose proof (acyclic_used_slots ga self q1 Haca Hqa) as Hsl.
        eapply Forall_impl; [exact Hsl|]. intros sl. now apply slot_ok_evolves.
    - cbn [parsers q2 set_parsers with_attrs]. now rewrite Hkeys. }
  assert (Hsetb : settled_below rank (rank self) gb)
    by (eapply settled_below_change; eauto).
  rewrite (bind_Ok _ _ _ _ _ (lookup_parser_Ok gb self q2 Hqb)) in H.
  cbn [parsers q2 set_parsers with_attrs] in H.
  destruct (initialize_children_ok child _ gb g1 (rank self) Hchild Hgoodb Hacb Hsetb H)
    as (Hac1 & Hset1 & Hev1 & Hf1 & Hres1).
  assert (Hq1 : g1 !! self = Some q2) by (rewrite Hf1 by lia; exact Hqb).
  assert (Hev : evolves g g1).
  { eapply evolves_trans; [exact Heva|]. eapply evolves_trans; eauto. }
  assert (Hs : settled g1 q2).
  { split_and!; auto.
    - unfold used_slots. cbn [class q2 q1 set_parsers set_initialized with_attrs parsers].
      rewrite Hcl. exact Hres1.
    - cbn [class q2 q1 set_parsers set_initialized with_attrs]. rewrite Hcl.
      intros [?|?]; discriminate. }
  assert (Hframe : ∀ r, (rank self ≤ rank r)%nat → r ≠ self → g1 !! r = g !! r).
  { intros r Hr Hne. rewrite Hf1, Hfb, Hfa by auto. reflexivity. }
  split_and!; auto.
  - eapply settled_below_lift; eauto. intros p1 Hp1.
    assert (p1 = q2) as -> by congruence. exact Hs.
  - eauto.
Qed.

Lemma acyclic_patterns g self p :
  acyclic rank g → g !! self = Some p →
  class p = PatternsParser ∨ class p = BeginEndParser →
  Forall (slot_ok rank g self p) (patterns p).
Proof.
  intros Hac Hp Hcl. pose proof (acyclic_used_slots g self p Hac Hp) as Hsl.
  unfold used_slots in Hsl. destruct Hcl as [Hcl|Hcl]; rewrite Hcl in Hsl; auto.
  now apply Forall_app in Hsl as [? _].
Qed.

(** [PatternsParser.initialize_repository] on a plain PatternsParser that is
    not initialized. *)
Lemma PatternsParser_case child self g g1 p k :
  child_spec rank child →
  acyclic rank g → settled_below rank k g → (rank self < k)%nat →
  g !! self = Some p → class p = PatternsParser →
  PatternsParser_initialize_repository scopes child self g = Ok ((), g1) →
  init_post rank self k g g1.
Proof.
  intros Hchild Hac Hset Hk Hp Hcl H.
  destruct (patterns_part_ok child self g g1 p Hchild Hac) as
    (Hac1 & Hset1 & Hev & Hf & cur & Hq & Hres & Hpp & _); auto.
  { eapply settled_below_le; eauto. lia. }
  { apply acyclic_patterns; auto. }
  assert (Hs : settled g1 (set_patterns cur (set_initialized p))).
  { split_and!; auto. unfold used_slots.
    cbn [class set_patterns set_initialized with_attrs patterns]. now rewrite Hcl. }
  split_and!; auto.
  - eapply settled_below_lift; eauto. intros p1 Hp1. congruence.
  - eauto.
Qed.

(** [BeginEndParser.initialize_repository] on a parser that is not
    initialized. *)
Lemma BeginEndParser_case child self g g1 p k :
  child_spec rank child →
  acyclic rank g → settled_below rank k g → (rank self < k)%nat →
  g !! self = Some p → class p = BeginEndParser →
  BeginEndParser_initialize_repository scopes child self g = Ok ((), g1) →
  init_post rank self k g g1.
Proof.
  intros Hchild Hac Hset Hk Hp Hcl H. unfold BeginEndParser_initialize_repository in H.
  rewrite (bind_Ok _ _ _ _ _ (update_parser_Ok g self p _ Hp)) in H.
  destruct (set_initialized_ok g self p (rank self) Hac) as (Hac0 & Hset0 & Hev0 & Hf0 & Hq0);
    auto.
  { eapply settled_below_le; eauto. lia. }
  set (q0 := set_initialized p) in *. set (g0 := <[self := q0]> g) in *.
  apply bind_Ok_inv in H as ([] & gA & HA & H).
  destruct (patterns_part_ok child self g0 gA q0 Hchild Hac0 Hset0 Hq0) as
    (HacA & HsetA & HevA & HfA & cur & HqA & HresA & HppA & _); auto.
  { apply acyclic_patterns; auto. }
  set (qA := set_patterns cur (set_initialized q0)) in *.
  (* the end captures *)
  rewrite (bind_Ok _ _ _ _ _ (lookup_parser_Ok gA self qA HqA)) in H.
  apply bind_Ok_inv in H as ([] & gB & HB & H).
  destruct (acyclic_NoDup gA self qA HacA HqA) as (HndA & HndbA & HndeA).
  pose proof (acyclic_used_slots gA self qA HacA HqA) as HslA.
  assert (HslA' := HslA). unfold used_slots in HslA'.
  cbn [class qA q0 set_patterns set_initialized with_attrs] in HslA'. rewrite Hcl in HslA'.
  apply Forall_app in HslA' as [_ HslA']. apply Forall_app in HslA' as [HslAb HslAe].
  destruct (resolve_captures_ok parsers_end set_parsers_end (λ _ _, eq_refl)
              set_parsers_end_get (λ _ _ _, eq_refl) (λ _ _, eq_refl) (λ _ _, eq_refl)
              (λ _ _, eq_refl) (λ _ _, eq_refl) (parsers_end qA) [] gA gB self qA HqA
              eq_refl HndeA HslAe HB)
    as (HevB & HfB & de & HqB & HkeysB & HgoodB).
  simpl in HqB. set (qB := set_parsers_end de qA) in *.
  assert (HacB : acyclic rank gB).
  { apply (acyclic_change gA gB self qA qB); auto.
    - apply used_slots_set_parsers_end.
      + eapply Forall_impl; [exact HgoodB|]. intros sl. apply good_slot_ok.
      + eapply Forall_impl; [exact HslA|]. intros sl. now apply slot_ok_evolves.
    - cbn [parsers_end qB set_parsers_end with_attrs]. now rewrite HkeysB. }
  assert (HsetB : settled_below rank (rank self) gB)
    by (eapply settled_below_change; eauto).
  (* the begin captures *)
  rewrite (bind_Ok _ _ _ _ _ (lookup_parser_Ok gB self qB HqB)) in H.
  apply bind_Ok_inv in H as ([] & gC & HC & H).
  assert (HslBb : Forall (slot_ok rank gB self qB) (parsers_begin qB).*2).
  { eapply Forall_impl; [exact HslAb|]. intros sl. now apply slot_ok_evolves. }
  destruct (resolve_captures_ok parsers_begin set_parsers_begin (λ _ _, eq_refl)
              set_parsers_begin_get (λ _ _ _, eq_refl) (λ _ _, eq_refl) (λ _ _, eq_refl)
              (λ _ _, eq_refl) (λ _ _, eq_refl) (parsers_begin qB) [] gB gC self qB HqB
              eq_refl HndbA HslBb HC)
    as (HevC & HfC & db & HqC & HkeysC & HgoodC).
  simpl in HqC. set (qC := set_parsers_begin db qB) in *.
  assert (HacC : acyclic rank gC).
  { apply (acyclic_change gB gC self qB qC); auto.
    - apply used_slots_set_parsers_begin.
      + eapply Forall_impl; [exact HgoodC|]. intros sl. apply good_slot_ok.
      + pose proof (acyclic_used_slots gB self qB HacB HqB) as HslB.
        eapply Forall_impl; [exact HslB|]. intros sl. now apply slot_ok_evolves.
    - cbn [parsers_begin qC set_parsers_begin with_attrs]. now rewrite HkeysC.
    - cbn [parsers_end qC qB set_parsers_begin set_parsers_end with_attrs].
      now rewrite HkeysB. }
  assert (HsetC : settled_below rank (rank self) gC)
    by (eapply settled_below_change; eauto).
  (* the children of the captures *)
  rewrite (bind_Ok _ _ _ _ _ (lookup_parser_Ok gC self qC HqC)) in H.
  apply bind_Ok_inv in H as ([] & gD & HD & H).
  cbn [parsers_begin qC set_parsers_begin with_attrs] in HD.
  destruct (initialize_children_ok child _ gC gD (rank self) Hchild HgoodC HacC HsetC HD)
    as (HacD & HsetD & HevD & HfD & HresD).
  assert (HqD : gD !! self = Some qC) by (rewrite HfD by lia; exact HqC).
  rewrite (bind_Ok _ _ _ _ _ (lookup_parser_Ok gD self qC HqD)) in H.
  cbn [parsers_end qC qB set_parsers_begin set_parsers_end with_attrs] in H.
  assert (HgoodD : Forall (good_slot rank gD (rank self)) de.*2).
  { eapply Forall_impl; [exact HgoodB|]. intros sl. apply good_slot_evolves.
    eapply evolves_trans; eauto. }
  destruct (initialize_children_ok child _ gD g1 (rank self) Hchild HgoodD HacD HsetD H)
    as (Hac1 & Hset1 & Hev1 & Hf1 & Hres1).
  assert (Hq1 : g1 !! self = Some qC) by (rewrite Hf1 by lia; exact HqD).
  assert (HevA1 : evolves gA g1).
  { eapply evolves_trans; [exact HevB|]. eapply evolves_trans; [exact HevC|].
    eapply evolves_trans; eauto. }
  assert (Hev : evolves g g1).
  { eapply evolves_trans; [exact Hev0|]. eapply evolves_trans; eauto. }
  assert (Hs : settled g1 qC).
  { split_and!; auto.
    - unfold used_slots.
      cbn [class qC qB qA q0 set_parsers_begin set_parsers_end set_patterns
           set_initialized with_attrs patterns parsers_begin parsers_end].
      rewrite Hcl, !Forall_app. split_and!; auto.
      + eapply Forall_impl; [exact HresA|]. intros sl. now apply resolved_evolves.
      + eapply Forall_impl; [exact HresD|]. intros sl. now apply resolved_evolves.
    - intros _.
      cbn [qC qB qA q0 set_parsers_begin set_parsers_end set_patterns
           set_initialized with_attrs patterns].
      now rewrite (pattern_parsers_evolves gA g1 _ HevA1). }
  assert (Hframe : ∀ r, (rank self ≤ rank r)%nat → r ≠ self → g1 !! r = g !! r).
  { intros r Hr Hne. rewrite Hf1, HfD, HfC, HfB, HfA, Hf0 by auto. reflexivity. }
  split_and!; auto.
  - eapply settled_below_lift; eauto. intros p1 Hp1.
    assert (p1 = qC) as -> by congruence. exact Hs.
  - eauto.
Qed.

(** [initialize_repository] on a parser that is not initialized, in a graph
    without cycles. *)
Lemma initialize_repository_spec fuel :
  child_spec rank (initialize_repository scopes language_init fuel).
Proof.
  induction fuel as [|fuel IH]; intros c g g1 k pc Hac Hset Hk Hpc Hini H;
    [discriminate|].
  cbn [initialize_repository] in H.
  rewrite (bind_Ok _ _ _ _ _ (lookup_parser_Ok g c pc Hpc)) in H.
  destruct (Hac c pc Hpc) as (_ & _ & _ & _ & Hleaf).
  destruct (class pc) eqn:Hcl.
  - rewrite Hleaf in Hini by auto. discriminate.
  - eapply MatchParser_case; eauto.
  - eapply PatternsParser_case; eauto.
  - eapply BeginEndParser_case; eauto.
  - unfold BeginWhileParser_initialize_repository in H.
    apply bind_Ok_inv in H as (? & ? & _ & H).
    apply bind_Ok_inv in H as (? & ? & _ & H). discriminate.
  - rewrite Hleaf in Hini by auto. discriminate.
Qed.

Lemma resolve_captures_resolved get_d set_d (g : graph) (self : ref)
    (items : list (Z * slot)) :
  Forall (resolved g) items.*2 →
  resolve_captures scopes self get_d set_d items g = Ok ((), g).
Proof.
  induction items as [|[k v] items IH]; [reflexivity|].
  rewrite fmap_cons, Forall_cons. intros [(r & c & Hv & _) Hrest].
  cbn [snd] in Hv. subst v. cbn [resolve_captures]. monad. now apply IH.
Qed.

Lemma PatternsParser_initialize_repository_settled child (g : graph) (self : ref)
    (p : GrammarParser) :
  g !! self = Some p → initialized p = true → Forall (resolved g) (patterns p) →
  pattern_parsers g (patterns p) = [] →
  PatternsParser_initialize_repository scopes child self g = Ok ((), g).
Proof.
  intros Hp Hi Hps Hnone. unfold PatternsParser_initialize_repository.
  rewrite (bind_Ok _ _ _ _ _ (update_parser_id g self p _ Hp (set_initialized_id p Hi))).
  rewrite (bind_Ok _ _ _ _ _ (lookup_parser_Ok g self p Hp)).
  rewrite (bind_Ok _ _ _ _ _ (resolve_patterns_resolved scopes g self _ Hps)).
  rewrite (bind_Ok _ _ _ _ _ (update_parser_id g self p _ Hp (set_patterns_id p))).
  rewrite (bind_Ok _ _ _ _ _ (initialize_children_resolved child g _ Hps)).
  unfold get at 1. monad.
  rewrite (lookup_parser_Ok g self p Hp). now rewrite Hnone.
Qed.

(** On a settled parser [initialize_repository] changes nothing. *)
Lemma initialize_repository_settled (fuel : nat) (g : graph) (self : ref)
    (p : GrammarParser) :
  g !! self = Some p → settled g p →
  class p ≠ BeginWhileParser → class p ≠ LanguageParser →
  initialize_repository scopes language_init (S fuel) self g = Ok ((), g).
Proof.
  intros Hp (Hi & Hsl & Hnone) Hbw Hlang. cbn [initialize_repository].
  rewrite (bind_Ok _ _ _ _ _ (lookup_parser_Ok g self p Hp)).
  unfold used_slots in Hsl. destruct (class p) eqn:Hcl; try congruence.
  - reflexivity.
  - unfold MatchParser_initialize_repository.
    rewrite (bind_Ok _ _ _ _ _ (update_parser_id g self p _ Hp (set_initialized_id p Hi))).
    rewrite (bind_Ok _ _ _ _ _ (lookup_parser_Ok g self p Hp)).
    rewrite (bind_Ok _ _ _ _ _ (resolve_captures_resolved _ _ g self _ Hsl)).
    rewrite (bind_Ok _ _ _ _ _ (lookup_parser_Ok g self p Hp)).
    now apply initialize_children_resolved.
  - apply (PatternsParser_initialize_repository_settled _ g self p); auto.
  - apply Forall_app in Hsl as [Hps Hsl]. apply Forall_app in Hsl as [Hb He].
    unfold BeginEndParser_initialize_repository.
    rewrite (bind_Ok _ _ _ _ _ (update_parser_id g self p _ Hp (set_initialized_id p Hi))).
    rewrite (bind_Ok _ _ _ _ _
               (PatternsParser_initialize_repository_settled _ g self p Hp Hi Hps
                  (Hnone (or_intror eq_refl)))).
    rewrite (bind_Ok _ _ _ _ _ (lookup_parser_Ok g self p Hp)).
    rewrite (bind_Ok _ _ _ _ _ (resolve_captures_resolved _ _ g self _ He)).
    rewrite (bind_Ok _ _ _ _ _ (lookup_parser_Ok g self p Hp)).
    rewrite (bind_Ok _ _ _ _ _ (resolve_captures_resolved _ _ g self _ Hb)).
    rewrite (bind_Ok _ _ _ _ _ (lookup_parser_Ok g self p Hp)).
    rewrite (bind_Ok _ _ _ _ _ (initialize_children_resolved _ g _ Hb)).
    rewrite (bind_Ok _ _ _ _ _ (lookup_parser_Ok g self p Hp)).
    now apply initialize_children_resolved.
Qed.

Lemma initialize_repository_BeginWhileParser (fuel : nat) (g g1 : graph) (self : ref)
    (p : GrammarParser) :
  g !! self = Some p → class p = BeginWhileParser →
  initialize_repository scopes language_init fuel self g ≠ Ok ((), g1).
Proof.
  intros Hp Hcl H. destruct fuel as [|fuel]; [discriminate|].
  cbn [initialize_repository] in H.
  rewrite (bind_Ok _ _ _ _ _ (lookup_parser_Ok g self p Hp)), Hcl in H.
  unfold BeginWhileParser_initialize_repository in H.
  apply bind_Ok_inv in H as (? & ? & _ & H).
  apply bind_Ok_inv in H as (? & ? & _ & H). discriminate.
Qed.

End Acyclic.

Lemma acyclic_graph_acyclic : acyclic Examples.acyclic_rank Examples.acyclic_graph.
Proof.
  intros r q Hq.
  assert (Hsome : ∀ c : ref, (c < 5)%nat → is_Some (Examples.acyclic_graph !! c)).
  { intros c Hc. apply lookup_lt_is_Some. exact Hc. }
  destruct r as [|[|[|[|[|r]]]]]; try discriminate Hq; injection Hq as <-;
    (split_and!; [|constructor..|intros [?|?]; try discriminate; reflexivity]);
    unfold used_slots; cbn [class Examples.language_parser PatternsParser_init
                            MatchParser_init GrammarParser_init patterns parsers fmap
                            list_fmap]; repeat constructor.
  - exists 0%nat. split_and!; [reflexivity|cbn; lia|apply Hsome; lia|].
    right. right. exists "b"%string. split; [reflexivity|].
    intros l c [= <-] Hc. vm_compute in Hc. injection Hc as <-.
    split; [cbn; lia|apply Hsome; lia].
  - apply Hsome; lia.
  - apply Hsome; lia.
Qed.

(** ** Repository initialization: graphs with cycles *)

Lemma leaves_initialized_evolves g g' :
  evolves g g' → leaves_initialized g → leaves_initialized g'.
Proof.
  intros [Hlen Hev] Hl r p' Hp' Hc.
  assert (is_Some (g !! r)) as [p Hp].
  { apply lookup_lt_is_Some. rewrite <- Hlen. eapply lookup_lt_Some; eauto. }
  destruct (Hev r p Hp) as (p'' & Hp'' & Hcl & _ & _ & Hi).
  assert (p'' = p') as -> by congruence.
  apply Hi, (Hl r p Hp). now rewrite <- Hcl.
Qed.

Lemma pending_mono (P Q : slot → Prop) g g' sl :
  evolves g g' → (P sl → Q sl ∨ resolved g' sl) → pending P g sl → pending Q g' sl.
Proof.
  intros Hev HPQ [Hr|HP].
  - left. eapply resolved_evolves; eauto.
  - destruct (HPQ HP); [now right|now left].
Qed.

Lemma closed_change (P Q : slot → Prop) (g g' : graph) (self : ref) :
  closed P g → evolves g g' →
  (∀ r, r ≠ self → g' !! r = g !! r) →
  (∀ q, g' !! self = Some q → initialized q = true → class q = PatternsParser →
        Forall (pending Q g') (patterns q)) →
  (∀ sl, P sl → Q sl ∨ resolved g' sl) →
  closed Q g'.
Proof.
  intros Hc Hev Hf Hself HPQ r q Hq Hi Hcl.
  destruct (decide (r = self)) as [->|Hne]; [now apply Hself|].
  rewrite Hf in Hq by exact Hne.
  eapply Forall_impl; [exact (Hc r q Hq Hi Hcl)|]. intros sl. apply pending_mono; auto.
Qed.

Lemma closed_weaken (P Q : slot → Prop) (g : graph) :
  closed P g → (∀ sl, P sl → Q sl ∨ resolved g sl) → closed Q g.
Proof.
  intros Hc HPQ r q Hq Hi Hcl.
  eapply Forall_impl; [exact (Hc r q Hq Hi Hcl)|]. intros sl.
  apply pending_mono; auto using evolves_refl.
Qed.

Lemma stable_refl g : stable g g.
Proof. intros r p Hp _. exact Hp. Qed.

Lemma stable_trans g1 g2 g3 : stable g1 g2 → stable g2 g3 → stable g1 g3.
Proof. intros H1 H2 r p Hp Hi. apply H2; auto. Qed.

Lemma insert_insert_self (g : graph) (self : ref) (p q : GrammarParser) :
  <[self := q]> (<[self := p]> g) = <[self := q]> g.
Proof. apply list_insert_insert_eq. Qed.

Section Cyclic.
Variable scopes : graph → ref → string → res slot.
Variable language_init : ref → St graph unit.

Lemma resolve_state (self : ref) (v v' : slot) (g g' : graph) :
  resolve scopes self v g = Ok (v', g') → g' = g.
Proof.
  unfold resolve, _find_include, lookup_parser. monad.
  intros H. repeat case_match; congruence.
Qed.

Lemma resolve_patterns_state (self : ref) (ps ps' : list slot) (g g' : graph) :
  resolve_patterns scopes self ps g = Ok (ps', g') → g' = g.
Proof.
  revert ps' g'. induction ps as [|v ps IH]; intros ps' g' H.
  - now injection H.
  - cbn [resolve_patterns] in H.
    apply bind_Ok_inv in H as (v' & g1 & Hv & H).
    apply bind_Ok_inv in H as (vs & g2 & Hvs & H).
    apply resolve_state in Hv as ->. apply IH in Hvs as ->. now injection H.
Qed.

(** The splice replaces the pattern list of [self] by patterns of [self]
    and of the parsers it splices. *)
Lemma splice_pending (P : slot → Prop) (self : ref) (todo : list ref) :
  ∀ g g1 p,
    g !! self = Some p →
    Forall (pending P g) (patterns p) →
    Forall (λ d, d ≠ self → ∀ pd, g !! d = Some pd → Forall (pending P g) (patterns pd))
      todo →
    splice self todo g = Ok ((), g1) →
    ∃ cur, g1 = <[self := set_patterns cur p]> g ∧ Forall (pending P g1) cur.
Proof.
  induction todo as [|d todo IH]; intros g g1 p Hp Hps Htodo H.
  - injection H as <-. exists (patterns p).
    rewrite set_patterns_id, list_insert_id by exact Hp. auto.
  - apply Forall_cons in Htodo as [Hd Htodo]. cbn [splice] in H.
    rewrite (bind_Ok _ _ _ _ _ (lookup_parser_Ok g self p Hp)) in H.
    apply bind_Ok_inv in H as (pd & g' & Hpd & H).
    unfold lookup_parser in Hpd. destruct (g !! d) as [pd'|] eqn:Hgd; [|discriminate].
    injection Hpd as <- <-.
    destruct (index_of (Parser d) (patterns p)) as [i|]; [|discriminate].
    rewrite (bind_Ok _ _ _ _ _ (update_parser_Ok g self p _ Hp)) in H.
    set (new := take i (patterns p) ++ patterns pd' ++ drop (S i) (patterns p)) in *.
    set (p' := set_patterns new p) in *. set (g' := <[self := p']> g) in *.
    assert (Hev : evolves g g') by (apply (evolves_insert g self p); auto).
    assert (Hpd' : Forall (pending P g) (patterns pd')).
    { destruct (decide (d = self)) as [->|Hne]; [|now apply (Hd Hne)].
      assert (pd' = p) as -> by congruence. exact Hps. }
    assert (Hnew : Forall (pending P g') new).
    { eapply Forall_impl; [|intros sl; apply (pending_mono P P g g' sl Hev); auto].
      unfold new. rewrite !Forall_app. split_and!; auto.
      - now apply Forall_take.
      - now apply Forall_drop. }
    destruct (IH g' g1 p') as (cur & -> & Hcur); auto.
    + eapply lookup_insert_self; eauto.
    + eapply Forall_impl; [exact Htodo|]. intros d' Hd' Hne pd2 Hpd2.
      unfold g' in Hpd2. rewrite list_lookup_insert_ne in Hpd2 by congruence.
      eapply Forall_impl; [exact (Hd' Hne pd2 Hpd2)|].
      intros sl. apply (pending_mono P P g g' sl Hev); auto.
    + exists cur. subst g' p'.
      rewrite insert_insert_self, set_patterns_set_patterns in Hcur |- *. auto.
Qed.

Section Captures.
Variable get_d : GrammarParser → list (Z * slot).
Variable set_d : list (Z * slot) → GrammarParser → GrammarParser.
Hypothesis set_get : ∀ p, set_d (get_d p) p = p.
Hypothesis set_set : ∀ d d' p, set_d d' (set_d d p) = set_d d' p.

(** Resolving the includes of a captures dictionary changes that dictionary
    of [self] only. *)
Lemma resolve_captures_change (self : ref) (todo : list (Z * slot)) :
  ∀ g g' p,
    g !! self = Some p →
    resolve_captures scopes self get_d set_d todo g = Ok ((), g') →
    ∃ d, g' = <[self := set_d d p]> g.
Proof.
  induction todo as [|[k v] todo IH]; intros g g' p Hp H.
  - injection H as <-. exists (get_d p). now rewrite set_get, list_insert_id.
  - cbn [resolve_captures] in H. apply bind_Ok_inv in H as ([] & g1 & Hstep & H).
    destruct v as [c|key|].
    + injection Hstep as <-. eauto.
    + apply bind_Ok_inv in Hstep as (v' & g2 & Hv & Hstep).
      apply resolve_state in Hv as ->.
      rewrite (update_parser_Ok g self p _ Hp) in Hstep. injection Hstep as <-.
      destruct (IH _ g' _ (lookup_insert_self g self p _ Hp) H) as (d & ->).
      exists d. now rewrite insert_insert_self, set_set.
    + apply bind_Ok_inv in Hstep as (v' & g2 & Hv & Hstep).
      apply resolve_state in Hv as ->.
      rewrite (update_parser_Ok g self p _ Hp) in Hstep. injection Hstep as <-.
      destruct (IH _ g' _ (lookup_insert_self g self p _ Hp) H) as (d & ->).
      exists d. now rewrite insert_insert_self, set_set.
Qed.
End Captures.

Section Children.
Variable child : ref → St graph unit.
Hypothesis child_cyclic : cyclic_spec child.

Lemma initialize_children_cyclic (ps : list slot) :
  ∀ (P : slot → Prop) g g',
    leaves_initialized g →
    closed (λ sl, P sl ∨ sl ∈ ps) g →
    initialize_children child ps g = Ok ((), g') →
    evolves g g' ∧ stable g g' ∧ closed P g' ∧ Forall (resolved g') ps.
Proof.
  induction ps as [|sl ps IH]; intros P g g' Hl Hc H.
  - injection H as <-. split_and!; auto using evolves_refl, stable_refl.
    eapply closed_weaken; [exact Hc|]. intros sl [?|Hin]; auto. inversion Hin.
  - cbn [initialize_children] in H. unfold get in H at 1.
    rewrite (bind_Ok _ _ g g g eq_refl) in H.
    apply bind_Ok_inv in H as (i & g0 & Hattr & H).
    destruct sl as [c|key|]; try discriminate Hattr.
    unfold attr in Hattr. destruct (g !! c) as [pc|] eqn:Hpc; [|discriminate].
    injection Hattr as <- <-.
    apply bind_Ok_inv in H as ([] & g1 & Hstep & H).
    destruct (initialized pc) eqn:Hi.
    + injection Hstep as <-.
      destruct (IH P g g' Hl) as (Hev & Hst & Hcl & Hres); auto.
      { eapply closed_weaken; [exact Hc|]. intros sl [?|Hin]; auto.
        apply elem_of_cons in Hin as [-> | Hin]; auto.
        right. exists c, pc. auto. }
      split_and!; auto. constructor; auto.
      eapply resolved_evolves; [exact Hev|]. exists c, pc. auto.
    + destruct (child_cyclic (λ sl, P sl ∨ sl ∈ ps) c g g1 pc Hl) as
        (Hev1 & Hst1 & Hc1 & p1 & Hp1 & Hi1 & _); auto.
      { eapply closed_weaken; [exact Hc|]. intros sl [?|Hin]; auto.
        apply elem_of_cons in Hin as [-> | Hin]; auto. }
      destruct (IH P g1 g') as (Hev & Hst & Hcl & Hres); auto.
      { eapply leaves_initialized_evolves; eauto. }
      split_and!; auto.
      * eapply evolves_trans; eauto.
      * eapply stable_trans; eauto.
      * constructor; auto. eapply resolved_evolves; [exact Hev|]. exists c, p1. auto.
Qed.

(** [PatternsParser.initialize_repository], also as the first part of
    [BeginEndParser.initialize_repository]. *)
Lemma patterns_part_cyclic (P : slot → Prop) (self : ref) (g g1 : graph)
    (p : GrammarParser) :
  leaves_initialized g →
  closed (λ sl, P sl ∨ sl = Parser self) g →
  g !! self = Some p →
  PatternsParser_initialize_repository scopes child self g = Ok ((), g1) →
  evolves g g1
  ∧ (∀ r q, r ≠ self → g !! r = Some q → initialized q = true → g1 !! r = Some q)
  ∧ closed P g1
  ∧ ∃ cur, g1 !! self = Some (set_patterns cur (set_initialized p))
           ∧ Forall (pending P g1) cur.
Proof.
  intros Hl Hc Hp H. unfold PatternsParser_initialize_repository in H.
  rewrite (bind_Ok _ _ _ _ _ (update_parser_Ok g self p _ Hp)) in H.
  set (q1 := set_initialized p) in *. set (ga := <[self := q1]> g) in *.
  assert (Hqa : ga !! self = Some q1) by (eapply lookup_insert_self; eauto).
  rewrite (bind_Ok _ _ _ _ _ (lookup_parser_Ok ga self q1 Hqa)) in H.
  apply bind_Ok_inv in H as (ps & ga' & Hres & H).
  pose proof (resolve_patterns_state _ _ _ _ _ Hres) as ->.
  rewrite (bind_Ok _ _ _ _ _ (update_parser_Ok ga self q1 _ Hqa)) in H.
  set (q2 := set_patterns ps q1) in *. set (gb := <[self := q2]> ga) in *.
  assert (Hqb : gb !! self = Some q2) by (eapply lookup_insert_self; eauto).
  assert (Hevb : evolves g gb).
  { eapply evolves_trans; [apply (evolves_insert g self p)|apply (evolves_insert ga self q1)];
      auto. }
  assert (Hfb : ∀ r, r ≠ self → gb !! r = g !! r).
  { intros r Hr. unfold gb, ga. now rewrite !list_lookup_insert_ne by congruence. }
  assert (Hself : resolved gb (Parser self)) by (exists self, q2; auto).
  assert (Hcb : closed (λ sl, P sl ∨ sl ∈ ps) gb).
  { apply (closed_change (λ sl, P sl ∨ sl = Parser self) _ g gb self); auto.
    - intros q Hq _ _. assert (q = q2) as -> by congruence.
      apply Forall_forall. intros sl Hsl. right. now right.
    - intros sl [? | ->]; auto. }
  apply bind_Ok_inv in H as ([] & gc & Hchildren & H).
  destruct (initialize_children_cyclic ps P gb gc) as (Hevc & Hstc & Hcc & Hresc); auto.
  { eapply leaves_initialized_evolves; eauto. }
  unfold get in H at 1. rewrite (bind_Ok _ _ gc gc gc eq_refl) in H.
  assert (Hqc : gc !! self = Some q2) by (apply Hstc; auto).
  rewrite (bind_Ok _ _ _ _ _ (lookup_parser_Ok gc self q2 Hqc)) in H.
  destruct (splice_pending P self (pattern_parsers gc (patterns q2)) gc g1 q2 Hqc)
    as (cur & -> & Hcur); auto.
  { eapply Forall_impl; [exact Hresc|]. intros sl. now left. }
  { apply Forall_forall. intros d Hd _ pd Hpd.
    destruct (pattern_parsers_elem gc _ d Hd) as (pd' & Hpd' & Hcl & Hin).
    assert (pd' = pd) as -> by congruence.
    apply (Hcc d pd Hpd); auto.
    eapply Forall_forall in Hresc; [|exact Hin].
    destruct Hresc as (d' & pd' & [= <-] & Hpd'' & Hi). congruence. }
  set (q3 := set_patterns cur q2) in *. set (g1 := <[self := q3]> gc) in *.
  assert (Hev1 : evolves gc g1) by (apply (evolves_insert gc self q2); auto).
  split_and!.
  - eapply evolves_trans; [exact Hevb|]. eapply evolves_trans; eauto.
  - intros r q Hr Hq Hi. unfold g1. rewrite list_lookup_insert_ne by congruence.
    apply Hstc; auto. now rewrite Hfb.
  - apply (closed_change P P gc g1 self); auto.
    + intros r Hr. unfold g1. now rewrite list_lookup_insert_ne by congruence.
    + intros q Hq _ _.
      assert (q = q3) as -> by (unfold g1 in Hq;
                                rewrite (lookup_insert_self gc self q2 q3 Hqc) in Hq;
                                congruence).
      exact Hcur.
  - exists cur. split; [|exact Hcur].
    unfold g1, q3, q2. rewrite set_patterns_set_patterns.
    eapply lookup_insert_self; eauto.
Qed.

(** [MatchParser.initialize_repository] *)
Lemma MatchParser_cyclic (P : slot → Prop) (self : ref) (g g1 : graph)
    (p : GrammarParser) :
  leaves_initialized g →
  closed (λ sl, P sl ∨ sl = Parser self) g →
  g !! self = Some p → class p = MatchParser →
  MatchParser_initialize_repository scopes child self g = Ok ((), g1) →
  evolves g g1
  ∧ (∀ r q, r ≠ self → g !! r = Some q → initialized q = true → g1 !! r = Some q)
  ∧ closed P g1
  ∧ ∃ p1, g1 !! self = Some p1 ∧ initialized p1 = true
          ∧ Forall (pending P g1) (used_slots p1).
Proof.
  intros Hl Hc Hp Hcl H. unfold MatchParser_initialize_repository in H.
  rewrite (bind_Ok _ _ _ _ _ (update_parser_Ok g self p _ Hp)) in H.
  set (q1 := set_initialized p) in *. set (ga := <[self := q1]> g) in *.
  assert (Hqa : ga !! self = Some q1) by (eapply lookup_insert_self; eauto).
  rewrite (bind_Ok _ _ _ _ _ (lookup_parser_Ok ga self q1 Hqa)) in H.
  apply bind_Ok_inv in H as ([] & gb & Hcap & H).
  destruct (resolve_captures_change parsers set_parsers set_parsers_get (λ _ _ _, eq_refl)
              self _ ga gb q1 Hqa Hcap) as (d & ->).
  set (q2 := set_parsers d q1) in *. set (gb := <[self := q2]> ga) in *.
  assert (Hqb : gb !! self = Some q2) by (eapply lookup_insert_self; eauto).
  assert (Hevb : evolves g gb).
  { eapply evolves_trans; [apply (evolves_insert g self p)|apply (evolves_insert ga self q1)];
      auto. }
  assert (Hfb : ∀ r, r ≠ self → gb !! r = g !! r).
  { intros r Hr. unfold gb, ga. now rewrite !list_lookup_insert_ne by congruence. }
  assert (Hself : resolved gb (Parser self)) by (exists self, q2; auto).
  assert (Hcb : closed (λ sl, P sl ∨ sl ∈ d.*2) gb).
  { apply (closed_change (λ sl, P sl ∨ sl = Parser self) _ g gb self); auto.
    - intros q Hq _ Hclq. assert (q = q2) as -> by congruence.
      cbn [class q2 q1 set_parsers set_initialized with_attrs] in Hclq. congruence.
    - intros sl [? | ->]; auto. }
  rewrite (bind_Ok _ _ _ _ _ (lookup_parser_Ok gb self q2 Hqb)) in H.
  cbn [parsers q2 set_parsers with_attrs] in H.
  destruct (initialize_children_cyclic d.*2 P gb g1) as (Hev1 & Hst1 & Hc1 & Hres1); auto.
  { eapply leaves_initialized_evolves; eauto. }
  split_and!; auto.
  - eapply evolves_trans; eauto.
  - intros r q Hr Hq Hi. apply Hst1; auto. now rewrite Hfb.
  - exists q2. split_and!; auto.
    unfold used_slots. cbn [class q2 q1 set_parsers set_initialized with_attrs parsers].
    rewrite Hcl. eapply Forall_impl; [exact Hres1|]. intros sl. now left.
Qed.

(** [BeginEndParser.initialize_repository] *)
Lemma BeginEndParser_cyclic (P : slot → Prop) (self : ref) (g g1 : graph)
    (p : GrammarParser) :
  leaves_initialized g →
  closed (λ sl, P sl ∨ sl = Parser self) g →
  g !! self = Some p → class p = BeginEndParser →
  BeginEndParser_initialize_repository scopes child self g = Ok ((), g1) →
  evolves g g1
  ∧ (∀ r q, r ≠ self → g !! r = Some q → initialized q = true → g1 !! r = Some q)
  ∧ closed P g1
  ∧ ∃ p1, g1 !! self = Some p1 ∧ initialized p1 = true
          ∧ Forall (pending P g1) (used_slots p1).
Proof.
  intros Hl Hc Hp Hcl H. unfold BeginEndParser_initialize_repository in H.
  rewrite (bind_Ok _ _ _ _ _ (update_parser_Ok g self p _ Hp)) in H.
  set (q0 := set_initialized p) in *. set (g0 := <[self := q0]> g) in *.
  assert (Hq0 : g0 !! self = Some q0) by (eapply lookup_insert_self; eauto).
  assert (Hev0 : evolves g g0) by (apply (evolves_insert g self p); auto).
  assert (Hf0 : ∀ r, r ≠ self → g0 !! r = g !! r).
  { intros r Hr. unfold g0. now rewrite list_lookup_insert_ne by congruence. }
  assert (Hc0 : closed (λ sl, P sl ∨ sl = Parser self) g0).
  { apply (closed_change (λ sl, P sl ∨ sl = Parser self) _ g g0 self); auto.
    intros q Hq _ Hclq. assert (q = q0) as -> by congruence.
    cbn [class q0 set_initialized with_attrs] in Hclq. congruence. }
  apply bind_Ok_inv in H as ([] & gA & HA & H).
  destruct (patterns_part_cyclic P self g0 gA q0) as (HevA & HfA & HcA & cur & HqA & HcurA);
    auto.
  { eapply leaves_initialized_evolves; eauto. }
  set (qA := set_patterns cur (set_initialized q0)) in *.
  (* the captures *)
  rewrite (bind_Ok _ _ _ _ _ (lookup_parser_Ok gA self qA HqA)) in H.
  apply bind_Ok_inv in H as ([] & gB & HB & H).
  destruct (resolve_captures_change parsers_end set_parsers_end set_parsers_end_get
              (λ _ _ _, eq_refl) self _ gA gB qA HqA HB) as (de & ->).
  set (qB := set_parsers_end de qA) in *. set (gB := <[self := qB]> gA) in *.
  assert (HqB : gB !! self = Some qB) by (eapply lookup_insert_self; eauto).
  rewrite (bind_Ok _ _ _ _ _ (lookup_parser_Ok gB self qB HqB)) in H.
  apply bind_Ok_inv in H as ([] & gC & HC & H).
  destruct (resolve_captures_change parsers_begin set_parsers_begin set_parsers_begin_get
              (λ _ _ _, eq_refl) self _ gB gC qB HqB HC) as (db & ->).
  set (qC := set_parsers_begin db qB) in *. set (gC := <[self := qC]> gB) in *.
  assert (HqC : gC !! self = Some qC) by (eapply lookup_insert_self; eauto).
  assert (HevC : evolves gA gC).
  { eapply evolves_trans; [apply (evolves_insert gA self qA)|
                           apply (evolves_insert gB self qB)]; auto. }
  assert (HfC : ∀ r, r ≠ self → gC !! r = gA !! r).
  { intros r Hr. unfold gC, gB. now rewrite !list_lookup_insert_ne by congruence. }
  assert (HcC : closed P gC).
  { apply (closed_change P P gA gC self); auto.
    intros q Hq _ Hclq. assert (q = qC) as -> by congruence.
    cbn [class qC qB qA q0 set_parsers_begin set_parsers_end set_patterns
         set_initialized with_attrs] in Hclq. congruence. }
  (* the children of the captures *)
  rewrite (bind_Ok _ _ _ _ _ (lookup_parser_Ok gC self qC HqC)) in H.
  cbn [parsers_begin qC set_parsers_begin with_attrs] in H.
  apply bind_Ok_inv in H as ([] & gD & HD & H).
  assert (HlC : leaves_initialized gC).
  { eapply leaves_initialized_evolves; [exact HevC|].
    eapply leaves_initialized_evolves; [exact HevA|].
    eapply leaves_initialized_evolves; eauto. }
  destruct (initialize_children_cyclic db.*2 P gC gD) as (HevD & HstD & HcD & HresD); auto.
  { eapply closed_weaken; [exact HcC|]. auto. }
  assert (HqD : gD !! self = Some qC) by (apply HstD; auto).
  rewrite (bind_Ok _ _ _ _ _ (lookup_parser_Ok gD self qC HqD)) in H.
  cbn [parsers_end qC qB set_parsers_begin set_parsers_end with_attrs] in H.
  destruct (initialize_children_cyclic de.*2 P gD g1) as (Hev1 & Hst1 & Hc1 & Hres1); auto.
  { eapply leaves_initialized_evolves; eauto. }
  { eapply closed_weaken; [exact HcD|]. auto. }
  assert (HevA1 : evolves gA g1).
  { eapply evolves_trans; [exact HevC|]. eapply evolves_trans; eauto. }
  split_and!; auto.
  - eapply evolves_trans; [exact Hev0|]. eapply evolves_trans; eauto.
  - intros r q Hr Hq Hi. apply Hst1; [|exact Hi]. apply HstD; [|exact Hi].
    rewrite HfC by exact Hr. apply HfA; auto. now rewrite Hf0.
  - exists qC. split_and!; auto.
    unfold used_slots.
    cbn [class qC qB qA q0 set_parsers_begin set_parsers_end set_patterns
         set_initialized with_attrs patterns parsers_begin parsers_end].
    rewrite Hcl, !Forall_app. split_and!.
    + eapply Forall_impl; [exact HcurA|]. intros sl.
      apply (pending_mono P P gA g1 sl HevA1); auto.
    + eapply Forall_impl; [exact HresD|]. intros sl Hsl. left.
      exact (resolved_evolves gD g1 sl Hev1 Hsl).
    + eapply Forall_impl; [exact Hres1|]. intros sl. now left.
Qed.
End Children.

(** [initialize_repository] on a parser that is not initialized, in a graph
    that may have include cycles. *)
Lemma initialize_repository_cyclic fuel :
  cyclic_spec (initialize_repository scopes language_init fuel).
Proof.
  induction fuel as [|fuel IH]; intros P c g g1 pc Hl Hc Hpc Hini H; [discriminate|].
  cbn [initialize_repository] in H.
  rewrite (bind_Ok _ _ _ _ _ (lookup_parser_Ok g c pc Hpc)) in H.
  assert (Hstable : (∀ r q, r ≠ c → g !! r = Some q → initialized q = true →
                            g1 !! r = Some q) → stable g g1).
  { intros Hf r q Hq Hi. apply Hf; auto. intros ->. congruence. }
  destruct (class pc) eqn:Hcl.
  - rewrite (Hl c pc Hpc) in Hini by auto. discriminate.
  - destruct (MatchParser_cyclic _ IH P c g g1 pc) as (Hev & Hf & Hc1 & Hp1); auto.
    split_and!; auto.
  - destruct (patterns_part_cyclic _ IH P c g g1 pc) as (Hev & Hf & Hc1 & cur & Hp1 & Hcur);
      auto.
    split_and!; auto. eexists. split_and!; [exact Hp1|reflexivity|].
    unfold used_slots. cbn [class set_patterns set_initialized with_attrs patterns].
    now rewrite Hcl.
  - destruct (BeginEndParser_cyclic _ IH P c g g1 pc) as (Hev & Hf & Hc1 & Hp1); auto.
    split_and!; auto.
  - unfold BeginWhileParser_initialize_repository in H.
    apply bind_Ok_inv in H as (? & ? & _ & H).
    apply bind_Ok_inv in H as (? & ? & _ & H). discriminate.
  - rewrite (Hl c pc Hpc) in Hini by auto. discriminate.
Qed.

(** *** The second call *)

(** On a parser that is initialized and whose patterns are initialized
    parsers, [PatternsParser.initialize_repository] is the splice. *)
Lemma PatternsParser_initialize_repository_again child (g : graph) (self : ref)
    (p : GrammarParser) :
  g !! self = Some p → initialized p = true → Forall (resolved g) (patterns p) →
  PatternsParser_initialize_repository scopes child self g
  = splice self (pattern_parsers g (patterns p)) g.
Proof.
  intros Hp Hi Hps. unfold PatternsParser_initialize_repository.
  rewrite (bind_Ok _ _ _ _ _ (update_parser_id g self p _ Hp (set_initialized_id p Hi))).
  rewrite (bind_Ok _ _ _ _ _ (lookup_parser_Ok g self p Hp)).
  rewrite (bind_Ok _ _ _ _ _ (resolve_patterns_resolved scopes g self _ Hps)).
  rewrite (bind_Ok _ _ _ _ _ (update_parser_id g self p _ Hp (set_patterns_id p))).
  rewrite (bind_Ok _ _ _ _ _ (initialize_children_resolved child g _ Hps)).
  unfold get at 1. rewrite (bind_Ok _ _ g g g eq_refl).
  now rewrite (bind_Ok _ _ _ _ _ (lookup_parser_Ok g self p Hp)).
Qed.

Lemma splice_change (self : ref) (g g1 : graph) (p : GrammarParser) (ps : list slot) :
  g !! self = Some p →
  splice self (pattern_parsers g ps) g = Ok ((), g1) →
  ∃ cur, g1 = <[self := set_patterns cur p]> g.
Proof.
  intros Hp H.
  destruct (splice_pending (λ _, True) self (pattern_parsers g ps) g g1 p Hp)
    as (cur & -> & _); eauto.
  - apply Forall_forall. intros sl _. now right.
  - apply Forall_forall. intros d _ _ pd _. apply Forall_forall. intros sl _. now right.
Qed.

(** On a BeginEndParser that is initialized and whose patterns and captures
    are initialized parsers, a call of [initialize_repository] is the
    splice of its patterns. *)
Lemma BeginEndParser_initialize_repository_again (fuel : nat) (g : graph) (self : ref)
    (p : GrammarParser) :
  g !! self = Some p → class p = BeginEndParser → initialized p = true →
  Forall (resolved g) (used_slots p) →
  initialize_repository scopes language_init (S fuel) self g
  = splice self (pattern_parsers g (patterns p)) g.
Proof.
  intros Hp Hcl Hi Hsl. unfold used_slots in Hsl. rewrite Hcl in Hsl.
  apply Forall_app in Hsl as [Hps Hsl]. apply Forall_app in Hsl as [Hb He].
  cbn [initialize_repository].
  rewrite (bind_Ok _ _ _ _ _ (lookup_parser_Ok g self p Hp)), Hcl.
  unfold BeginEndParser_initialize_repository.
  rewrite (bind_Ok _ _ _ _ _ (update_parser_id g self p _ Hp (set_initialized_id p Hi))).
  pose proof (PatternsParser_initialize_repository_again
                (initialize_repository scopes language_init fuel) g self p Hp Hi Hps)
    as Hpart.
  destruct (splice self (pattern_parsers g (patterns p)) g) as [[[] g2]|e|] eqn:E;
    [|unfold mbind, St_bind; now rewrite Hpart..].
  rewrite (bind_Ok _ _ _ _ _ Hpart).
  destruct (splice_change self g g2 p _ Hp E) as (cur & ->).
  set (p2 := set_patterns cur p) in *. set (g2 := <[self := p2]> g) in *.
  assert (Hp2 : g2 !! self = Some p2) by (eapply lookup_insert_self; eauto).
  assert (Hev : evolves g g2) by (apply (evolves_insert g self p); auto).
  assert (Hb2 : Forall (resolved g2) (parsers_begin p2).*2).
  { eapply Forall_impl; [exact Hb|]. intros sl. now apply resolved_evolves. }
  assert (He2 : Forall (resolved g2) (parsers_end p2).*2).
  { eapply Forall_impl; [exact He|]. intros sl. now apply resolved_evolves. }
  rewrite (bind_Ok _ _ _ _ _ (lookup_parser_Ok g2 self p2 Hp2)).
  rewrite (bind_Ok _ _ _ _ _ (resolve_captures_resolved scopes _ _ g2 self _ He2)).
  rewrite (bind_Ok _ _ _ _ _ (lookup_parser_Ok g2 self p2 Hp2)).
  rewrite (bind_Ok _ _ _ _ _ (resolve_captures_resolved scopes _ _ g2 self _ Hb2)).
  rewrite (bind_Ok _ _ _ _ _ (lookup_parser_Ok g2 self p2 Hp2)).
  rewrite (bind_Ok _ _ _ _ _ (initialize_children_resolved _ g2 _ Hb2)).
  rewrite (bind_Ok _ _ _ _ _ (lookup_parser_Ok g2 self p2 Hp2)).
  now apply initialize_children_resolved.
Qed.
End Cyclic.

(** C5, amended: on a parser graph as it is built, with or without include
    cycles (token parsers and the language are initialized, and a parser
    that is initialized already has its patterns and captures resolved to
    initialized parsers, no plain PatternsParser among its patterns), when
    a first call of [initialize_repository] on a parser other than the
    language returns and leaves the graph [g1], a second call resolves
    nothing and initializes no child: on a PatternsParser or BeginEndParser
    it is the one-level splice of the plain PatternsParser objects that the
    first call left among the patterns of the parser, and on a token or
    match parser it changes nothing.  So the second call leaves [g1] as it
    is whenever no plain PatternsParser is left among the patterns, as for a
    begin/end rule that includes itself; this is so in every graph without
    include cycles. *)
Theorem initialize_repository_twice scopes language_init (fuel fuel' : nat)
    (g g1 : graph) (self : ref) (p : GrammarParser) :
  leaves_initialized g →
  (∀ r q, g !! r = Some q → initialized q = true → settled g q) →
  g !! self = Some p → class p ≠ LanguageParser →
  initialize_repository scopes language_init fuel self g = Ok ((), g1) →
  ∃ p1, g1 !! self = Some p1
    ∧ let again := initialize_repository scopes language_init (S fuel') self g1 in
      let remaining := pattern_parsers g1 (patterns p1) in
      (class p = PatternsParser ∨ class p = BeginEndParser →
       again = splice self remaining g1)
      ∧ (class p = TokenParser ∨ class p = MatchParser → again = Ok ((), g1))
      ∧ (remaining = [] → again = Ok ((), g1))
      ∧ (∀ rank, acyclic rank g → again = Ok ((), g1)).
Proof.
  intros Hl Hset Hp Hlang H.
  assert (Hbw : class p ≠ BeginWhileParser).
  { intros Hcl.
    exact (initialize_repository_BeginWhileParser scopes language_init fuel g g1 self p
             Hp Hcl H). }
  assert (Hsettled : ∀ p1, g1 !! self = Some p1 → class p1 = class p → settled g1 p1 →
            initialize_repository scopes language_init (S fuel') self g1 = Ok ((), g1)).
  { intros p1 Hp1 Hcl1 Hs1.
    apply (initialize_repository_settled scopes language_init fuel' g1 self p1 Hp1 Hs1);
      congruence. }
  assert (Hspliced : ∀ p1, g1 !! self = Some p1 → class p1 = class p →
            initialized p1 = true → Forall (resolved g1) (used_slots p1) →
            class p = PatternsParser ∨ class p = BeginEndParser →
            initialize_repository scopes language_init (S fuel') self g1
            = splice self (pattern_parsers g1 (patterns p1)) g1).
  { intros p1 Hp1 Hcl1 Hi1 Hsl1 [Hcl|Hcl].
    - apply (initialize_repository_again scopes language_init fuel' self g1 p1); auto;
        [congruence|].
      unfold used_slots in Hsl1. now rewrite Hcl1, Hcl in Hsl1.
    - apply BeginEndParser_initialize_repository_again; auto. congruence. }
  destruct (initialized p) eqn:Hi.
  - destruct fuel as [|fuel]; [discriminate|].
    pose proof (Hset self p Hp Hi) as Hs.
    rewrite (initialize_repository_settled scopes language_init fuel g self p Hp Hs Hbw
               Hlang) in H.
    injection H as <-. exists p. split; [exact Hp|].
    destruct Hs as (Hi' & Hsl & Hflat). cbv zeta. split_and!.
    + intros Hcl. rewrite (Hspliced p Hp eq_refl Hi Hsl Hcl). now rewrite Hflat.
    + intros _. apply (Hsettled p Hp eq_refl). split_and!; auto.
    + intros _. apply (Hsettled p Hp eq_refl). split_and!; auto.
    + intros rank _. apply (Hsettled p Hp eq_refl). split_and!; auto.
  - destruct (initialize_repository_cyclic scopes language_init fuel (λ _, False) self g g1
                p Hl) as ([Hlen Hev] & _ & _ & p1 & Hp1 & Hi1 & Hsl1); auto.
    { intros r q Hq Hqi Hclq. destruct (Hset r q Hq Hqi) as (_ & Hsl & _).
      unfold used_slots in Hsl. rewrite Hclq in Hsl.
      eapply Forall_impl; [exact Hsl|]. intros sl. now left. }
    destruct (Hev self p Hp) as (p1' & Hp1' & Hcl1 & _).
    assert (p1' = p1) as -> by congruence.
    assert (Hres1 : Forall (resolved g1) (used_slots p1)).
    { eapply Forall_impl; [exact Hsl1|]. intros sl [?|[]]. assumption. }
    exists p1. split; [exact Hp1|]. cbv zeta. split_and!.
    + now apply Hspliced.
    + intros Hcl. apply (Hsettled p1 Hp1 Hcl1). split_and!; auto.
      intros [?|?]; destruct Hcl; congruence.
    + intros Hflat. apply (Hsettled p1 Hp1 Hcl1). split_and!; auto.
    + intros rank Hac.
      assert (Hbelow : settled_below rank (S (rank self)) g).
      { intros r q Hq _ Hqi. eauto. }
      destruct (initialize_repository_spec scopes language_init rank fuel self g g1
                  (S (rank self)) p Hac Hbelow (Nat.lt_succ_diag_r _) Hp Hi H)
        as (_ & _ & _ & _ & p1' & Hp1'' & Hs1).
      assert (p1' = p1) as -> by congruence.
      now apply (Hsettled p1 Hp1 Hcl1).
Qed.

Lemma nesting_graph_leaves : leaves_initialized Examples.nesting_graph.
Proof.
  intros r q Hq Hc.
  destruct r as [|[|r]]; try discriminate Hq; injection Hq as <-;
    [reflexivity|destruct Hc; discriminate].
Qed.

Lemma nesting_graph_fresh (r : ref) (q : GrammarParser) :
  Examples.nesting_graph !! r = Some q → initialized q = true →
  settled Examples.nesting_graph q.
Proof.
  intros Hq Hi.
  destruct r as [|[|r]]; try discriminate Hq; injection Hq as <-; try discriminate Hi.
  split_and!; [reflexivity|constructor|intros [?|?]; discriminate].
Qed.

Lemma mixed_graph_leaves : leaves_initialized Examples.mixed_graph.
Proof.
  intros r q Hq Hc.
  destruct r as [|[|[|[|r]]]]; try discriminate Hq; injection Hq as <-;
    solve [reflexivity|destruct Hc; discriminate].
Qed.

Lemma mixed_graph_fresh (r : ref) (q : GrammarParser) :
  Examples.mixed_graph !! r = Some q → initialized q = true →
  settled Examples.mixed_graph q.
Proof.
  intros Hq Hi.
  destruct r as [|[|[|[|r]]]]; try discriminate Hq; injection Hq as <-;
    try discriminate Hi.
  split_and!; [reflexivity|constructor|intros [?|?]; discriminate].
Qed.

Lemma initialize_repository_twice_witness :
  (initialize_repository Examples.no_scopes Examples.no_language_init 2 1%nat
     Examples.nesting_graph
   = Ok ((), Examples.nesting_initialized)
   ∧ patterns <$> Examples.nesting_initialized !! 1%nat = Some [Parser 1%nat]
   ∧ initialize_repository Examples.no_scopes Examples.no_language_init 2 1%nat
       Examples.nesting_initialized
     = Ok ((), Examples.nesting_initialized))
  ∧ (initialize_repository Examples.no_scopes Examples.no_language_init 3 1%nat
       Examples.mixed_graph
     = Ok ((), Examples.mixed_initialized)
     ∧ patterns <$> Examples.mixed_initialized !! 1%nat
       = Some [Parser 1%nat; Parser 3%nat]
     ∧ initialize_repository Examples.no_scopes Examples.no_language_init 3 1%nat
         Examples.mixed_initialized
       = Ok ((), Examples.mixed_initialized))
  ∧ (acyclic Examples.acyclic_rank Examples.acyclic_graph
     ∧ initialize_repository Examples.no_scopes Examples.no_language_init 3 1%nat
         Examples.acyclic_graph
       = Ok ((), Examples.acyclic_initialized)
     ∧ initialize_repository Examples.no_scopes Examples.no_language_init 3 1%nat
         Examples.acyclic_initialized
       = Ok ((), Examples.acyclic_initialized)).
Proof.
  split; [|split].
  - split; [vm_compute; reflexivity|]. split; [reflexivity|].
    destruct (initialize_repository_twice Examples.no_scopes Examples.no_language_init
                2 1 Examples.nesting_graph Examples.nesting_initialized 1%nat _
                nesting_graph_leaves nesting_graph_fresh eq_refl ltac:(discriminate)
                ltac:(vm_compute; reflexivity))
      as (p1 & Hp1 & _ & _ & Hnone & _).
    injection Hp1 as <-. apply Hnone. reflexivity.
  - split; [vm_compute; reflexivity|]. split; [reflexivity|].
    destruct (initialize_repository_twice Examples.no_scopes Examples.no_language_init
                3 2 Examples.mixed_graph Examples.mixed_initialized 1%nat _
                mixed_graph_leaves mixed_graph_fresh eq_refl ltac:(discriminate)
                ltac:(vm_compute; reflexivity))
      as (p1 & Hp1 & _ & _ & Hnone & _).
    injection Hp1 as <-. apply Hnone. reflexivity.
  - split; [exact acyclic_graph_acyclic|]. split; [vm_compute; reflexivity|].
    assert (Hl : leaves_initialized Examples.acyclic_graph).
    { intros r q Hq. now destruct (acyclic_graph_acyclic r q Hq) as (_ & _ & _ & _ & H). }
    assert (Hf : ∀ r q, Examples.acyclic_graph !! r = Some q → initialized q = true →
                        settled Examples.acyclic_graph q).
    { intros r q Hq Hi.
      destruct r as [|[|[|[|[|r]]]]]; try discriminate Hq; injection Hq as <-;
        try discriminate Hi.
      split_and!; [reflexivity|constructor|intros [?|?]; discriminate]. }
    destruct (initialize_repository_twice Examples.no_scopes Examples.no_language_init
                3 2 Examples.acyclic_graph Examples.acyclic_initialized 1%nat _
                Hl Hf eq_refl ltac:(discriminate) ltac:(vm_compute; reflexivity))
      as (p1 & _ & _ & _ & _ & Hac).
    exact (Hac _ acyclic_graph_acyclic).
Defined.

(** C5, as stated, fails: on the rules [a] and [b] that include each other,
    the first call on [a] leaves the patterns [b, x, y, x], in which [b] is
    a plain PatternsParser; the second call splices the patterns of [b] in
    again and leaves [b, x, y, x, y, x]. *)
Lemma initialize_repository_not_idempotent :
  ∃ g1 g2,
    initialize_repository Examples.no_scopes Examples.no_language_init 3 1%nat
      Examples.cyclic_graph = Ok ((), g1)
    ∧ initialize_repository Examples.no_scopes Examples.no_language_init 3 1%nat g1
      = Ok ((), g2)
    ∧ patterns <$> g1 !! 1%nat
      = Some [Parser 2%nat; Parser 3%nat; Parser 4%nat; Parser 3%nat]
    ∧ patterns <$> g2 !! 1%nat
      = Some [Parser 2%nat; Parser 3%nat; Parser 4%nat; Parser 3%nat; Parser 4%nat;
              Parser 3%nat]
    ∧ g1 ≠ g2.
Proof.
  eexists _, _.
  split; [vm_compute; reflexivity|]. split; [vm_compute; reflexivity|].
  split; [reflexivity|]. split; [reflexivity|].
  intros H. apply (f_equal (λ g : list GrammarParser, length <$> (patterns <$> g !! 1%nat)))
    in H. discriminate H.
Qed.

(** ** Repository initialization: what it changes and how deep it goes *)

Lemma rewritten_refl p : rewritten p p.
Proof. now left. Qed.

Lemma rewritten_trans p q r : rewritten p q → rewritten q r → rewritten p r.
Proof.
  intros [->|(ps & cs & bs & es & ->)] [->|(ps' & cs' & bs' & es' & ->)].
  - now left.
  - right. eauto.
  - right. eauto.
  - right. now exists ps', cs', bs', es'.
Qed.

(** An assignment to [patterns] or to a captures dictionary of a parser that
    is initialized. *)
Lemma rewritten_with_attrs p ps cs bs es :
  initialized p = true → rewritten p (with_attrs p (initialized p) ps cs bs es).
Proof. intros ->. right. eauto. Qed.

Lemma rewritten_set_initialized p : rewritten p (set_initialized p).
Proof. right. unfold set_initialized. eauto. Qed.

Lemma rewritten_initialized p p' :
  rewritten p p' → initialized p = true → initialized p' = true.
Proof. now intros [->|(ps & cs & bs & es & ->)]. Qed.

Lemma rewrites_refl g : rewrites g g.
Proof. induction g; constructor; auto using rewritten_refl. Qed.

Lemma rewrites_trans g1 g2 g3 : rewrites g1 g2 → rewrites g2 g3 → rewrites g1 g3.
Proof.
  intros H. revert g3. induction H as [|p q g1 g2 Hpq _ IH]; intros g3 R3;
    inversion R3 as [|? r ? g3' Hqr R23]; subst; constructor.
  - eapply rewritten_trans; eauto.
  - now apply IH.
Qed.

Lemma rewrites_insert (g : graph) (r : ref) (p q : GrammarParser) :
  g !! r = Some p → rewritten p q → rewrites g (<[r := q]> g).
Proof.
  intros Hp Hq. rewrite <- (list_insert_id g r p Hp) at 1.
  apply Forall2_insert; [apply rewrites_refl|exact Hq].
Qed.

Lemma rewrites_lookup (g g' : graph) (r : ref) (p : GrammarParser) :
  rewrites g g' → g !! r = Some p → ∃ p', g' !! r = Some p' ∧ rewritten p p'.
Proof. intros H Hp. exact (Forall2_lookup_l _ _ _ _ _ H Hp). Qed.

Lemma rewrites_initialized (g g' : graph) (r : ref) :
  rewrites g g' →
  (∀ p, g !! r = Some p → initialized p = true) →
  ∀ p', g' !! r = Some p' → initialized p' = true.
Proof.
  intros H Hi p' Hp'. destruct (Forall2_lookup_r _ _ _ _ _ H Hp') as (p & Hp & Hpp').
  eapply rewritten_initialized; eauto.
Qed.

Lemma uninitialized_rewrites g g' : rewrites g g' → (uninitialized g' ≤ uninitialized g)%nat.
Proof.
  unfold uninitialized. induction 1 as [|p q g g' Hpq _ IH]; [reflexivity|].
  cbn [List.filter]. destruct Hpq as [->|(ps & cs & bs & es & ->)].
  - destruct (negb (initialized p)); simpl; lia.
  - cbn [initialized with_attrs negb]. destruct (negb (initialized p)); simpl; lia.
Qed.

Lemma uninitialized_set_initialized (g : graph) (r : ref) (p : GrammarParser) :
  g !! r = Some p → initialized p = false →
  S (uninitialized (<[r := set_initialized p]> g)) = uninitialized g.
Proof.
  unfold uninitialized. revert r. induction g as [|q g IH]; intros [|r] Hp Hi;
    try discriminate.
  - injection Hp as ->. simpl. now rewrite Hi.
  - simpl in Hp. cbn [insert list_insert List.filter].
    change (list_insert r (set_initialized p) g) with (<[r := set_initialized p]> g).
    destruct (negb (initialized q)); simpl; rewrite <- (IH r Hp Hi); reflexivity.
Qed.

Lemma uninitialized_pos (g : graph) (r : ref) (p : GrammarParser) :
  g !! r = Some p → initialized p = false → (1 ≤ uninitialized g)%nat.
Proof. intros Hp Hi. rewrite <- (uninitialized_set_initialized g r p Hp Hi). lia. Qed.

Lemma outcome_bind {A B} (T : Prop) (m : St graph A) (f : A → St graph B) (g : graph)
    (Q1 : A → graph → Prop) (Q2 : B → graph → Prop) :
  outcome T m g Q1 →
  (∀ a g', m g = Ok (a, g') → Q1 a g' → outcome T (f a) g' Q2) →
  outcome T (m ≫= f) g Q2.
Proof.
  unfold outcome, mbind, St_bind. intros R1 R2.
  destruct (m g) as [[a g']|e|]; [exact (R2 a g' eq_refl R1)|exact I|exact R1].
Qed.

Lemma outcome_impl {A} (T : Prop) (m : St graph A) (g : graph) (Q Q' : A → graph → Prop) :
  outcome T m g Q → (∀ a g', Q a g' → Q' a g') → outcome T m g Q'.
Proof. unfold outcome. destruct (m g) as [[a g']|e|]; auto. Qed.

Lemma outcome_Ok {A} (T : Prop) (m : St graph A) (g g' : graph) (a : A)
    (Q : A → graph → Prop) :
  outcome T m g Q → m g = Ok (a, g') → Q a g'.
Proof. unfold outcome. intros H E. now rewrite E in H. Qed.

Lemma outcome_returns {A} (T : Prop) (m : St graph A) (g : graph) (Q : A → graph → Prop) :
  outcome T m g Q → T → m g ≠ OutOfFuel.
Proof. unfold outcome. intros H HT E. rewrite E in H. auto. Qed.

Lemma lookup_parser_outcome (T : Prop) (r : ref) (g : graph) :
  outcome T (lookup_parser r) g (λ p g', g' = g ∧ g !! r = Some p).
Proof. unfold outcome, lookup_parser. destruct (g !! r); auto. Qed.

Lemma update_parser_outcome (T : Prop) (r : ref) (f : GrammarParser → GrammarParser)
    (g : graph) :
  (∀ p, g !! r = Some p → rewritten p (f p)) →
  outcome T (update_parser r f) g
    (λ _ g', rewrites g g' ∧ ∀ p, g !! r = Some p → g' = <[r := f p]> g).
Proof.
  intros Hf. unfold outcome, update_parser. destruct (g !! r) as [p|] eqn:Hp; [|exact I].
  split; [eapply rewrites_insert; eauto|]. now intros ? [= <-].
Qed.

(** An assignment to [patterns] or to a captures dictionary of a parser that
    is initialized. *)
Lemma assign_outcome (T : Prop) (r : ref) (f : GrammarParser → GrammarParser)
    (g : graph) :
  (∀ p, g !! r = Some p → initialized p = true) →
  (∀ p, ∃ ps cs bs es, f p = with_attrs p (initialized p) ps cs bs es) →
  outcome T (update_parser r f) g (λ _ g', rewrites g g').
Proof.
  intros Hi Hf. eapply outcome_impl; [apply update_parser_outcome|].
  - intros p Hp. destruct (Hf p) as (ps & cs & bs & es & ->).
    apply rewritten_with_attrs. auto.
  - cbv beta. now intros ? g' [? _].
Qed.

Section Outcome.
Variable scopes : graph → ref → string → res slot.
Variable language_init : ref → St graph unit.

Section Bodies.
Variable T : Prop.
Variable child : ref → St graph unit.
Variable bound : nat.
Hypothesis scopes_returns : T → ∀ g r key, scopes g r key ≠ OutOfFuel.
Hypothesis child_rewrites : ∀ c g g', child c g = Ok ((), g') → rewrites g g'.
Hypothesis child_returns :
  T → ∀ c g pc, g !! c = Some pc → initialized pc = false →
      (uninitialized g ≤ bound)%nat → child c g ≠ OutOfFuel.

Lemma _find_include_outcome self key g :
  outcome T (_find_include scopes self key) g (λ _ g', g' = g).
Proof.
  unfold _find_include. eapply outcome_bind; [apply lookup_parser_outcome|].
  intros p g' ? [-> _]. destruct (language p) as [lang|]; [|exact I].
  destruct key as [key|]; [|exact I].
  destruct (_ || _); [reflexivity|]. destruct key as [|c name]; [exact I|].
  destruct (bool_decide _).
  - eapply outcome_bind; [apply lookup_parser_outcome|]. now intros l g' ? [-> _].
  - unfold outcome. destruct (scopes g lang (String c name)) eqn:E; auto.
    intros HT. exact (scopes_returns HT _ _ _ E).
Qed.

Lemma resolve_outcome self value g :
  outcome T (resolve scopes self value) g (λ _ g', g' = g).
Proof. destruct value; [reflexivity|apply _find_include_outcome..]. Qed.

Lemma resolve_patterns_outcome self ps g :
  outcome T (resolve_patterns scopes self ps) g (λ _ g', g' = g).
Proof.
  induction ps as [|v ps IH]; [reflexivity|]. cbn [resolve_patterns].
  eapply outcome_bind; [apply resolve_outcome|]. intros sl g' ? ->.
  eapply outcome_bind; [apply IH|]. now intros sls g' ? ->.
Qed.

Lemma resolve_captures_outcome self get_d set_d items g :
  (∀ d p, ∃ ps cs bs es, set_d d p = with_attrs p (initialized p) ps cs bs es) →
  (∀ p, g !! self = Some p → initialized p = true) →
  outcome T (resolve_captures scopes self get_d set_d items) g (λ _ g', rewrites g g').
Proof.
  intros Hset. revert g. induction items as [|[k v] items IH]; intros g Hi;
    [apply rewrites_refl|].
  cbn [resolve_captures]. eapply outcome_bind with (Q1 := λ _ g', rewrites g g').
  - destruct v as [c|key|]; [apply rewrites_refl|..];
      (eapply outcome_bind; [apply resolve_outcome|]; intros sl g' ? ->;
       apply assign_outcome; [exact Hi|intros p; apply Hset]).
  - intros ? g1 _ R1. eapply outcome_impl; [apply IH|].
    + exact (rewrites_initialized g g1 self R1 Hi).
    + intros ? g2 R2. eapply rewrites_trans; eauto.
Qed.

Lemma initialize_children_outcome ps g :
  (T → (uninitialized g ≤ bound)%nat) →
  outcome T (initialize_children child ps) g (λ _ g', rewrites g g').
Proof.
  revert g. induction ps as [|sl ps IH]; intros g Hb; [apply rewrites_refl|].
  cbn [initialize_children]. unfold get at 1.
  eapply outcome_bind with (Q1 := λ s g', g' = g ∧ s = g); [now split|].
  intros s g' ? [-> ->].
  eapply outcome_bind with (Q1 := λ i g', g' = g ∧ ∃ r c, sl = Parser r ∧ g !! r = Some c
                                                   ∧ i = initialized c).
  { unfold outcome, attr. destruct sl as [r| |]; try exact I.
    destruct (g !! r) as [c|] eqn:Hc; [|exact I]. split; eauto. }
  intros i g' _ (-> & r & c & -> & Hc & ->).
  eapply outcome_bind with (Q1 := λ _ g', rewrites g g').
  - destruct (initialized c) eqn:Hi; [apply rewrites_refl|].
    unfold outcome. destruct (child r g) as [[[] g']|e|] eqn:E;
      [exact (child_rewrites _ _ _ E)|exact I|].
    intros HT. exact (child_returns HT r g c Hc Hi (Hb HT) E).
  - intros ? g1 _ R1. eapply outcome_impl; [apply IH|].
    + intros HT. pose proof (uninitialized_rewrites _ _ R1). specialize (Hb HT). lia.
    + intros ? g2 R2. eapply rewrites_trans; eauto.
Qed.

Lemma splice_outcome self todo g :
  (∀ p, g !! self = Some p → initialized p = true) →
  outcome T (splice self todo) g (λ _ g', rewrites g g').
Proof.
  revert g. induction todo as [|c todo IH]; intros g Hi; [apply rewrites_refl|].
  cbn [splice]. eapply outcome_bind; [apply lookup_parser_outcome|]. intros p g' ? [-> Hp].
  eapply outcome_bind; [apply lookup_parser_outcome|]. intros pc g' ? [-> Hpc].
  destruct (index_of _ _) as [i|]; [|exact I].
  eapply outcome_bind with (Q1 := λ _ g', rewrites g g').
  { apply assign_outcome; [exact Hi|]. intros q. unfold set_patterns. eauto. }
  intros ? g1 _ R1. eapply outcome_impl; [apply IH|].
  - exact (rewrites_initialized g g1 self R1 Hi).
  - intros ? g2 R2. eapply rewrites_trans; eauto.
Qed.

(** [self.initialized = True]: after it the parser is initialized, and
    the fuel that is left is enough for its children. *)
Lemma set_initialized_outcome self g :
  (T → ∀ p, g !! self = Some p →
        (uninitialized (<[self := set_initialized p]> g) ≤ bound)%nat) →
  outcome T (update_parser self set_initialized) g
    (λ _ g', rewrites g g' ∧ (∀ p, g' !! self = Some p → initialized p = true)
             ∧ (T → (uninitialized g' ≤ bound)%nat)).
Proof.
  intros Hb. unfold outcome, update_parser.
  destruct (g !! self) as [p|] eqn:Hp; [|exact I]. split_and!.
  - eapply rewrites_insert; [exact Hp|apply rewritten_set_initialized].
  - intros q Hq. rewrite list_lookup_insert_eq in Hq by (eapply lookup_lt_Some; eauto).
    now injection Hq as <-.
  - intros HT. now apply Hb.
Qed.

Lemma PatternsParser_initialize_repository_outcome self g :
  (T → ∀ p, g !! self = Some p →
        (uninitialized (<[self := set_initialized p]> g) ≤ bound)%nat) →
  outcome T (PatternsParser_initialize_repository scopes child self) g
    (λ _ g', rewrites g g').
Proof.
  intros Hb. unfold PatternsParser_initialize_repository.
  eapply outcome_bind; [apply set_initialized_outcome, Hb|]. intros ? g1 ? (R1 & Hi1 & Hb1).
  eapply outcome_bind; [apply lookup_parser_outcome|]. intros p g' ? [-> Hp].
  eapply outcome_bind; [apply resolve_patterns_outcome|]. intros ps g' ? ->.
  eapply outcome_bind with (Q1 := λ _ g', rewrites g1 g').
  { apply assign_outcome; [exact Hi1|]. intros q. unfold set_patterns. eauto. }
  intros ? g2 ? R2.
  eapply outcome_bind with (Q1 := λ _ g', rewrites g2 g').
  { apply initialize_children_outcome. intros HT.
    pose proof (uninitialized_rewrites _ _ R2). specialize (Hb1 HT). lia. }
  intros ? g3 ? R3. unfold get at 1.
  eapply outcome_bind with (Q1 := λ s g', g' = g3); [reflexivity|]. intros s g' ? ->.
  eapply outcome_bind; [apply lookup_parser_outcome|]. intros p3 g' ? [-> _].
  assert (R13 : rewrites g1 g3) by (eapply rewrites_trans; eassumption).
  eapply outcome_impl.
  { apply splice_outcome. exact (rewrites_initialized g1 g3 self R13 Hi1). }
  intros ? g4 R4. cbv beta in *.
  eapply rewrites_trans; [exact R1|]. eapply rewrites_trans; eassumption.
Qed.

Lemma MatchParser_initialize_repository_outcome self g :
  (T → ∀ p, g !! self = Some p →
        (uninitialized (<[self := set_initialized p]> g) ≤ bound)%nat) →
  outcome T (MatchParser_initialize_repository scopes child self) g
    (λ _ g', rewrites g g').
Proof.
  intros Hb. unfold MatchParser_initialize_repository.
  eapply outcome_bind; [apply set_initialized_outcome, Hb|]. intros ? g1 ? (R1 & Hi1 & Hb1).
  eapply outcome_bind; [apply lookup_parser_outcome|]. intros p g' ? [-> Hp].
  eapply outcome_bind with (Q1 := λ _ g', rewrites g1 g').
  { apply resolve_captures_outcome; [|exact Hi1]. intros d q. unfold set_parsers. eauto. }
  intros ? g2 ? R2.
  eapply outcome_bind; [apply lookup_parser_outcome|]. intros p2 g' ? [-> _].
  eapply outcome_impl.
  { apply initialize_children_outcome. intros HT.
    pose proof (uninitialized_rewrites _ _ R2). specialize (Hb1 HT). lia. }
  intros ? g3 R3. cbv beta in *.
  eapply rewrites_trans; [exact R1|]. eapply rewrites_trans; eassumption.
Qed.

Lemma BeginEndParser_initialize_repository_outcome self g :
  (T → ∀ p, g !! self = Some p →
        (uninitialized (<[self := set_initialized p]> g) ≤ bound)%nat) →
  outcome T (BeginEndParser_initialize_repository scopes child self) g
    (λ _ g', rewrites g g').
Proof.
  intros Hb. unfold BeginEndParser_initialize_repository.
  eapply outcome_bind; [apply set_initialized_outcome, Hb|]. intros ? g1 ? (R1 & Hi1 & Hb1).
  assert (Hle : ∀ g', rewrites g1 g' → T → (uninitialized g' ≤ bound)%nat).
  { intros g' Hg' HT. pose proof (uninitialized_rewrites _ _ Hg'). specialize (Hb1 HT). lia. }
  assert (Hinit : ∀ g', rewrites g1 g' → ∀ p, g' !! self = Some p → initialized p = true)
    by (intros g' Hg'; exact (rewrites_initialized g1 g' self Hg' Hi1)).
  eapply outcome_bind with (Q1 := λ _ g', rewrites g1 g').
  { apply PatternsParser_initialize_repository_outcome. intros HT p Hp.
    apply Hle; [|exact HT]. eapply rewrites_insert; [exact Hp|].
    apply rewritten_set_initialized. }
  intros ? g2 ? R2.
  eapply outcome_bind; [apply lookup_parser_outcome|]. intros p2 g' ? [-> _].
  eapply outcome_bind with (Q1 := λ _ g', rewrites g2 g').
  { apply resolve_captures_outcome; [|now apply Hinit]. intros d q.
    unfold set_parsers_end. eauto. }
  intros ? g3 ? R3. cbv beta in *.
  assert (R13 : rewrites g1 g3) by (eapply rewrites_trans; eassumption).
  eapply outcome_bind; [apply lookup_parser_outcome|]. intros p3 g' ? [-> _].
  eapply outcome_bind with (Q1 := λ _ g', rewrites g3 g').
  { apply resolve_captures_outcome; [|now apply Hinit]. intros d q.
    unfold set_parsers_begin. eauto. }
  intros ? g4 ? R4. cbv beta in *.
  assert (R14 : rewrites g1 g4) by (eapply rewrites_trans; eassumption).
  eapply outcome_bind; [apply lookup_parser_outcome|]. intros p4 g' ? [-> _].
  eapply outcome_bind with (Q1 := λ _ g', rewrites g4 g').
  { apply initialize_children_outcome. now apply Hle. }
  intros ? g5 ? R5. cbv beta in *.
  assert (R15 : rewrites g1 g5) by (eapply rewrites_trans; eassumption).
  eapply outcome_bind; [apply lookup_parser_outcome|]. intros p5 g' ? [-> _].
  eapply outcome_impl.
  { apply initialize_children_outcome. now apply Hle. }
  intros ? g6 R6. cbv beta in *. eapply rewrites_trans; [exact R1|].
  eapply rewrites_trans; eassumption.
Qed.

Lemma BeginWhileParser_initialize_repository_outcome self g :
  (T → ∀ p, g !! self = Some p →
        (uninitialized (<[self := set_initialized p]> g) ≤ bound)%nat) →
  outcome T (BeginWhileParser_initialize_repository scopes child self) g
    (λ _ g', rewrites g g').
Proof.
  intros Hb. unfold BeginWhileParser_initialize_repository.
  eapply outcome_bind; [apply set_initialized_outcome, Hb|]. intros ? g1 ? (R1 & Hi1 & Hb1).
  eapply outcome_bind with (Q1 := λ _ g', rewrites g1 g').
  { apply PatternsParser_initialize_repository_outcome. intros HT p Hp.
    assert (Hr : rewrites g1 (<[self := set_initialized p]> g1))
      by (eapply rewrites_insert; [exact Hp|apply rewritten_set_initialized]).
    pose proof (uninitialized_rewrites _ _ Hr). specialize (Hb1 HT). lia. }
  intros ? g2 ? R2. exact I.
Qed.
End Bodies.

Hypothesis language_rewrites : ∀ r g g', language_init r g = Ok ((), g') → rewrites g g'.

Lemma initialize_repository_outcome fuel :
  ∀ self g,
    outcome (deep_enough scopes language_init fuel self g) (initialize_repository scopes language_init fuel self)
      g (λ _ g', rewrites g g').
Proof.
  induction fuel as [|fuel IH]; intros self g.
  - intros (_ & _ & [H|(p & Hp & Hi & H)]); [lia|].
    pose proof (uninitialized_pos g self p Hp Hi). lia.
  - cbn [initialize_repository].
    eapply outcome_bind; [apply lookup_parser_outcome|]. intros p g' ? [-> Hp].
    assert (Hchild : ∀ c g g', initialize_repository scopes language_init fuel c g
                               = Ok ((), g') → rewrites g g').
    { intros c g0 g' E. exact (outcome_Ok _ _ _ _ _ _ (IH c g0) E). }
    assert (Hret : deep_enough scopes language_init (S fuel) self g →
                   ∀ c g pc, g !! c = Some pc → initialized pc = false →
                             (uninitialized g ≤ fuel)%nat →
                             initialize_repository scopes language_init fuel c g
                             ≠ OutOfFuel).
    { intros (Hs & Hl & _) c g0 pc Hc Hi Hle.
      apply (outcome_returns _ _ _ _ (IH c g0)). split_and!; eauto. }
    assert (Hb : deep_enough scopes language_init (S fuel) self g → ∀ p, g !! self = Some p →
                 (uninitialized (<[self := set_initialized p]> g) ≤ fuel)%nat).
    { intros (_ & _ & [Hlt|(p0 & Hp0 & Hi & Hle)]) q Hq.
      - assert (Hr : rewrites g (<[self := set_initialized q]> g))
          by (eapply rewrites_insert; [exact Hq|apply rewritten_set_initialized]).
        pose proof (uninitialized_rewrites _ _ Hr). lia.
      - assert (q = p0) as -> by congruence.
        pose proof (uninitialized_set_initialized g self p0 Hp0 Hi). lia. }
    destruct (class p).
    + apply rewrites_refl.
    + apply (MatchParser_initialize_repository_outcome _ _ fuel); auto.
      now intros (Hs & _).
    + apply (PatternsParser_initialize_repository_outcome _ _ fuel); auto.
      now intros (Hs & _).
    + apply (BeginEndParser_initialize_repository_outcome _ _ fuel); auto.
      now intros (Hs & _).
    + apply (BeginWhileParser_initialize_repository_outcome _ _ fuel); auto.
      now intros (Hs & _).
    + unfold outcome. destruct (language_init self g) as [[[] g']|e|] eqn:E;
        [exact (language_rewrites _ _ _ E)|exact I|].
      intros (_ & Hl & _). exact (Hl _ _ E).
Qed.
End Outcome.

Lemma no_language_init_rewrites (r : ref) (g g' : graph) :
  Examples.no_language_init r g = Ok ((), g') → rewrites g g'.
Proof. intros [= <-]. apply rewrites_refl. Qed.

(** X2: [initialize_repository] only rewrites parsers in place: whatever the
    graph, after a call that returns the graph has the parsers it had, at
    the same places, and each parser has kept its class, language, key,
    token, comment, its flags [disabled] and [anchored], its injected
    patterns, its three regular expressions, [between_content],
    [apply_end_pattern_last] and its repository; [initialized] is never
    cleared, and a parser that is not initialized after the call has not
    been changed at all.  Only [initialized], [patterns] and the three
    captures dictionaries are ever assigned.  The method of the language,
    which is not part of [parser.py], is assumed to do no more. *)
Theorem initialize_repository_rewrites scopes language_init (fuel : nat) (self : ref)
    (g g' : graph) :
  (∀ r g g', language_init r g = Ok ((), g') → rewrites g g') →
  initialize_repository scopes language_init fuel self g = Ok ((), g') →
  length g' = length g
  ∧ ∀ r p, g !! r = Some p →
      ∃ p', g' !! r = Some p'
        ∧ class p' = class p ∧ language p' = language p ∧ key p' = key p
        ∧ token p' = token p ∧ comment p' = comment p ∧ disabled p' = disabled p
        ∧ anchored p' = anchored p ∧ injected_patterns p' = injected_patterns p
        ∧ exp_match p' = exp_match p ∧ exp_begin p' = exp_begin p
        ∧ exp_end p' = exp_end p ∧ between_content p' = between_content p
        ∧ apply_end_pattern_last p' = apply_end_pattern_last p
        ∧ repository p' = repository p
        ∧ (initialized p = true → initialized p' = true)
        ∧ (initialized p' = false → p' = p).
Proof.
  intros Hlang H.
  pose proof (outcome_Ok _ _ _ _ _ _
                (initialize_repository_outcome scopes language_init Hlang fuel self g) H)
    as Hr.
  split; [symmetry; exact (Forall2_length _ _ _ Hr)|].
  intros r p Hp. destruct (rewrites_lookup g g' r p Hr Hp) as (p' & Hp' & Hpp').
  exists p'. split; [exact Hp'|].
  destruct Hpp' as [->|(ps & cs & bs & es & ->)]; split_and!; auto; discriminate.
Qed.

Lemma initialize_repository_rewrites_witness :
  ∃ g', initialize_repository Examples.no_scopes Examples.no_language_init 3 1%nat
          Examples.cyclic_graph = Ok ((), g')
        ∧ length g' = 5%nat
        ∧ ∀ r p, Examples.cyclic_graph !! r = Some p →
            ∃ p', g' !! r = Some p'
              ∧ class p' = class p ∧ language p' = language p ∧ key p' = key p
              ∧ token p' = token p ∧ comment p' = comment p ∧ disabled p' = disabled p
              ∧ anchored p' = anchored p ∧ injected_patterns p' = injected_patterns p
              ∧ exp_match p' = exp_match p ∧ exp_begin p' = exp_begin p
              ∧ exp_end p' = exp_end p ∧ between_content p' = between_content p
              ∧ apply_end_pattern_last p' = apply_end_pattern_last p
              ∧ repository p' = repository p
              ∧ (initialized p = true → initialized p' = true)
              ∧ (initialized p' = false → p' = p).
Proof.
  eexists. split; [vm_compute; reflexivity|].
  refine (initialize_repository_rewrites Examples.no_scopes Examples.no_language_init 3
            1%nat Examples.cyclic_graph _ no_language_init_rewrites _).
  vm_compute. reflexivity.
Defined.

(** X1: [initialize_repository] terminates on every parser graph, with or
    without include cycles: because a parser is marked initialized before
    its children are visited, the calls nest no deeper than the number of
    parsers that are not initialized, and with more fuel than that the call
    returns or raises. *)
Theorem initialize_repository_terminates scopes language_init (fuel : nat) (self : ref)
    (g : graph) :
  (∀ g r key, scopes g r key ≠ OutOfFuel) →
  (∀ r g, language_init r g ≠ OutOfFuel) →
  (∀ r g g', language_init r g = Ok ((), g') → rewrites g g') →
  (uninitialized g < fuel)%nat →
  initialize_repository scopes language_init fuel self g ≠ OutOfFuel.
Proof.
  intros Hs Hl Hlang Hfuel.
  apply (outcome_returns _ _ _ _
           (initialize_repository_outcome scopes language_init Hlang fuel self g)).
  split_and!; auto.
Qed.

Lemma initialize_repository_terminates_witness :
  (uninitialized Examples.cyclic_graph < 5)%nat
  ∧ initialize_repository Examples.no_scopes Examples.no_language_init 5 1%nat
      Examples.cyclic_graph ≠ OutOfFuel.
Proof.
  split; [vm_compute; lia|].
  refine (initialize_repository_terminates Examples.no_scopes Examples.no_language_init
            5 1%nat Examples.cyclic_graph _ _ no_language_init_rewrites _).
  - discriminate.
  - discriminate.
  - vm_compute. lia.
Defined.

(** ** Repository initialization: the splice *)

Lemma spliced_id g ps : pattern_parsers g ps = [] → flat_map (spliced g) ps = ps.
Proof.
  induction ps as [|sl ps IH]; [reflexivity|]. simpl.
  destruct sl as [r| |]; simpl; try (intros H; now rewrite IH).
  destruct (g !! r) as [c|]; [|intros H; now rewrite IH].
  destruct (decide (class c = PatternsParser)); [discriminate|].
  intros H. simpl. now rewrite IH.
Qed.

Lemma spliced_insert (g : graph) (self : ref) (p q : GrammarParser) (ps : list slot) :
  g !! self = Some p → class q = class p →
  (class p = PatternsParser → Parser self ∉ ps) →
  flat_map (spliced (<[self := q]> g)) ps = flat_map (spliced g) ps.
Proof.
  intros Hp Hcl. induction ps as [|sl ps IH]; [reflexivity|]. intros Hself. simpl.
  rewrite IH by (intros H1 H2; apply (Hself H1); now right). f_equal.
  destruct sl as [r| |]; try reflexivity. simpl.
  destruct (decide (r = self)) as [->|Hne].
  - rewrite list_lookup_insert_eq by (eapply lookup_lt_Some; eauto). rewrite Hp, Hcl.
    destruct (decide (class p = PatternsParser)) as [Hpp|]; [|reflexivity].
    exfalso. apply (Hself Hpp). left.
  - now rewrite list_lookup_insert_ne by congruence.
Qed.

Lemma splice_flat_map (todo : list ref) :
  ∀ (g : graph) (self : ref) (p : GrammarParser),
    g !! self = Some p →
    pattern_parsers g (patterns p) = todo →
    self ∉ todo →
    (∀ c pc, c ∈ todo → g !! c = Some pc → pattern_parsers g (patterns pc) = []) →
    splice self todo g
    = Ok ((), <[self := set_patterns (flat_map (spliced g) (patterns p)) p]> g).
Proof.
  induction todo as [|c todo IH]; intros g self p Hp Htodo Hself Hflat.
  - simpl. rewrite (spliced_id g _ Htodo), set_patterns_id, list_insert_id by exact Hp.
    reflexivity.
  - cbn [splice]. rewrite (bind_Ok _ _ _ _ _ (lookup_parser_Ok g self p Hp)).
    destruct (pattern_parsers_elem g (patterns p) c) as (pc & Hpc & Hcl & _);
      [rewrite Htodo; left|].
    rewrite (bind_Ok _ _ _ _ _ (lookup_parser_Ok g c pc Hpc)).
    destruct (pattern_parsers_first g _ c todo Htodo)
      as (pre & post & Hcur & Hpre & Hpost & Hidx).
    rewrite Hidx.
    assert (Htake : take (length pre) (patterns p) = pre)
      by (rewrite Hcur; apply take_app_length).
    assert (Hdrop : drop (S (length pre)) (patterns p) = post).
    { rewrite Hcur. change (pre ++ Parser c :: post) with (pre ++ [Parser c] ++ post).
      rewrite app_assoc. rewrite drop_app_length'; [reflexivity|].
      rewrite length_app. simpl. lia. }
    rewrite Htake, Hdrop. set (cur1 := pre ++ patterns pc ++ post).
    rewrite (bind_Ok _ _ _ _ _ (update_parser_Ok g self p _ Hp)).
    set (g1 := <[self := set_patterns cur1 p]> g).
    assert (Hev1 : evolves g g1) by now apply evolves_set_patterns.
    assert (Hself1 : g1 !! self = Some (set_patterns cur1 p))
      by (apply list_lookup_insert_eq; eapply lookup_lt_Some; eauto).
    assert (Hne : ∀ c', c' ∈ c :: todo → c' ≠ self) by (intros c' Hc' ->; auto).
    assert (Hother : ∀ r, r ≠ self → g1 !! r = g !! r)
      by (intros r Hr; unfold g1; now rewrite list_lookup_insert_ne by congruence).
    assert (Hpc0 : pattern_parsers g (patterns pc) = [])
      by (apply (Hflat c pc); [left|exact Hpc]).
    rewrite (IH g1 self (set_patterns cur1 p) Hself1).
    + f_equal. f_equal. unfold g1. rewrite list_insert_insert_eq.
      rewrite set_patterns_set_patterns. f_equal. f_equal.
      cbn [patterns set_patterns with_attrs]. fold g1.
      assert (Hnot : class p = PatternsParser → Parser self ∉ patterns p).
      { intros Hpp Hin. apply Hself. rewrite <- Htodo.
        clear -Hin Hp Hpp. induction (patterns p) as [|sl ps IHps]; [inversion Hin|].
        apply elem_of_cons in Hin as [<-|Hin].
        - simpl. rewrite Hp. destruct (decide (class p = PatternsParser)); [left|congruence].
        - assert (self ∈ pattern_parsers g ps) by auto. simpl.
          destruct sl as [r| |]; auto. destruct (g !! r) as [cr|]; auto.
          destruct (decide (class cr = PatternsParser)); auto. now right. }
      unfold g1. rewrite (spliced_insert g self p (set_patterns cur1 p) cur1 Hp eq_refl).
      * unfold cur1. rewrite Hcur, !flat_map_app. simpl. rewrite Hpc.
        destruct (decide (class pc = PatternsParser)); [|congruence].
        now rewrite (spliced_id g (patterns pc) Hpc0).
      * intros Hpp Hin. unfold cur1 in Hin. rewrite !elem_of_app in Hin.
        destruct Hin as [Hin|[Hin|Hin]].
        -- apply (Hnot Hpp). rewrite Hcur, elem_of_app. now left.
        -- assert (self ∈ pattern_parsers g (patterns pc)); [|rewrite Hpc0 in *; set_solver].
           clear -Hin Hp Hpp. induction (patterns pc) as [|sl ps IHps]; [inversion Hin|].
           apply elem_of_cons in Hin as [<-|Hin].
           ++ simpl. rewrite Hp. destruct (decide (class p = PatternsParser)); [left|congruence].
           ++ assert (self ∈ pattern_parsers g ps) by auto. simpl.
              destruct sl as [r| |]; auto. destruct (g !! r) as [cr|]; auto.
              destruct (decide (class cr = PatternsParser)); auto. now right.
        -- apply (Hnot Hpp). rewrite Hcur, elem_of_app. right. now right.
    + rewrite (pattern_parsers_evolves g g1 _ Hev1). cbn [patterns set_patterns with_attrs].
      unfold cur1. rewrite !pattern_parsers_app, Hpre, Hpc0, Hpost. reflexivity.
    + intros Hin. apply Hself. now right.
    + intros c' pc' Hc' Hpc'. rewrite Hother in Hpc' by (apply Hne; now right).
      rewrite (pattern_parsers_evolves g g1 _ Hev1). apply (Hflat c' pc'); auto. now right.
Qed.

(** X5: the splice of [PatternsParser.initialize_repository] flattens one
    level: when the plain PatternsParser children hold no plain
    PatternsParser themselves, the loop replaces every one of them, in
    place and in order, by its patterns, and leaves every other pattern
    where it is. *)
Theorem splice_flattens (g : graph) (self : ref) (p : GrammarParser) :
  g !! self = Some p →
  (∀ c pc, c ∈ pattern_parsers g (patterns p) → g !! c = Some pc →
           pattern_parsers g (patterns pc) = []) →
  splice self (pattern_parsers g (patterns p)) g
  = Ok ((), <[self := set_patterns (flat_map (spliced g) (patterns p)) p]> g).
Proof.
  intros Hp Hflat. apply splice_flat_map; auto.
  intros Hin. destruct (pattern_parsers g (patterns p)) as [|c todo] eqn:E; [inversion Hin|].
  specialize (Hflat self p Hin Hp). rewrite E in Hflat. discriminate.
Qed.


Lemma splice_flattens_witness :
  splice 1%nat [2%nat] Examples.unspliced_graph
  = Ok ((), <[1%nat := PatternsParser_init (Some 0%nat) "a" "" "" false
                         [Parser 4%nat; Parser 3%nat]]> Examples.unspliced_graph).
Proof.
  refine (splice_flattens Examples.unspliced_graph 1%nat _ eq_refl _).
  intros c pc Hc Hpc. apply list_elem_of_singleton in Hc as ->.
  injection Hpc as <-. reflexivity.
Defined.

(** ** Repository initialization: includes that cannot be resolved *)

(** X6: without a language, [PatternsParser.initialize_repository] raises
    IncludedParserNotFound for the first include among the patterns,
    whatever its key. *)
Theorem initialize_repository_no_language scopes language_init (fuel : nat) (g : graph)
    (self : ref) (p : GrammarParser) (before : list ref) (key : string)
    (after : list slot) :
  g !! self = Some p →
  class p = PatternsParser →
  language p = None →
  patterns p = (Parser <$> before) ++ Include key :: after →
  initialize_repository scopes language_init (S fuel) self g
  = Raise (IncludedParserNotFound key).
Proof.
  intros Hp Hc Hlang Hps. cbn [initialize_repository].
  rewrite (bind_Ok _ _ _ _ _ (lookup_parser_Ok g self p Hp)), Hc.
  unfold PatternsParser_initialize_repository.
  rewrite (bind_Ok _ _ _ _ _ (update_parser_Ok g self p set_initialized Hp)).
  set (g1 := <[self := set_initialized p]> g).
  assert (Hself : g1 !! self = Some (set_initialized p))
    by (apply list_lookup_insert_eq; eapply lookup_lt_Some; eassumption).
  rewrite (bind_Ok _ _ _ _ _ (lookup_parser_Ok g1 self _ Hself)).
  cbn [patterns set_initialized with_attrs]. rewrite Hps.
  unfold mbind at 1, St_bind. rewrite resolve_patterns_parsers.
  cbn [resolve_patterns resolve]. unfold mbind, St_bind.
  now rewrite (_find_include_no_language scopes g1 self (set_initialized p) key Hself Hlang).
Qed.

Lemma initialize_repository_no_language_witness :
  initialize_repository Examples.no_scopes Examples.no_language_init 1 0%nat
    Examples.orphan_graph
  = Raise (IncludedParserNotFound "#rule").
Proof.
  exact (initialize_repository_no_language Examples.no_scopes Examples.no_language_init
           0 Examples.orphan_graph 0%nat _ [1%nat] "#rule" [] eq_refl eq_refl eq_refl eq_refl).
Defined.

(** X7: an include whose key is the empty string makes
    [PatternsParser.initialize_repository] of a parser that has a language
    fail with IndexError, at [key[0]]. *)
Theorem initialize_repository_empty_include scopes language_init (fuel : nat) (g : graph)
    (self lang : ref) (p : GrammarParser) (before : list ref) (after : list slot) :
  g !! self = Some p →
  class p = PatternsParser →
  language p = Some lang →
  patterns p = (Parser <$> before) ++ Include "" :: after →
  initialize_repository scopes language_init (S fuel) self g = Raise IndexError.
Proof.
  intros Hp Hc Hlang Hps. cbn [initialize_repository].
  rewrite (bind_Ok _ _ _ _ _ (lookup_parser_Ok g self p Hp)), Hc.
  unfold PatternsParser_initialize_repository.
  rewrite (bind_Ok _ _ _ _ _ (update_parser_Ok g self p set_initialized Hp)).
  set (g1 := <[self := set_initialized p]> g).
  assert (Hself : g1 !! self = Some (set_initialized p))
    by (apply list_lookup_insert_eq; eapply lookup_lt_Some; eassumption).
  rewrite (bind_Ok _ _ _ _ _ (lookup_parser_Ok g1 self _ Hself)).
  cbn [patterns set_initialized with_attrs]. rewrite Hps.
  unfold mbind at 1, St_bind. rewrite resolve_patterns_parsers.
  cbn [resolve_patterns resolve]. unfold mbind, St_bind, _find_include.
  unfold mbind, St_bind. rewrite (lookup_parser_Ok g1 self _ Hself).
  cbn [language set_initialized with_attrs]. now rewrite Hlang.
Qed.

Lemma initialize_repository_empty_include_witness :
  initialize_repository Examples.no_scopes Examples.no_language_init 1 1%nat
    Examples.empty_include_graph
  = Raise IndexError.
Proof.
  exact (initialize_repository_empty_include Examples.no_scopes
           Examples.no_language_init 0 Examples.empty_include_graph 1%nat 0%nat _ [] []
           eq_refl eq_refl eq_refl eq_refl).
Defined.

Lemma resolve_captures_skip scopes (self : ref) get_d set_d (rs : list (Z * ref))
    (rest : list (Z * slot)) (g : graph) :
  resolve_captures scopes self get_d set_d ((prod_map id Parser <$> rs) ++ rest) g
  = resolve_captures scopes self get_d set_d rest g.
Proof.
  induction rs as [|[k r] rs IH]; [reflexivity|].
  rewrite fmap_cons. cbn [app prod_map fst snd id resolve_captures].
  unfold mbind, St_bind, mret, St_ret. exact IH.
Qed.

Lemma resolve_captures_parsers scopes (self : ref) get_d set_d (rs : list (Z * ref))
    (g : graph) :
  resolve_captures scopes self get_d set_d (prod_map id Parser <$> rs) g = Ok ((), g).
Proof.
  rewrite <- (app_nil_r (_ <$> rs)). now rewrite resolve_captures_skip.
Qed.

(** X8: when the captures of a MatchParser hold, among parsers that are
    initialized, an include [#name] whose name the repository of the
    language does not have, [MatchParser.initialize_repository] stores
    [None] under the key of the include and then fails with AttributeError
    when it reads [initialized] of that [None]. *)
Theorem MatchParser_initialize_repository_missing_include scopes language_init
    (fuel : nat) (g : graph) (self lang : ref) (p l : GrammarParser) (name : string)
    (k : Z) (before after : list (Z * ref)) :
  g !! self = Some p →
  class p = MatchParser →
  language p = Some lang →
  lang ≠ self →
  g !! lang = Some l →
  repository l !! name = None →
  parsers p = (prod_map id Parser <$> before) ++ (k, Include (String "#" name))
              :: (prod_map id Parser <$> after) →
  k ∉ before.*1 →
  Forall (λ r, r = self ∨ ∃ c, g !! r = Some c ∧ initialized c = true) before.*2 →
  initialize_repository scopes language_init (S fuel) self g = Raise AttributeError.
Proof.
  intros Hp Hc Hlang Hne Hl Hname Hps Hk Hbefore.
  cbn [initialize_repository]. rewrite (bind_Ok _ _ _ _ _ (lookup_parser_Ok g self p Hp)).
  rewrite Hc. unfold MatchParser_initialize_repository.
  rewrite (bind_Ok _ _ _ _ _ (update_parser_Ok g self p set_initialized Hp)).
  set (g1 := <[self := set_initialized p]> g).
  assert (Hself : g1 !! self = Some (set_initialized p))
    by (apply list_lookup_insert_eq; eapply lookup_lt_Some; eassumption).
  assert (Hlang1 : g1 !! lang = Some l)
    by (unfold g1; rewrite list_lookup_insert_ne by congruence; exact Hl).
  rewrite (bind_Ok _ _ _ _ _ (lookup_parser_Ok g1 self _ Hself)).
  cbn [parsers set_initialized with_attrs].
  set (q := set_parsers ((prod_map id Parser <$> before) ++ (k, PyNone)
                         :: (prod_map id Parser <$> after)) (set_initialized p)).
  assert (Hres : resolve_captures scopes self parsers set_parsers (parsers p) g1
                 = Ok ((), <[self := q]> g1)).
  { rewrite Hps, resolve_captures_skip. cbn [resolve_captures resolve].
    assert (Hin : (v ← _find_include scopes self (Some (String "#" name));
                   update_parser self (λ p0, set_parsers (dict_set k v (parsers p0)) p0)) g1
                  = Ok ((), <[self := q]> g1)).
    { rewrite (bind_Ok _ _ _ _ _
                 (_find_include_absent scopes g1 self lang _ l name Hself Hlang Hlang1 Hname)).
      rewrite (update_parser_Ok g1 self _ _ Hself). do 3 f_equal. unfold q. f_equal.
      cbn [parsers set_initialized with_attrs]. rewrite Hps. apply dict_set_app.
      rewrite <- list_fmap_compose. exact Hk. }
    rewrite (bind_Ok _ _ _ _ _ Hin). now rewrite resolve_captures_parsers. }
  rewrite (bind_Ok _ _ _ _ _ Hres).
  set (g2 := <[self := q]> g1).
  assert (Hself2 : g2 !! self = Some q)
    by (apply list_lookup_insert_eq; eapply lookup_lt_Some; eassumption).
  rewrite (bind_Ok _ _ _ _ _ (lookup_parser_Ok g2 self q Hself2)).
  cbn [parsers q set_parsers with_attrs].
  rewrite fmap_app, fmap_cons, <- list_fmap_compose.
  change (snd ∘ prod_map id Parser) with (Parser ∘ (snd : Z * ref → ref)).
  rewrite list_fmap_compose, initialize_children_skip.
  - cbn [snd initialize_children]. reflexivity.
  - eapply Forall_impl; [exact Hbefore|]. intros r Hr.
    destruct (decide (r = self)) as [->|Hr'].
    + exists q. split; [exact Hself2|reflexivity].
    + destruct Hr as [->|(c & Hr & Hi)]; [congruence|]. exists c. split; [|exact Hi].
      unfold g2, g1. now rewrite !list_lookup_insert_ne by congruence.
Qed.

Lemma MatchParser_initialize_repository_missing_include_witness :
  initialize_repository Examples.no_scopes Examples.no_language_init 1 1%nat
    Examples.missing_capture_graph
  = Raise AttributeError.
Proof.
  refine (MatchParser_initialize_repository_missing_include Examples.no_scopes
            Examples.no_language_init 0 Examples.missing_capture_graph 1%nat 0%nat _ _
            "missing" 2 [(1, 2%nat)] [] eq_refl eq_refl eq_refl _ eq_refl eq_refl
            eq_refl _ _).
  - discriminate.
  - intros H. apply list_elem_of_singleton in H. discriminate H.
  - constructor; [|constructor]. right. eexists. split; reflexivity.
Defined.

(** ** Repository initialization: begin/while rules *)

(** X9: [initialize_repository] never completes on a BeginWhileParser; when
    the parser has no patterns the error is the AttributeError of the
    attribute [parsers_end], which the class does not define. *)
Theorem BeginWhileParser_initialize_repository_fails scopes language_init (fuel : nat)
    (g : graph) (self : ref) (p : GrammarParser) :
  g !! self = Some p →
  class p = BeginWhileParser →
  (∀ g', initialize_repository scopes language_init fuel self g ≠ Ok ((), g'))
  ∧ (patterns p = [] →
     initialize_repository scopes language_init (S fuel) self g = Raise AttributeError).
Proof.
  intros Hp Hc. split.
  - intros g'. exact (initialize_repository_BeginWhileParser scopes language_init fuel g g'
                        self p Hp Hc).
  - intros Hps. cbn [initialize_repository].
    rewrite (bind_Ok _ _ _ _ _ (lookup_parser_Ok g self p Hp)), Hc.
    unfold BeginWhileParser_initialize_repository.
    rewrite (bind_Ok _ _ _ _ _ (update_parser_Ok g self p set_initialized Hp)).
    set (g1 := <[self := set_initialized p]> g).
    assert (Hself : g1 !! self = Some (set_initialized p))
      by (apply list_lookup_insert_eq; eapply lookup_lt_Some; eassumption).
    rewrite (bind_Ok _ _ _ _ _
               (PatternsParser_initialize_repository_settled scopes _ g1 self
                  (set_initialized p) Hself eq_refl ltac:(simpl; rewrite Hps; constructor)
                  ltac:(simpl; now rewrite Hps))).
    reflexivity.
Qed.

Lemma BeginWhileParser_initialize_repository_fails_witness :
  (∀ g', initialize_repository Examples.no_scopes Examples.no_language_init 2 1%nat
           Examples.while_graph ≠ Ok ((), g'))
  ∧ initialize_repository Examples.no_scopes Examples.no_language_init 2 1%nat
      Examples.while_graph = Raise AttributeError.
Proof.
  pose proof (BeginWhileParser_initialize_repository_fails Examples.no_scopes
                Examples.no_language_init 2 Examples.while_graph 1%nat _ eq_refl eq_refl)
    as [H1 _].
  pose proof (BeginWhileParser_initialize_repository_fails Examples.no_scopes
                Examples.no_language_init 1 Examples.while_graph 1%nat _ eq_refl eq_refl)
    as [_ H2].
  split; [exact H1|exact (H2 eq_refl)].
Defined.

(** ** Repository initialization: what a successful call leaves *)

Lemma acyclic_graph_fresh (r : ref) (q : GrammarParser) :
  Examples.acyclic_graph !! r = Some q → initialized q = true →
  settled Examples.acyclic_graph q.
Proof.
  intros Hq Hi.
  destruct r as [|[|[|[|[|r]]]]]; try discriminate Hq; injection Hq as <-;
    try discriminate Hi.
  split_and!; [reflexivity|constructor|intros [?|?]; discriminate].
Qed.

(** X3: on a parser graph without include cycles in which the parsers that
    are initialized already are settled, a call of [initialize_repository]
    that returns leaves the graph without cycles and every initialized
    parser settled, the parser of the call among them: each of its patterns
    and captures is an initialized parser object (no include string and no
    [None] is left), and no plain PatternsParser is among its patterns. *)
Theorem initialize_repository_settles scopes language_init (rank : ref → nat)
    (fuel : nat) (g g1 : graph) (self : ref) (p : GrammarParser) :
  acyclic rank g →
  (∀ r q, g !! r = Some q → initialized q = true → settled g q) →
  g !! self = Some p →
  initialized p = false →
  initialize_repository scopes language_init fuel self g = Ok ((), g1) →
  acyclic rank g1
  ∧ (∀ r q, g1 !! r = Some q → initialized q = true → settled g1 q)
  ∧ ∃ p1, g1 !! self = Some p1 ∧ settled g1 p1.
Proof.
  intros Hac Hset Hp Hi H.
  assert (Hpost : ∀ k, (rank self < k)%nat → init_post rank self k g g1).
  { intros k Hk. apply (initialize_repository_spec scopes language_init rank fuel self g g1
                          k p); auto.
    intros r q Hq _ Hqi. eauto. }
  destruct (Hpost (S (rank self)) (Nat.lt_succ_diag_r _)) as (Hac1 & _ & _ & _ & Hself).
  split_and!; [exact Hac1| |exact Hself].
  intros r q Hq Hqi.
  destruct (Hpost (S (Nat.max (rank r) (rank self))) ltac:(lia)) as (_ & Hbelow & _).
  apply (Hbelow r q Hq); [lia|exact Hqi].
Qed.

Lemma initialize_repository_settles_witness :
  ∃ p1, Examples.acyclic_initialized !! 1%nat = Some p1
        ∧ settled Examples.acyclic_initialized p1.
Proof.
  refine (proj2 (proj2 (initialize_repository_settles Examples.no_scopes
                          Examples.no_language_init Examples.acyclic_rank 3
                          Examples.acyclic_graph Examples.acyclic_initialized 1%nat _
                          acyclic_graph_acyclic acyclic_graph_fresh eq_refl eq_refl _))).
  vm_compute. reflexivity.
Defined.

(** X4: a call of [initialize_repository] on a graph without include cycles
    touches the parser of the call and parsers of lower rank only: every
    other parser of the same or a higher rank is after the call what it was
    before. *)
Theorem initialize_repository_frame scopes language_init (rank : ref → nat)
    (fuel : nat) (g g1 : graph) (self : ref) (p : GrammarParser) :
  acyclic rank g →
  (∀ r q, g !! r = Some q → initialized q = true → settled g q) →
  g !! self = Some p →
  initialized p = false →
  initialize_repository scopes language_init fuel self g = Ok ((), g1) →
  ∀ r, (rank self ≤ rank r)%nat → r ≠ self → g1 !! r = g !! r.
Proof.
  intros Hac Hset Hp Hi H.
  destruct (initialize_repository_spec scopes language_init rank fuel self g g1
              (S (rank self)) p) as (_ & _ & _ & Hframe & _); auto.
  intros r q Hq _ Hqi. eauto.
Qed.

Lemma initialize_repository_frame_witness :
  ∃ g1, initialize_repository Examples.no_scopes Examples.no_language_init 2 2%nat
          Examples.acyclic_graph = Ok ((), g1)
        ∧ g1 !! 1%nat = Examples.acyclic_graph !! 1%nat.
Proof.
  assert (E : ∃ g1, initialize_repository Examples.no_scopes Examples.no_language_init 2
                      2%nat Examples.acyclic_graph = Ok ((), g1))
    by (eexists; vm_compute; reflexivity).
  destruct E as (g1 & E). exists g1. split; [exact E|].
  refine (initialize_repository_frame Examples.no_scopes Examples.no_language_init
            Examples.acyclic_rank 2 Examples.acyclic_graph g1 2%nat _
            acyclic_graph_acyclic acyclic_graph_fresh eq_refl eq_refl E 1%nat _ _).
  - simpl. lia.
  - discriminate.
Defined.

(** ** PatternsParser: the search *)

Section Search.
Context (h : ContentHandler) (store : list GrammarParser).
Variable child : ref → POS → option POS → Z → kwargs → St pstate parse_result.

Lemma try_patterns_all_fail pre rest current boundary verbosity kw s s1 :
  all_fail child current boundary verbosity kw pre s s1 →
  try_patterns child (pre ++ rest) current boundary verbosity kw s
  = try_patterns child rest current boundary verbosity kw s1.
Proof.
  induction 1 as [|r rs s s1 s' captures sp Hr _ IH]; [reflexivity|].
  cbn [app try_patterns]. rewrite (bind_Ok _ _ _ _ _ Hr). exact IH.
Qed.

Lemma try_patterns_first pre c post current boundary verbosity kw s s1 s2 captures sp :
  all_fail child current boundary verbosity kw pre s s1 →
  child c current (Some boundary) verbosity kw s1 = Ok ((true, captures, sp), s2) →
  try_patterns child (pre ++ c :: post) current boundary verbosity kw s
  = Ok (Some (c, captures, sp), s2).
Proof.
  intros Hpre Hc. rewrite (try_patterns_all_fail _ _ _ _ _ _ _ _ Hpre).
  cbn [try_patterns]. now rewrite (bind_Ok _ _ _ _ _ Hc).
Qed.

Lemma try_patterns_none rs current boundary verbosity kw s s1 :
  all_fail child current boundary verbosity kw rs s s1 →
  try_patterns child rs current boundary verbosity kw s = Ok (None, s1).
Proof.
  intros Hrs. rewrite <- (app_nil_r rs). now rewrite (try_patterns_all_fail _ _ _ _ _ _ _ _ Hrs).
Qed.

Lemma try_patterns_raise pre c post current boundary verbosity kw s s1 e :
  all_fail child current boundary verbosity kw pre s s1 →
  child c current (Some boundary) verbosity kw s1 = Raise e →
  try_patterns child (pre ++ c :: post) current boundary verbosity kw s = Raise e.
Proof.
  intros Hpre Hc. rewrite (try_patterns_all_fail _ _ _ _ _ _ _ _ Hpre).
  cbn [try_patterns]. unfold mbind, St_bind. now rewrite Hc.
Qed.

(** [PatternsParser._parse] up to its loop, when every pattern is a parser
    of the store and the boundary is given. *)
Lemma PatternsParser_parse_loop fuel self p rs starting boundary verbosity kw s :
  patterns p = Parser <$> rs →
  Forall (λ r, is_Some (store !! r)) rs →
  PatternsParser_parse h store child fuel self p starting (Some boundary) verbosity kw s
  = PatternsParser_loop child fuel self (candidates store p rs kw) starting boundary
      (default false (kw_allow_leading_all kw)) (default true (kw_find_one kw))
      verbosity [] starting s.
Proof.
  intros Hps Hrs. unfold PatternsParser_parse, boundary_or_end, search_set.
  rewrite Hps. unfold mbind, St_bind, mret, St_ret.
  rewrite (enabled_patterns_resolved store rs s Hrs). unfold candidates. now destruct starting.
Qed.
End Search.

(** X10: a PatternsParser that still holds an include string or [None] among
    its patterns, having not been initialized or its include having
    resolved to nothing, cannot parse: [_parse] fails with AttributeError
    at [parser.disabled], before any pattern is tried. *)
Theorem PatternsParser_parse_unresolved (h : ContentHandler) (store : list GrammarParser)
    lang (fuel : nat) (self : ref) (p : GrammarParser) (before : list ref) (sl : slot)
    (after : list slot) (starting boundary : POS) (verbosity : Z) (kw : kwargs)
    (s : pstate) :
  store !! self = Some p →
  class p = PatternsParser →
  patterns p = (Parser <$> before) ++ sl :: after →
  Forall (λ r, is_Some (store !! r)) before →
  (∀ r, sl ≠ Parser r) →
  _parse h store lang (S fuel) self starting (Some boundary) verbosity kw s
  = Raise AttributeError.
Proof.
  intros Hp Hc Hps Hbefore Hsl. cbn [_parse]. rewrite Hp, Hc.
  unfold PatternsParser_parse, boundary_or_end, search_set.
  unfold mbind at 1, St_bind, mret at 1, St_ret. unfold mbind at 1, St_bind.
  assert (He : enabled_patterns (S := pstate) store (patterns p) s = Raise AttributeError).
  { rewrite Hps. clear Hps. induction Hbefore as [|r rs [q Hq] _ IH].
    - cbn [fmap list_fmap app enabled_patterns]. unfold mbind, St_bind.
      destruct sl as [r| |]; [now destruct (Hsl r)|reflexivity..].
    - rewrite fmap_cons. cbn [app enabled_patterns]. unfold mbind at 1, St_bind.
      unfold attr at 1. rewrite Hq. unfold mret at 1, St_ret. unfold mbind, St_bind.
      now rewrite IH. }
  unfold mbind, St_bind. now rewrite He.
Qed.

Lemma PatternsParser_parse_unresolved_witness :
  _parse Examples.ab Examples.orphan_graph Examples.no_language_parse 1 0%nat (0, 0)
    (Some (0, 2)) 0 no_kwargs Examples.start
  = Raise AttributeError.
Proof.
  refine (PatternsParser_parse_unresolved Examples.ab Examples.orphan_graph
            Examples.no_language_parse 0 0%nat _ [1%nat] (Include "#rule") []
            (0, 0) (0, 2) 0 no_kwargs Examples.start eq_refl eq_refl eq_refl _ _).
  - repeat constructor. eexists. reflexivity.
  - discriminate.
Defined.

(** X11: when [starting] is not before [boundary] there is nothing to search:
    [PatternsParser._parse] tries no pattern, logs nothing, and returns
    [(False, [], (starting, starting))]. *)
Theorem PatternsParser_parse_empty_range (h : ContentHandler) (store : list GrammarParser)
    lang (fuel : nat) (self : ref) (p : GrammarParser) (rs : list ref)
    (starting boundary : POS) (verbosity : Z) (kw : kwargs) (s : pstate) :
  store !! self = Some p →
  class p = PatternsParser →
  patterns p = Parser <$> rs →
  Forall (λ r, is_Some (store !! r)) rs →
  pos_ltb starting boundary = false →
  _parse h store lang (S fuel) self starting (Some boundary) verbosity kw s
  = Ok ((false, [], Some (starting, starting)), s).
Proof.
  intros Hp Hc Hps Hrs Hlt. cbn [_parse]. rewrite Hp, Hc.
  rewrite (PatternsParser_parse_loop h store _ fuel self p rs _ _ _ _ _ Hps Hrs).
  destruct fuel; simpl; now rewrite Hlt.
Qed.

Lemma PatternsParser_parse_empty_range_witness :
  _parse Examples.ab Examples.letters_store Examples.no_language_parse 1 0%nat (0, 2)
    (Some (0, 2)) 0 no_kwargs Examples.start
  = Ok ((false, [], Some ((0, 2), (0, 2))), Examples.start).
Proof.
  refine (PatternsParser_parse_empty_range Examples.ab Examples.letters_store
            Examples.no_language_parse 0 0%nat _ [1%nat; 2%nat] (0, 2) (0, 2) 0
            no_kwargs Examples.start eq_refl eq_refl eq_refl _ eq_refl).
  repeat constructor; eexists; reflexivity.
Defined.

(** X12: with [find_one] (the default) [PatternsParser._parse] returns what
    the first candidate that parses returns, captures and span unchanged:
    the candidates are tried in order at [starting], those before it having
    failed, and the only trace the parser adds is the record "found single
    element". *)
Theorem PatternsParser_parse_first_match (h : ContentHandler)
    (store : list GrammarParser) child (fuel : nat) (self : ref) (p : GrammarParser)
    (rs pre : list ref) (c : ref) (post : list ref) (starting boundary : POS)
    (verbosity : Z) (kw : kwargs) (s s1 s2 : pstate) (captures : list element)
    (sp : option span) :
  patterns p = Parser <$> rs →
  Forall (λ r, is_Some (store !! r)) rs →
  default true (kw_find_one kw) = true →
  candidates store p rs kw = pre ++ c :: post →
  pos_ltb starting boundary = true →
  all_fail child starting boundary (verbosity + 1)
    (kw_child (default false (kw_allow_leading_all kw))) pre s s1 →
  child c starting (Some boundary) (verbosity + 1)
    (kw_child (default false (kw_allow_leading_all kw))) s1
  = Ok ((true, captures, sp), s2) →
  PatternsParser_parse h store child (S fuel) self p starting (Some boundary)
    verbosity kw s
  = Ok ((true, captures, sp), logged s2 INFO FoundSingleElement self starting verbosity).
Proof.
  intros Hps Hrs Hone Hcand Hlt Hpre Hc.
  rewrite (PatternsParser_parse_loop h store _ _ self p rs _ _ _ _ _ Hps Hrs).
  rewrite Hone, Hcand. cbn [PatternsParser_loop]. rewrite Hlt.
  unfold PatternsParser_round.
  rewrite (bind_Ok _ _ _ _ _
             (bind_Ok _ _ _ _ _ (try_patterns_first child _ _ post _ _ _ _ _ _ _ _ _ Hpre Hc))).
  reflexivity.
Qed.

Lemma PatternsParser_parse_first_match_witness :
  ∃ captures sp s2,
    PatternsParser_parse Examples.b Examples.injected_store
      (_parse Examples.b Examples.injected_store Examples.no_language_parse 1) 1 0%nat
      (with_injected (PatternsParser_init None "" "" "" false [Parser 1%nat]) [2%nat])
      (0, 0) (Some (0, 1)) 0 no_kwargs Examples.start
    = Ok ((true, captures, sp), logged s2 INFO FoundSingleElement 0%nat (0, 0) 0).
Proof.
  eexists _, _, _.
  eapply (PatternsParser_parse_first_match Examples.b Examples.injected_store _ 0 0%nat
            _ [1%nat] [1%nat] 2%nat [] (0, 0) (0, 1) 0 no_kwargs Examples.start).
  - reflexivity.
  - repeat constructor; eexists; reflexivity.
  - reflexivity.
  - reflexivity.
  - reflexivity.
  - econstructor; [vm_compute; reflexivity|constructor].
  - vm_compute. reflexivity.
Defined.

(** X13: with [find_one], when no candidate parses at [starting],
    [PatternsParser._parse] gives up at once: it does not try the
    candidates again with leading characters allowed, it moves to no later
    position, it logs nothing of its own, and returns
    [(False, [], (starting, starting))]. *)
Theorem PatternsParser_parse_no_match (h : ContentHandler)
    (store : list GrammarParser) child (fuel : nat) (self : ref) (p : GrammarParser)
    (rs : list ref) (starting boundary : POS) (verbosity : Z) (kw : kwargs)
    (s s1 : pstate) :
  patterns p = Parser <$> rs →
  Forall (λ r, is_Some (store !! r)) rs →
  default true (kw_find_one kw) = true →
  pos_ltb starting boundary = true →
  all_fail child starting boundary (verbosity + 1)
    (kw_child (default false (kw_allow_leading_all kw))) (candidates store p rs kw)
    s s1 →
  PatternsParser_parse h store child (S fuel) self p starting (Some boundary)
    verbosity kw s
  = Ok ((false, [], Some (starting, starting)), s1).
Proof.
  intros Hps Hrs Hone Hlt Hall.
  rewrite (PatternsParser_parse_loop h store _ _ self p rs _ _ _ _ _ Hps Hrs).
  rewrite Hone. cbn [PatternsParser_loop]. rewrite Hlt. unfold PatternsParser_round.
  rewrite (bind_Ok _ _ _ _ _
             (bind_Ok _ _ _ _ _ (try_patterns_none child _ _ _ _ _ _ _ Hall))).
  reflexivity.
Qed.

Lemma PatternsParser_parse_no_match_witness :
  ∃ s1,
    PatternsParser_parse Examples.c Examples.letters_store
      (_parse Examples.c Examples.letters_store Examples.no_language_parse 1) 1 0%nat
      (PatternsParser_init None "" "" "" false [Parser 1%nat; Parser 2%nat])
      (0, 0) (Some (0, 1)) 0 no_kwargs Examples.start
    = Ok ((false, [], Some ((0, 0), (0, 0))), s1).
Proof.
  eexists.
  eapply (PatternsParser_parse_no_match Examples.c Examples.letters_store _ 0 0%nat
            _ [1%nat; 2%nat] (0, 0) (0, 1) 0 no_kwargs Examples.start).
  - reflexivity.
  - repeat constructor; eexists; reflexivity.
  - reflexivity.
  - reflexivity.
  - econstructor; [vm_compute; reflexivity|].
    econstructor; [vm_compute; reflexivity|constructor].
Defined.

Lemma _parse_S (h : ContentHandler) (store : list GrammarParser) lang (fuel : nat)
    (self : ref) (starting : POS) (boundary : option POS) (verbosity : Z) (kw : kwargs) :
  _parse h store lang (S fuel) self starting boundary verbosity kw
  = match store !! self with
    | None => raise DanglingReference
    | Some p =>
        match class p with
        | TokenParser => TokenParser_parse h self p starting boundary verbosity
        | MatchParser => MatchParser_parse h self p starting boundary verbosity kw
        | PatternsParser =>
            PatternsParser_parse h store (_parse h store lang fuel) fuel self p starting
              boundary verbosity kw
        | BeginEndParser =>
            BeginEndParser_parse h store (_parse h store lang fuel) fuel self p starting
              boundary verbosity kw
        | BeginWhileParser => raise NotImplementedError
        | LanguageParser => lang self starting boundary verbosity kw
        end
    end.
Proof. reflexivity. Qed.

(** X17: a begin/while rule cannot be parsed: its [_parse] raises
    NotImplementedError, nothing catches it, and a PatternsParser whose
    search reaches such a rule, the candidates before it having failed,
    aborts with that error. *)
Theorem PatternsParser_parse_BeginWhileParser (h : ContentHandler)
    (store : list GrammarParser) lang (fuel : nat) (self : ref) (p pc : GrammarParser)
    (rs pre : list ref) (c : ref) (post : list ref) (starting boundary : POS)
    (verbosity : Z) (kw : kwargs) (s s1 : pstate) :
  store !! self = Some p →
  class p = PatternsParser →
  patterns p = Parser <$> rs →
  Forall (λ r, is_Some (store !! r)) rs →
  candidates store p rs kw = pre ++ c :: post →
  store !! c = Some pc →
  class pc = BeginWhileParser →
  pos_ltb starting boundary = true →
  all_fail (_parse h store lang (S fuel)) starting boundary (verbosity + 1)
    (kw_child (default false (kw_allow_leading_all kw))) pre s s1 →
  _parse h store lang (S (S fuel)) self starting (Some boundary) verbosity kw s
  = Raise NotImplementedError.
Proof.
  intros Hp Hc Hps Hrs Hcand Hpc Hcl Hlt Hpre.
  rewrite _parse_S.
  rewrite Hp, Hc.
  rewrite (PatternsParser_parse_loop h store _ _ self p rs _ _ _ _ _ Hps Hrs).
  rewrite Hcand. cbn [PatternsParser_loop]. rewrite Hlt. unfold PatternsParser_round.
  unfold mbind at 1, St_bind. unfold mbind at 1, St_bind.
  rewrite (try_patterns_raise _ pre c post _ _ _ _ _ s1 NotImplementedError Hpre);
    [reflexivity|].
  rewrite _parse_S. now rewrite Hpc, Hcl.
Qed.

Lemma PatternsParser_parse_BeginWhileParser_witness :
  _parse Examples.ab Examples.while_store Examples.no_language_parse 2 0%nat (0, 0)
    (Some (0, 2)) 0 no_kwargs Examples.start
  = Raise NotImplementedError.
Proof.
  refine (PatternsParser_parse_BeginWhileParser Examples.ab Examples.while_store
            Examples.no_language_parse 0 0%nat _ _ [1%nat; 2%nat] [1%nat] 2%nat []
            (0, 0) (0, 2) 0 no_kwargs Examples.start _ eq_refl eq_refl eq_refl _ eq_refl
            eq_refl eq_refl eq_refl _).
  - repeat constructor; eexists; reflexivity.
  - econstructor; [vm_compute; reflexivity|constructor].
Defined.

(** ** PatternsParser: the loop *)

Section Loop.
Context (h : ContentHandler) (store : list GrammarParser).
Variable child : ref → POS → option POS → Z → kwargs → St pstate parse_result.

Lemma all_fail_fails_at rs current boundary verbosity kw :
  Forall (fails_at child current boundary verbosity kw) rs →
  ∀ s, ∃ s', all_fail child current boundary verbosity kw rs s s'.
Proof.
  induction 1 as [|r rs Hr _ IH]; intros s.
  - exists s. constructor.
  - destruct (Hr s) as (captures & sp & s1 & H1). destruct (IH s1) as (s' & H').
    exists s'. econstructor; eauto.
Qed.

Lemma PatternsParser_round_stalls self pre c post starting boundary allow verbosity
    current elements s :
  current ≠ starting →
  Forall (fails_at child current boundary (verbosity + 1) (kw_child allow)) pre →
  stalls_at child current boundary (verbosity + 1) (kw_child allow) c →
  ∃ captures s',
    PatternsParser_round child self (pre ++ c :: post) starting boundary allow false
      verbosity elements current s
    = Ok (RoundNext (elements ++ captures) current, s').
Proof.
  intros Hne Hpre Hc.
  destruct (all_fail_fails_at _ _ _ _ _ Hpre s) as (s1 & H1).
  destruct (Hc s1) as (captures & start & s2 & H2).
  exists captures, s2. unfold PatternsParser_round.
  rewrite (bind_Ok _ _ _ _ _ (try_patterns_first child _ _ post _ _ _ _ _ _ _ _ _ H1 H2)).
  unfold consume, span_end. unfold mbind, St_bind, mret, St_ret. cbn [snd].
  apply pos_eqb_neq in Hne. now rewrite Hne.
Qed.
End Loop.

(** X16: the search loop of [PatternsParser._parse] has one test for a round
    that did not move, [current == starting]; at any later position a
    pattern that parses a span ending where it began, the candidates before
    it failing, is parsed again in every round, and the loop, with
    [find_one] false, does not end. *)
Theorem PatternsParser_loop_stalls
    (child : ref → POS → option POS → Z → kwargs → St pstate parse_result) (self : ref)
    (pre : list ref) (c : ref) (post : list ref) (starting boundary : POS) (allow : bool)
    (verbosity : Z) (current : POS) :
  pos_ltb current boundary = true →
  current ≠ starting →
  Forall (fails_at child current boundary (verbosity + 1) (kw_child allow)) pre →
  stalls_at child current boundary (verbosity + 1) (kw_child allow) c →
  ∀ fuel elements s,
    PatternsParser_loop child fuel self (pre ++ c :: post) starting boundary allow false
      verbosity elements current s
    = OutOfFuel.
Proof.
  intros Hlt Hne Hpre Hc fuel. induction fuel as [|fuel IH]; intros elements s.
  - simpl. now rewrite Hlt.
  - rewrite PatternsParser_loop_S by exact Hlt.
    destruct (PatternsParser_round_stalls child self pre c post starting boundary allow
                verbosity current elements s Hne Hpre Hc) as (captures & s' & H).
    rewrite (bind_Ok _ _ _ _ _ H). apply IH.
Qed.

Lemma PatternsParser_loop_stalls_witness :
  PatternsParser_loop
    (_parse Examples.ab Examples.letters_store Examples.no_language_parse 1) 1000
    0%nat [1%nat; 2%nat] (0, 0) (0, 2) false false 0 [] (0, 1) Examples.start
  = OutOfFuel.
Proof.
  refine (PatternsParser_loop_stalls
            (_parse Examples.ab Examples.letters_store Examples.no_language_parse 1)
            0%nat [1%nat] 2%nat [] (0, 0) (0, 2) false 0 (0, 1) eq_refl _ _ _
            1000%nat [] Examples.start).
  - discriminate.
  - constructor; [|constructor]. intros [a l]. eexists _, _, _. vm_compute. reflexivity.
  - intros [a l]. eexists _, _, _. vm_compute. reflexivity.
Defined.

(** ** BeginEndParser: a loop without a test for progress *)

Section Block.
Context (h : ContentHandler) (store : list GrammarParser).
Variable child : ref → POS → option POS → Z → kwargs → St pstate parse_result.

Lemma not_anchored_app (l1 l2 : list ref) :
  not_anchored store (l1 ++ l2) = not_anchored store l1 ++ not_anchored store l2.
Proof. unfold not_anchored. apply List.filter_app. Qed.

Lemma not_anchored_sub (P : ref → Prop) (l : list ref) :
  Forall P l → Forall P (not_anchored store l).
Proof.
  induction 1 as [|r rs Hr _ IH]; [constructor|]. unfold not_anchored in *. simpl.
  destruct (negb (is_anchored store r)); [constructor|]; auto.
Qed.

Lemma BeginEndParser_iteration_stalls self p boundary verbosity kw st s pre c post :
  c ≠ self →
  Forall (fails_at child (loop_current st) boundary (verbosity + 1) (kw_allow kw false))
    pre →
  stalls_at child (loop_current st) boundary (verbosity + 1) (kw_allow kw false) c →
  (∀ a, ∃ a', search h a (exp_end p) (loop_current st) (Some boundary) (kw_child false)
              = (None, a')) →
  read_length h (loop_current st) 1 false ≠ newline →
  loop_patterns st = pre ++ c :: post →
  ∃ mid s',
    BeginEndParser_iteration h store child self p boundary verbosity kw st s
    = Ok (Continue {| loop_current := loop_current st;
                      loop_patterns := if loop_first_run st
                                       then not_anchored store (loop_patterns st)
                                       else loop_patterns st;
                      loop_first_run := false;
                      loop_mid_elements := mid;
                      loop_end_elements := [] |}, s').
Proof.
  intros Hne Hpre Hc Hend Hnl Hps.
  destruct (all_fail_fails_at child _ _ _ _ _ Hpre s) as (s1 & H1).
  destruct (Hc s1) as (captures & start & s2 & H2).
  set (s3 := logged s2 DEBUG FoundPatternNoWs self (loop_current st) verbosity).
  destruct (Hend (anchor s3)) as (a' & Ha).
  assert (Hsearch : search_patterns child self (loop_patterns st) (loop_current st)
                      boundary false verbosity kw s
                    = Ok ((Some (captures, (start, loop_current st)), false), s3)).
  { unfold search_patterns. rewrite Hps.
    rewrite (bind_Ok _ _ _ _ _ (try_patterns_first child _ _ post _ _ _ _ _ _ _ _ _ H1 H2)).
    unfold mbind, St_bind, mret, St_ret, LOGGER. simpl.
    rewrite bool_decide_eq_false_2 by exact Hne. reflexivity. }
  assert (Hfind : find_capture_and_end h child self p (loop_patterns st) (loop_current st)
                    boundary verbosity kw s
                  = Ok ({| found_capture := Some (captures, (start, loop_current st));
                           found_recursed := false; found_end_span := None;
                           found_end_elements := [] |},
                        {| anchor := a'; log := log s3 |})).
  { unfold find_capture_and_end. rewrite (bind_Ok _ _ _ _ _ Hsearch).
    unfold match_and_capture, handler_search. unfold mbind, St_bind, mret, St_ret.
    rewrite Ha. reflexivity. }
  eexists _, _. unfold BeginEndParser_iteration. rewrite (bind_Ok _ _ _ _ _ Hfind).
  unfold arbitrate. cbn [found_end_span found_capture snd].
  destruct (String.eqb_spec (read_length h (loop_current st) 1 false) newline) as [E|_];
    [contradiction|].
  unfold mbind, St_bind, mret, St_ret, LOGGER. reflexivity.
Qed.
End Block.

(** X23: the loop of [BeginEndParser._parse] has no test for a round that did
    not move.  Where the end pattern does not match, the next character is
    no newline, and a pattern other than the parser itself parses a span
    that ends where it began (the candidates before it failing),
    [current] stays where it is and the loop does not end. *)
Theorem BeginEndParser_loop_stalls (h : ContentHandler) (store : list GrammarParser)
    (child : ref → POS → option POS → Z → kwargs → St pstate parse_result)
    (self : ref) (p : GrammarParser) (boundary : POS) (verbosity : Z) (kw : kwargs)
    (current : POS) (pre : list ref) (c : ref) (post : list ref) :
  pos_leb current boundary = true →
  c ≠ self →
  is_anchored store c = false →
  Forall (fails_at child current boundary (verbosity + 1) (kw_allow kw false)) pre →
  stalls_at child current boundary (verbosity + 1) (kw_allow kw false) c →
  (∀ a, ∃ a', search h a (exp_end p) current (Some boundary) (kw_child false)
              = (None, a')) →
  read_length h current 1 false ≠ newline →
  ∀ fuel st s,
    loop_current st = current →
    loop_patterns st = pre ++ c :: post →
    BeginEndParser_loop h store child fuel self p boundary verbosity kw st s = OutOfFuel.
Proof.
  intros Hle Hne Hanch Hpre Hc Hend Hnl fuel. revert pre post Hpre.
  induction fuel as [|fuel IH]; intros pre post Hpre st s Hcur Hps.
  - simpl. now rewrite Hcur, Hle.
  - cbn [BeginEndParser_loop]. rewrite Hcur, Hle. rewrite <- Hcur in Hpre, Hc, Hend, Hnl.
    destruct (BeginEndParser_iteration_stalls h store child self p boundary verbosity kw st
                s pre c post Hne Hpre Hc Hend Hnl Hps) as (mid & s' & H).
    rewrite (bind_Ok _ _ _ _ _ H). rewrite Hcur in Hpre.
    destruct (loop_first_run st).
    + apply (IH (not_anchored store pre) (not_anchored store post)).
      * now apply not_anchored_sub.
      * exact Hcur.
      * cbn [loop_patterns]. rewrite Hps, not_anchored_app. f_equal.
        unfold not_anchored. simpl. now rewrite Hanch.
    + apply (IH pre post); auto.
Qed.

Lemma BeginEndParser_loop_stalls_witness :
  BeginEndParser_loop Examples.ab Examples.stall_store
    (_parse Examples.ab Examples.stall_store Examples.no_language_parse 1) 1000 0%nat
    Examples.stall_block (0, 2) 0 no_kwargs (first_state ((0, 0), (0, 1)) [1%nat])
    Examples.start
  = OutOfFuel.
Proof.
  refine (BeginEndParser_loop_stalls Examples.ab Examples.stall_store
            (_parse Examples.ab Examples.stall_store Examples.no_language_parse 1) 0%nat
            Examples.stall_block (0, 2) 0 no_kwargs (0, 1) [] 1%nat [] eq_refl _ eq_refl _ _ _ _
            1000%nat (first_state ((0, 0), (0, 1)) [1%nat]) Examples.start eq_refl
            eq_refl).
  - discriminate.
  - constructor.
  - intros [a l]. eexists _, _, _. vm_compute. reflexivity.
  - intros a. eexists. vm_compute. reflexivity.
  - vm_compute. discriminate.
Defined.

(** ** PatternsParser: what is never tried *)

Section Untried.
Context (h : ContentHandler) (store : list GrammarParser).
Context (P : ref → Prop).
Variables child child' : ref → POS → option POS → Z → kwargs → St pstate parse_result.
Hypothesis Hagree : agree P child child'.

Lemma PatternsParser_round_agree self patterns starting boundary allow find_one verbosity
    elements current s :
  Forall P patterns →
  PatternsParser_round child' self patterns starting boundary allow find_one verbosity
    elements current s
  = PatternsParser_round child self patterns starting boundary allow find_one verbosity
      elements current s.
Proof.
  intros HP. unfold PatternsParser_round. unfold mbind, St_bind.
  rewrite (try_patterns_agree P child child' Hagree _ _ _ _ _ _ HP).
  destruct (try_patterns child patterns current boundary (verbosity + 1) (kw_child allow) s)
    as [[[[[? ?] ?]|] s1]| |]; try reflexivity.
  destruct find_one; [reflexivity|]. destruct allow.
  - reflexivity.
  - now rewrite (try_patterns_agree P child child' Hagree _ _ _ _ _ _ HP).
Qed.

Lemma PatternsParser_loop_agree fuel self patterns starting boundary allow find_one
    verbosity elements current s :
  Forall P patterns →
  PatternsParser_loop child' fuel self patterns starting boundary allow find_one verbosity
    elements current s
  = PatternsParser_loop child fuel self patterns starting boundary allow find_one verbosity
      elements current s.
Proof.
  intros HP. revert elements current s.
  induction fuel as [|fuel IH]; intros elements current s; [reflexivity|].
  cbn [PatternsParser_loop]. destruct (pos_ltb current boundary); [|reflexivity].
  unfold mbind, St_bind. rewrite (PatternsParser_round_agree _ _ _ _ _ _ _ _ _ _ HP).
  destruct (PatternsParser_round child self patterns starting boundary allow find_one
              verbosity elements current s) as [[[r|e c|e c] s1]| |]; try reflexivity.
  apply IH.
Qed.
End Untried.

(** X14: [PatternsParser._parse] never calls a pattern whose [disabled] flag
    is set, unless it is one of the injected patterns: its result is the
    same whatever such a parser would do.  The flag of an injected
    pattern is not looked at. *)
Theorem PatternsParser_parse_skips_disabled (h : ContentHandler)
    (store : list GrammarParser)
    (child child' : ref → POS → option POS → Z → kwargs → St pstate parse_result)
    (fuel : nat) (self : ref) (p : GrammarParser) (rs : list ref) (starting : POS)
    (boundary : option POS) (verbosity : Z) (kw : kwargs) (s : pstate) :
  patterns p = Parser <$> rs →
  Forall (λ r, is_Some (store !! r)) rs →
  agree (λ r, is_disabled store r = false ∨ r ∈ injected_patterns p) child child' →
  PatternsParser_parse h store child' fuel self p starting boundary verbosity kw s
  = PatternsParser_parse h store child fuel self p starting boundary verbosity kw s.
Proof.
  intros Hps Hrs Hagree. unfold PatternsParser_parse. unfold mbind at 1 3, St_bind.
  destruct (boundary_or_end h boundary s) as [[b s1]| |]; try reflexivity.
  unfold search_set. rewrite Hps. unfold mbind, St_bind, mret, St_ret.
  rewrite (enabled_patterns_resolved store rs s1 Hrs).
  apply (PatternsParser_loop_agree _ child child' Hagree).
  assert (Hown : Forall (λ r, is_disabled store r = false ∨ r ∈ injected_patterns p)
                   (List.filter (λ r, negb (is_disabled store r)) rs)).
  { apply List.Forall_forall. intros r Hr. apply List.filter_In in Hr as [_ Hr].
    left. now apply negb_true_iff in Hr. }
  destruct (_ || _); [|exact Hown]. apply Forall_app. split; [exact Hown|].
  apply Forall_forall. intros r Hr. now right.
Qed.

Lemma PatternsParser_parse_skips_disabled_witness :
  PatternsParser_parse Examples.ab Examples.disabled_store
    (λ r, if (r =? 1)%nat then λ _ _ _ _, raise TypeError
          else _parse Examples.ab Examples.disabled_store Examples.no_language_parse 1 r) 1
    0%nat (PatternsParser_init None "" "" "" false [Parser 1%nat; Parser 2%nat]) (0, 0)
    (Some (0, 2)) 0 no_kwargs Examples.start
  = PatternsParser_parse Examples.ab Examples.disabled_store
      (_parse Examples.ab Examples.disabled_store Examples.no_language_parse 1) 1 0%nat
      (PatternsParser_init None "" "" "" false [Parser 1%nat; Parser 2%nat]) (0, 0)
      (Some (0, 2)) 0 no_kwargs Examples.start.
Proof.
  refine (PatternsParser_parse_skips_disabled Examples.ab Examples.disabled_store _ _ 1 0%nat
            (PatternsParser_init None "" "" "" false [Parser 1%nat; Parser 2%nat])
            [1%nat; 2%nat] (0, 0) (Some (0, 2)) 0 no_kwargs Examples.start eq_refl _ _).
  - repeat constructor; eexists; reflexivity.
  - intros r [Hr|Hr] starting boundary verbosity kw s.
    + destruct (Nat.eqb_spec r 1) as [->|_]; [discriminate Hr|reflexivity].
    + inversion Hr.
Defined.

(** ** PatternsParser: what the search for all elements returns *)

Section Result.
Context (h : ContentHandler) (store : list GrammarParser).
Variable child : ref → POS → option POS → Z → kwargs → St pstate parse_result.

Lemma consume_result self starting verbosity elements captures sp s r s' :
  consume self starting verbosity elements captures sp s = Ok (r, s') →
  ∃ current, r = RoundBreak (elements ++ captures) current
             ∨ r = RoundNext (elements ++ captures) current.
Proof.
  unfold consume, span_end. destruct sp as [[a b]|]; [|discriminate].
  unfold mbind, St_bind, mret, St_ret, LOGGER. cbn [snd].
  destruct (pos_eqb b starting); intros [= <- <-]; eauto.
Qed.

Lemma PatternsParser_round_result self patterns starting boundary allow verbosity
    elements current s r s' :
  PatternsParser_round child self patterns starting boundary allow false verbosity
    elements current s = Ok (r, s') →
  ∃ more current', r = RoundBreak (elements ++ more) current'
                   ∨ r = RoundNext (elements ++ more) current'.
Proof.
  unfold PatternsParser_round. intros H.
  apply bind_Ok_inv in H as (r1 & s1 & _ & H).
  destruct r1 as [[[c captures] sp]|].
  - apply consume_result in H as (current' & H). eauto.
  - apply bind_Ok_inv in H as (r2 & s2 & _ & H).
    destruct r2 as [[[c captures] sp]|].
    + apply consume_result in H as (current' & H). eauto.
    + injection H as <- <-. exists [], current. left. now rewrite app_nil_r.
Qed.

Lemma PatternsParser_loop_result fuel self patterns starting boundary allow verbosity :
  ∀ elements current s parsed elems sp s',
    PatternsParser_loop child fuel self patterns starting boundary allow false verbosity
      elements current s = Ok ((parsed, elems, sp), s') →
    ∃ more current', elems = elements ++ more ∧ sp = Some (starting, current')
                     ∧ parsed = match elems with [] => false | _ => true end.
Proof.
  induction fuel as [|fuel IH]; intros elements current s parsed elems sp s' H.
  - simpl in H. destruct (pos_ltb current boundary); [discriminate|].
    injection H as <- <- <- <-. exists [], current. now rewrite app_nil_r.
  - cbn [PatternsParser_loop] in H. destruct (pos_ltb current boundary).
    + apply bind_Ok_inv in H as (r & s1 & Hr & H).
      apply PatternsParser_round_result in Hr as (more & current' & [-> | ->]).
      * injection H as <- <- <- <-. eauto.
      * apply IH in H as (more' & current'' & -> & -> & ->).
        exists (more ++ more'), current''. now rewrite app_assoc.
    + injection H as <- <- <- <-. exists [], current. now rewrite app_nil_r.
Qed.
End Result.

(** X15: with [find_one] false, whatever its patterns return,
    [PatternsParser._parse] returns a span that starts at [starting], and
    reports that it parsed exactly when it returns at least one element. *)
Theorem PatternsParser_parse_all_result (h : ContentHandler) (store : list GrammarParser)
    (child : ref → POS → option POS → Z → kwargs → St pstate parse_result) (fuel : nat)
    (self : ref) (p : GrammarParser) (starting : POS) (boundary : option POS)
    (verbosity : Z) (kw : kwargs) (s s' : pstate) (parsed : bool)
    (elements : list element) (sp : option span) :
  kw_find_one kw = Some false →
  PatternsParser_parse h store child fuel self p starting boundary verbosity kw s
  = Ok ((parsed, elements, sp), s') →
  (∃ current, sp = Some (starting, current))
  ∧ parsed = match elements with [] => false | _ => true end.
Proof.
  intros Hone H. unfold PatternsParser_parse in H. rewrite Hone in H.
  apply bind_Ok_inv in H as (b & s1 & _ & H).
  apply bind_Ok_inv in H as (ps & s2 & _ & H).
  apply PatternsParser_loop_result in H as (more & current & _ & -> & ->). eauto.
Qed.

Lemma PatternsParser_parse_all_result_witness :
  ∃ elements s',
    PatternsParser_parse Examples.a_line Examples.letters_store
      (_parse Examples.a_line Examples.letters_store Examples.no_language_parse 1) 3
      0%nat (PatternsParser_init None "" "" "" false [Parser 1%nat; Parser 2%nat])
      (0, 0) None 0 Examples.find_all Examples.start
    = Ok ((true, elements, Some ((0, 0), (0, 1))), s')
    ∧ (∃ current, Some ((0, 0), (0, 1)) = Some ((0, 0), current))
    ∧ true = match elements with [] => false | _ => true end.
Proof.
  assert (E : ∃ elements s',
             PatternsParser_parse Examples.a_line Examples.letters_store
               (_parse Examples.a_line Examples.letters_store Examples.no_language_parse 1)
               3 0%nat
               (PatternsParser_init None "" "" "" false [Parser 1%nat; Parser 2%nat])
               (0, 0) None 0 Examples.find_all Examples.start
             = Ok ((true, elements, Some ((0, 0), (0, 1))), s')).
  { eexists _, _. vm_compute. reflexivity. }
  destruct E as (elements & s' & E). exists elements, s'. split; [exact E|].
  exact (PatternsParser_parse_all_result Examples.a_line Examples.letters_store _ 3 0%nat
           _ (0, 0) None 0 Examples.find_all Examples.start s' true elements _ eq_refl E).
Defined.

(** ** BeginEndParser: the other outcomes of a round *)

(** X18: when the begin pattern does not match, [BeginEndParser._parse]
    returns [(False, [], None)] with one debug record; it reads neither its
    patterns nor the boundary, and the anchor is as the search left it. *)
Theorem BeginEndParser_parse_no_begin (h : ContentHandler) (store : list GrammarParser)
    lang (fuel : nat) (self : ref) (p : GrammarParser) (starting : POS)
    (boundary : option POS) (verbosity : Z) (kw : kwargs) (s : pstate)
    (a : anchor_value) :
  store !! self = Some p →
  class p = BeginEndParser →
  search h (anchor s) (exp_begin p) starting boundary
    (kw_child (default false (kw_allow_leading_all kw))) = (None, a) →
  _parse h store lang (S fuel) self starting boundary verbosity kw s
  = Ok ((false, [], None),
        logged {| anchor := a; log := log s |} DEBUG NoBeginMatch self starting verbosity).
Proof.
  intros Hp Hc Hs. rewrite _parse_S, Hp, Hc.
  unfold BeginEndParser_parse, match_and_capture, handler_search.
  unfold mbind, St_bind, mret, St_ret. now rewrite Hs.
Qed.

Lemma BeginEndParser_parse_no_begin_witness :
  _parse Examples.c Examples.unclosed_store Examples.no_language_parse 1 0%nat (0, 0)
    None 0 no_kwargs Examples.start
  = Ok ((false, [], None),
        logged {| anchor := AnchorInt 0; log := [] |} DEBUG NoBeginMatch 0%nat (0, 0) 0).
Proof.
  exact (BeginEndParser_parse_no_begin Examples.c Examples.unclosed_store
           Examples.no_language_parse 0 0%nat _ (0, 0) None 0 no_kwargs Examples.start
           (AnchorInt 0) eq_refl eq_refl eq_refl).
Defined.

Section Rounds.
Context (h : ContentHandler) (store : list GrammarParser).
Variable child : ref → POS → option POS → Z → kwargs → St pstate parse_result.

Lemma search_patterns_none self ps current boundary allow verbosity kw s s1 :
  all_fail child current boundary (verbosity + 1) (kw_allow kw allow) ps s s1 →
  search_patterns child self ps current boundary allow verbosity kw s
  = Ok ((None, false), s1).
Proof.
  intros H. unfold search_patterns.
  now rewrite (bind_Ok _ _ _ _ _ (try_patterns_none child _ _ _ _ _ _ _ H)).
Qed.

Lemma match_and_capture_None pattern starting boundary parsers kw s a :
  search h (anchor s) pattern starting boundary kw = (None, a) →
  match_and_capture h pattern starting boundary parsers kw s
  = Ok ((None, EmptyString, []), {| anchor := a; log := log s |}).
Proof.
  intros H. unfold match_and_capture, handler_search. unfold mbind, St_bind, mret, St_ret.
  now rewrite H.
Qed.

Lemma match_and_capture_Some pattern starting boundary parsers kw s a matching sp :
  search h (anchor s) pattern starting boundary kw = (Some (matching, sp), a) →
  match_and_capture h pattern starting boundary parsers kw s
  = Ok ((Some sp, group matching, [Captures pattern matching parsers starting boundary kw]),
        {| anchor := a; log := log s |}).
Proof.
  intros H. unfold match_and_capture, handler_search. unfold mbind, St_bind, mret, St_ret.
  now rewrite H.
Qed.
End Rounds.

(** X20: a round of [BeginEndParser._parse] in which nothing is found (no
    pattern parses and the end pattern does not match, first without and
    then with leading characters allowed) gives up the line: [current]
    moves to the position after the end of the line, the elements gathered
    stay as they are, and a warning is logged exactly when the rest of the
    line is not empty and not all whitespace ([str.isspace]). *)
Theorem BeginEndParser_skips_line (h : ContentHandler) (store : list GrammarParser)
    (child : ref → POS → option POS → Z → kwargs → St pstate parse_result) (self : ref)
    (p : GrammarParser) (boundary : POS) (verbosity : Z) (kw : kwargs)
    (st : loop_state) (s s1 s2 : pstate) (a1 a2 : anchor_value) (n : Z) :
  let current := loop_current st in
  all_fail child current boundary (verbosity + 1) (kw_allow kw false) (loop_patterns st)
    s s1 →
  search h (anchor s1) (exp_end p) current (Some boundary) (kw_child false) = (None, a1) →
  all_fail child current boundary (verbosity + 1) (kw_allow kw true) (loop_patterns st)
    {| anchor := a1; log := log s1 |} s2 →
  search h (anchor s2) (exp_end p) current (Some boundary) (kw_child true) = (None, a2) →
  py_index (line_lengths h) current.1 = Some n →
  let line := read_line h current in
  let s3 := {| anchor := a2; log := log s2 |} in
  BeginEndParser_iteration h store child self p boundary verbosity kw st s
  = Ok (Continue {| loop_current := next h (current.1, n);
                    loop_patterns := if loop_first_run st
                                     then not_anchored store (loop_patterns st)
                                     else loop_patterns st;
                    loop_first_run := false;
                    loop_mid_elements := loop_mid_elements st;
                    loop_end_elements := [] |},
        if nonempty line && negb (isspace line)
        then logged s3 WARNING (NoPatternsInLine line) self current verbosity
        else s3).
Proof.
  intros current H1 He1 H2 He2 Hn line s3. unfold BeginEndParser_iteration.
  assert (Hfind : find_capture_and_end h child self p (loop_patterns st) current boundary
                    verbosity kw s
                  = Ok ({| found_capture := None; found_recursed := false;
                           found_end_span := None; found_end_elements := [] |}, s3)).
  { unfold find_capture_and_end.
    rewrite (bind_Ok _ _ _ _ _ (search_patterns_none child _ _ _ _ _ _ _ _ _ H1)).
    rewrite (bind_Ok _ _ _ _ _ (match_and_capture_None h _ _ _ _ _ _ _ He1)).
    rewrite (bind_Ok _ _ _ _ _ (search_patterns_none child _ _ _ _ _ _ _ _ _ H2)).
    rewrite (bind_Ok _ _ _ _ _ (match_and_capture_None h _ _ _ _ _ _ _ He2)).
    reflexivity. }
  fold current. rewrite (bind_Ok _ _ _ _ _ Hfind). unfold arbitrate.
  cbn [found_end_span found_capture]. fold line. rewrite Hn.
  unfold mbind, St_bind, mret, St_ret, LOGGER.
  destruct (nonempty line && negb (isspace line)); reflexivity.
Qed.

Lemma BeginEndParser_skips_line_witness :
  BeginEndParser_iteration Examples.a_line Examples.unclosed_store
    Examples.unclosed_child 0%nat Examples.unclosed (0, 2) 0 no_kwargs
    (first_state ((0, 0), (0, 0)) []) Examples.start
  = Ok (Continue {| loop_current := (1, 0); loop_patterns := []; loop_first_run := false;
                    loop_mid_elements := []; loop_end_elements := [] |},
        logged Examples.start WARNING (NoPatternsInLine ("a" +:+ newline)) 0%nat (0, 0) 0)
  ∧ BeginEndParser_iteration Examples.blank_line Examples.unclosed_store
      Examples.unclosed_child 0%nat Examples.unclosed (0, 3) 0 no_kwargs
      (first_state ((0, 0), (0, 0)) []) Examples.start
    = Ok (Continue {| loop_current := (1, 0); loop_patterns := [];
                      loop_first_run := false; loop_mid_elements := [];
                      loop_end_elements := [] |},
          Examples.start).
Proof.
  split.
  - exact (BeginEndParser_skips_line Examples.a_line Examples.unclosed_store
             Examples.unclosed_child 0%nat Examples.unclosed (0, 2) 0 no_kwargs
             (first_state ((0, 0), (0, 0)) []) Examples.start Examples.start
             Examples.start (AnchorInt 0) (AnchorInt 0) 2
             (all_fail_nil _ _ _ _ _ _) eq_refl (all_fail_nil _ _ _ _ _ _) eq_refl
             eq_refl).
  - exact (BeginEndParser_skips_line Examples.blank_line Examples.unclosed_store
             Examples.unclosed_child 0%nat Examples.unclosed (0, 3) 0 no_kwargs
             (first_state ((0, 0), (0, 0)) []) Examples.start Examples.start
             Examples.start (AnchorInt 0) (AnchorInt 0) 3
             (all_fail_nil _ _ _ _ _ _) eq_refl (all_fail_nil _ _ _ _ _ _) eq_refl
             eq_refl).
Defined.

(** X19: a begin/end rule without inner patterns whose end pattern matches,
    without leading characters, from the end of the begin match: the parse
    returns one block over the span from the start of the begin match to
    the end of the end match, with the captures of the two matches as its
    begin and end and no captures between them; the content runs from the
    start of the begin match to the end of the end match, or with
    [contentName] from the end of the begin match to the start of the end
    match. *)
Theorem BeginEndParser_parse_simple_block (h : ContentHandler)
    (store : list GrammarParser) lang (fuel : nat) (self : ref) (p : GrammarParser)
    (starting boundary : POS) (verbosity : Z) (kw : kwargs) (s : pstate)
    (begin_match end_match : Match) (begin_span end_span : span) (a1 a2 : anchor_value) :
  store !! self = Some p →
  class p = BeginEndParser →
  patterns p = [] →
  search h (anchor s) (exp_begin p) starting (Some boundary)
    (kw_child (default false (kw_allow_leading_all kw)))
  = (Some (begin_match, begin_span), a1) →
  pos_leb begin_span.2 boundary = true →
  search h a1 (exp_end p) begin_span.2 (Some boundary) (kw_child false)
  = (Some (end_match, end_span), a2) →
  let start := if between_content p then begin_span.2 else begin_span.1 in
  let closing := if between_content p then end_span.1 else end_span.2 in
  let begin_elements := begin_captures p begin_match starting (Some boundary) kw in
  let end_elements :=
    [Captures (exp_end p) end_match (parsers_end p) begin_span.2 (Some boundary)
       (kw_child false)] in
  ∃ s',
    _parse h store lang (S (S fuel)) self starting (Some boundary) verbosity kw s
    = Ok ((true,
           if token_set (token p)
           then [ContentBlockElement (token p) self (read_pos h start closing)
                   (range h start closing) [] begin_elements end_elements]
           else begin_elements ++ end_elements,
           Some (begin_span.1, end_span.2)), s')
    ∧ anchor s' = a2
    ∧ Forall (λ r, is_warning r = false) (drop (length (log s)) (log s')).
Proof.
  intros Hp Hc Hps Hb Hle He start closing begin_elements end_elements.
  rewrite _parse_S, Hp, Hc. unfold BeginEndParser_parse.
  rewrite (bind_Ok _ _ _ _ _ (match_and_capture_Some h _ _ _ _ _ _ _ _ _ Hb)).
  unfold LOGGER at 1. unfold mbind at 1, St_bind. unfold boundary_or_end.
  unfold mbind at 1, St_bind, mret at 1, St_ret. rewrite Hps.
  cbn [enabled_patterns]. unfold mbind at 1, St_bind, mret at 1, St_ret.
  cbn [BeginEndParser_loop loop_current]. rewrite Hle.
  unfold BeginEndParser_iteration, find_capture_and_end, search_patterns.
  cbn [loop_patterns loop_current try_patterns].
  unfold mbind, St_bind, mret, St_ret.
  unfold match_and_capture, handler_search. unfold mbind, St_bind, mret, St_ret.
  cbn [anchor]. rewrite He. unfold arbitrate. cbn [found_end_span found_capture].
  unfold BeginEndParser_finish, LOGGER, mbind, St_bind, mret, St_ret.
  cbn [loop_closing loop_end_span loop_mid loop_end closing_of found_end_elements
       loop_mid_elements fst snd anchor log].
  eexists. split; [|split].
  - unfold closing_of. fold start. fold closing. unfold begin_elements, begin_captures.
    destruct (token_set (token p)); reflexivity.
  - reflexivity.
  - cbn [log]. rewrite <- !app_assoc. rewrite drop_app_length. repeat constructor.
Qed.

Lemma BeginEndParser_parse_simple_block_witness :
  ∃ s',
    _parse Examples.tag_buffer Examples.bracket_store Examples.no_language_parse 2 0%nat (0, 0)
      (Some (0, 3)) 0 no_kwargs Examples.start
    = Ok ((true,
           [ContentBlockElement (Some "bracket"%string) 0%nat "<" [(0, 0)] []
              [Captures {| _pattern := "<" |} {| group := "<" |} [] (0, 0) (Some (0, 3))
                 (kw_child false)]
              [Captures {| _pattern := "(?=y)" |} {| group := "" |} [] (0, 1)
                 (Some (0, 3)) (kw_child false)]],
           Some ((0, 0), (0, 1))), s')
    ∧ anchor s' = AnchorPos (0, 1)
    ∧ Forall (λ r, is_warning r = false) (drop 0 (log s')).
Proof.
  exact (BeginEndParser_parse_simple_block Examples.tag_buffer Examples.bracket_store
           Examples.no_language_parse 0 0%nat _ (0, 0) (0, 3) 0 no_kwargs Examples.start
           {| group := "<" |} {| group := "" |} ((0, 0), (0, 1)) ((0, 1), (0, 1))
           (AnchorPos (0, 1)) (AnchorPos (0, 1)) eq_refl eq_refl eq_refl eq_refl eq_refl
           eq_refl).
Defined.

(** X21: in a round that found both a capture and an end match that do not
    close at the same place as C1 describes, the one that starts first
    wins: when the capture starts strictly before the end match, the
    capture is appended and the next round starts at the end of the
    capture, or at [handler.next] of it when the capture was parsed by the
    rule itself (the flag that the round sets when [parser == self]);
    otherwise the block closes at the end match and the capture is
    dropped. *)
Theorem BeginEndParser_earlier_match (h : ContentHandler) (store : list GrammarParser)
    child (self : ref) (p : GrammarParser) (boundary : POS) (verbosity : Z)
    (kw : kwargs) (st : loop_state) (s s1 : pstate) (f : found)
    (capture_elements : list element) (capture_span end_span : span) :
  find_capture_and_end h child self p (loop_patterns st) (loop_current st) boundary
    verbosity kw s = Ok (f, s1) →
  found_capture f = Some (capture_elements, capture_span) →
  found_end_span f = Some end_span →
  ¬ ((end_span.2 = capture_span.2
      ∨ (read_length h (prev h capture_span.2) 1 false = newline
         ∧ end_span.2 = prev h capture_span.2))
     ∧ (pos_leb end_span.1 capture_span.1 = true ∨ end_span.2 = end_span.1)) →
  BeginEndParser_iteration h store child self p boundary verbosity kw st s
  = Ok (if pos_ltb capture_span.1 end_span.1 then
          Continue
            {| loop_current := if found_recursed f then next h capture_span.2
                               else capture_span.2;
               loop_patterns := if loop_first_run st
                                then not_anchored store (loop_patterns st)
                                else loop_patterns st;
               loop_first_run := false;
               loop_mid_elements := loop_mid_elements st ++ capture_elements;
               loop_end_elements := found_end_elements f |}
        else
          Break (closing_of p end_span) end_span (loop_mid_elements st)
            (found_end_elements f),
        logged s1 DEBUG
          (if pos_ltb capture_span.1 end_span.1 then LeadingCapture else LeadingEnd)
          self (loop_current st) verbosity).
Proof.
  intros Hf Hc He Hnot.
  assert (Hcond : pattern_at_end h capture_span end_span
                  && (pos_leb end_span.1 capture_span.1
                      || pos_eqb end_span.2 end_span.1) = false).
  { apply not_true_is_false. intros H. apply Hnot.
    apply andb_true_iff in H as [H1 H2]. apply pattern_at_end_spec in H1.
    apply orb_true_iff in H2 as [H2|H2%pos_eqb_eq]; auto. }
  unfold BeginEndParser_iteration. rewrite (bind_Ok _ _ _ _ _ Hf).
  unfold arbitrate. rewrite Hc, He, Hcond.
  destruct (pos_ltb capture_span.1 end_span.1); reflexivity.
Qed.

(** X22: in a round that found a capture and no end match, the capture is
    appended and [current] is set: when the character after the capture is
    a newline, the end pattern is searched once more from the end of the
    capture, and [current] is the end of the capture if that search matches
    up to the position after the newline at the latest, and the position
    after the newline otherwise; when the character is no newline,
    [current] is the end of the capture.  The next round starts at
    [current], or at [handler.next] of it when the capture was parsed by
    the rule itself (the flag that the round sets when [parser == self]). *)
Theorem BeginEndParser_capture_before_newline (h : ContentHandler)
    (store : list GrammarParser) child (self : ref) (p : GrammarParser) (boundary : POS)
    (verbosity : Z) (kw : kwargs) (st : loop_state) (s s1 : pstate) (f : found)
    (capture_elements : list element) (capture_span : span)
    (again : option (Match * span)) (a : anchor_value) :
  find_capture_and_end h child self p (loop_patterns st) (loop_current st) boundary
    verbosity kw s = Ok (f, s1) →
  found_capture f = Some (capture_elements, capture_span) →
  found_end_span f = None →
  search h (anchor s1) (exp_end p) capture_span.2 (Some boundary) (kw_child false)
  = (again, a) →
  let after_newline := String.eqb (read_length h capture_span.2 1 false) newline in
  let current :=
    if after_newline then
      match again with
      | Some (_, end_span) =>
          if pos_leb end_span.2 (next h capture_span.2) then capture_span.2
          else next h capture_span.2
      | None => next h capture_span.2
      end
    else capture_span.2 in
  BeginEndParser_iteration h store child self p boundary verbosity kw st s
  = Ok (Continue
          {| loop_current := if found_recursed f then next h current else current;
             loop_patterns := if loop_first_run st
                              then not_anchored store (loop_patterns st)
                              else loop_patterns st;
             loop_first_run := false;
             loop_mid_elements := loop_mid_elements st ++ capture_elements;
             loop_end_elements := found_end_elements f |},
        if after_newline
        then {| anchor := a;
                log := log (logged s1 DEBUG CaptureNextIsNewline self (loop_current st)
                              verbosity) |}
        else logged s1 DEBUG CaptureContinue self (loop_current st) verbosity).
Proof.
  intros Hf Hc He Hs after_newline current.
  unfold BeginEndParser_iteration. rewrite (bind_Ok _ _ _ _ _ Hf).
  unfold arbitrate. rewrite Hc, He. subst current. unfold after_newline.
  destruct (String.eqb (read_length h capture_span.2 1 false) newline).
  - unfold match_and_capture, handler_search, LOGGER, mbind, St_bind, mret, St_ret.
    cbn [anchor]. rewrite Hs.
    destruct again as [[m end_span]|]; [destruct (pos_leb _ _)|]; reflexivity.
  - reflexivity.
Qed.

Lemma BeginEndParser_earlier_match_witness :
  ∃ st1 s2,
    BeginEndParser_iteration Examples.gap_buffer Examples.gap_store
      (_parse Examples.gap_buffer Examples.gap_store Examples.no_language_parse 1) 0%nat Examples.gap
      (0, 4) 0 no_kwargs (first_state ((0, 0), (0, 1)) [1%nat]) Examples.start
    = Ok (Continue st1, s2)
    ∧ loop_current st1 = (0, 2).
Proof.
  assert (E : ∃ f s1 capture_elements,
             find_capture_and_end Examples.gap_buffer
               (_parse Examples.gap_buffer Examples.gap_store Examples.no_language_parse 1) 0%nat
               Examples.gap [1%nat] (0, 1) (0, 4) 0 no_kwargs Examples.start = Ok (f, s1)
             ∧ found_capture f = Some (capture_elements, ((0, 1), (0, 2)))
             ∧ found_end_span f = Some ((0, 2), (0, 3))
             ∧ found_recursed f = false).
  { eexists _, _, _. split; [vm_compute; reflexivity|]. repeat split. }
  destruct E as (f & s1 & capture_elements & Hf & Hc & He & Hr).
  pose proof (BeginEndParser_earlier_match Examples.gap_buffer Examples.gap_store _ 0%nat Examples.gap
                (0, 4) 0 no_kwargs (first_state ((0, 0), (0, 1)) [1%nat]) Examples.start
                s1 f capture_elements ((0, 1), (0, 2)) ((0, 2), (0, 3)) Hf Hc He) as H.
  cbn [fst snd] in H. rewrite Hr in H.
  eexists _, _. split; [apply H|reflexivity].
  intros [[H1|[_ H1]] _]; discriminate H1.
Defined.

Lemma BeginEndParser_capture_before_newline_witness :
  ∃ st1 s2,
    BeginEndParser_iteration Examples.broken_tag_buffer Examples.broken_tag_store
      (_parse Examples.broken_tag_buffer Examples.broken_tag_store Examples.no_language_parse 1)
      0%nat Examples.broken_tag (1, 1) 0 no_kwargs (first_state ((0, 0), (0, 1)) [1%nat])
      Examples.start
    = Ok (Continue st1, s2)
    ∧ loop_current st1 = (0, 3).
Proof.
  assert (E : ∃ f s1 capture_elements,
             find_capture_and_end Examples.broken_tag_buffer
               (_parse Examples.broken_tag_buffer Examples.broken_tag_store
                  Examples.no_language_parse 1) 0%nat
               Examples.broken_tag [1%nat] (0, 1) (1, 1) 0 no_kwargs Examples.start = Ok (f, s1)
             ∧ found_capture f = Some (capture_elements, ((0, 1), (0, 2)))
             ∧ found_end_span f = None
             ∧ found_recursed f = false
             ∧ search Examples.broken_tag_buffer (anchor s1) (exp_end Examples.broken_tag) (0, 2)
                 (Some (1, 1)) (kw_child false) = (None, anchor s1)).
  { eexists _, _, _. split; [vm_compute; reflexivity|]. repeat split. }
  destruct E as (f & s1 & capture_elements & Hf & Hc & He & Hr & Hs).
  pose proof (BeginEndParser_capture_before_newline Examples.broken_tag_buffer
                Examples.broken_tag_store _ 0%nat Examples.broken_tag (1, 1) 0 no_kwargs
                (first_state ((0, 0), (0, 1)) [1%nat]) Examples.start s1 f
                capture_elements ((0, 1), (0, 2)) None (anchor s1) Hf Hc He Hs) as H.
  cbn [fst snd] in H. rewrite Hr in H.
  eexists _, _. split; [exact H|reflexivity].
Defined.

(** ** Repository initialization: when it succeeds *)

Lemma rewritten_attrs p p' :
  rewritten p p' →
  class p' = class p ∧ language p' = language p ∧ repository p' = repository p
  ∧ (initialized p = true → initialized p' = true).
Proof. intros [->|(ps & cs & bs & es & ->)]; auto. Qed.

Lemma rewrites_evolves g g' : rewrites g g' → evolves g g'.
Proof.
  intros H. split; [symmetry; exact (Forall2_length _ _ _ H)|].
  intros r p Hp. destruct (rewrites_lookup g g' r p H Hp) as (p' & Hp' & Hpp').
  exists p'. split; [exact Hp'|]. now apply rewritten_attrs.
Qed.

Lemma resolvable_rewrites g g' p p' sl :
  rewrites g g' → language p' = language p → resolvable g p sl → resolvable g' p' sl.
Proof.
  intros H Hl. destruct sl as [c|key|]; simpl; auto.
  intros (lang & Hlang & Hkey). exists lang. rewrite Hl. split; [exact Hlang|].
  destruct Hkey as [?|[?|(name & l & c & -> & Hlk & Hc)]]; auto.
  right. right. destruct (rewrites_lookup g g' lang l H Hlk) as (l' & Hl' & Hll').
  exists name, l', c. split_and!; auto.
  destruct (rewritten_attrs l l' Hll') as (_ & _ & -> & _). exact Hc.
Qed.

Lemma complete_rewrites g g' : complete g → rewrites g g' → complete g'.
Proof.
  intros Hc H r p' Hp' Hi.
  destruct (Forall2_lookup_r _ _ _ _ _ H Hp') as (p & Hp & [->|(ps & cs & bs & es & ->)]);
    [|discriminate Hi].
  destruct (Hc r p Hp Hi) as [Hbw Hsl]. split; [exact Hbw|].
  eapply Forall_impl; [exact Hsl|]. intros sl. now apply resolvable_rewrites.
Qed.

Lemma parser_below_good rank g k sl : parser_below rank g k sl → good_slot rank g k sl.
Proof. intros (c & -> & ? & ?). right. eauto. Qed.

Lemma parser_below_evolves rank g g' k sl :
  evolves g g' → parser_below rank g k sl → parser_below rank g' k sl.
Proof.
  intros Hev (c & -> & Hr & Hs). exists c. split_and!; auto. eapply evolves_is_Some; eauto.
Qed.

Section Total.
Variable scopes : graph → ref → string → res slot.
Variable language_init : ref → St graph unit.
Variable rank : ref → nat.

Lemma resolve_total g self q sl :
  g !! self = Some q → resolvable g q sl → slot_ok rank g self q sl →
  ∃ c, resolve scopes self sl g = Ok (Parser c, g)
       ∧ parser_below rank g (rank self) (Parser c).
Proof.
  intros Hq Hres Hok. destruct sl as [c|key|]; simpl in *.
  - exists c. split; [reflexivity|]. exists c. destruct Hok. auto.
  - destruct Hres as (lang & Hlang & Hkey).
    destruct Hok as (lang' & Hlang' & Hr & Hs & Hkey').
    assert (lang' = lang) as -> by congruence.
    unfold _find_include. rewrite (bind_Ok _ _ _ _ _ (lookup_parser_Ok g self q Hq)).
    rewrite Hlang.
    destruct Hkey as [->|[->|(name & l & c & -> & Hl & Hc)]].
    + exists lang. split; [reflexivity|]. exists lang. auto.
    + exists lang. split; [reflexivity|]. exists lang. auto.
    + rewrite bool_decide_eq_false_2 by discriminate.
      rewrite bool_decide_eq_false_2 by discriminate. simpl.
      rewrite (bind_Ok _ _ _ _ _ (lookup_parser_Ok g lang l Hl)). rewrite Hc.
      exists c. split; [reflexivity|]. exists c. split; [reflexivity|].
      destruct Hkey' as [?|[?|(name' & [= <-] & Hname)]]; try discriminate.
      exact (Hname l c Hl Hc).
  - contradiction.
Qed.

Lemma resolve_patterns_total g self q ps :
  g !! self = Some q →
  Forall (resolvable g q) ps → Forall (slot_ok rank g self q) ps →
  ∃ ps', resolve_patterns scopes self ps g = Ok (ps', g)
         ∧ Forall (parser_below rank g (rank self)) ps'.
Proof.
  intros Hq Hres. induction Hres as [|sl ps Hsl _ IH]; intros Hok.
  - exists []. split; [reflexivity|constructor].
  - apply Forall_cons in Hok as [Hok1 Hok]. destruct (IH Hok) as (ps' & Hps' & Hbelow).
    destruct (resolve_total g self q sl Hq Hsl Hok1) as (c & Hc & Hcb).
    exists (Parser c :: ps'). cbn [resolve_patterns].
    rewrite (bind_Ok _ _ _ _ _ Hc), (bind_Ok _ _ _ _ _ Hps'). split; [reflexivity|].
    constructor; auto.
Qed.

Lemma dict_set_not_None k v (d : list (Z * slot)) :
  v ≠ PyNone → Forall (λ sl, sl ≠ PyNone) d.*2 →
  Forall (λ sl, sl ≠ PyNone) (dict_set k v d).*2.
Proof.
  intros Hv. induction d as [|[k' v'] d IH]; simpl.
  - intros _. now repeat constructor.
  - intros [Hv' Hd]%Forall_cons. destruct (k' =? k); simpl; constructor; auto.
Qed.

Lemma good_not_None g k sl :
  good_slot rank g k sl → sl ≠ PyNone → parser_below rank g k sl.
Proof. intros [->|H] Hne; [contradiction|exact H]. Qed.

Section Captures.
Variable get_d : GrammarParser → list (Z * slot).
Variable set_d : list (Z * slot) → GrammarParser → GrammarParser.
Hypothesis set_attrs :
  ∀ d p, ∃ ps cs bs es, set_d d p = with_attrs p (initialized p) ps cs bs es.
Hypothesis get_set : ∀ d p, get_d (set_d d p) = d.

Lemma set_d_rewritten d p : initialized p = true → rewritten p (set_d d p).
Proof.
  intros Hi. destruct (set_attrs d p) as (ps & cs & bs & es & ->).
  now apply rewritten_with_attrs.
Qed.

Lemma set_d_language d p : language (set_d d p) = language p.
Proof. destruct (set_attrs d p) as (ps & cs & bs & es & ->). reflexivity. Qed.

(** The loop that resolves the includes of a captures dictionary
    completes, and leaves no [None] in the dictionary. *)
Lemma resolve_captures_total todo :
  ∀ g self p,
    g !! self = Some p → initialized p = true →
    Forall (resolvable g p) todo.*2 →
    Forall (slot_ok rank g self p) todo.*2 →
    Forall (λ sl, sl ≠ PyNone) (get_d p).*2 →
    ∃ g', resolve_captures scopes self get_d set_d todo g = Ok ((), g')
          ∧ rewrites g g'
          ∧ ∀ p', g' !! self = Some p' → Forall (λ sl, sl ≠ PyNone) (get_d p').*2.
Proof.
  induction todo as [|[k v] todo IH]; intros g self p Hp Hi Hres Hok Hnn.
  - exists g. split_and!; [reflexivity|apply rewrites_refl|].
    intros p' Hp'. assert (p' = p) as -> by congruence. exact Hnn.
  - rewrite fmap_cons in Hres, Hok.
    apply Forall_cons in Hres as [Hv Hres]. apply Forall_cons in Hok as [Hvok Hok].
    cbn [resolve_captures snd] in *.
    destruct v as [c|key|]; [|idtac|contradiction].
    + destruct (IH g self p Hp Hi Hres Hok Hnn) as (g' & Hg' & Hr & Hn'). exists g'.
      split_and!; auto.
    + destruct (resolve_total g self p (Include key) Hp Hv Hvok) as (c & Hc & _).
      cbn [resolve] in Hc.
      set (p1 := set_d (dict_set k (Parser c) (get_d p)) p).
      assert (Hstep : (v' ← _find_include scopes self (Some key);
                       update_parser self (λ p0, set_d (dict_set k v' (get_d p0)) p0)) g
                      = Ok ((), <[self := p1]> g)).
      { rewrite (bind_Ok _ _ _ _ _ Hc).
        apply (update_parser_Ok g self p
                 (λ p0, set_d (dict_set k (Parser c) (get_d p0)) p0) Hp). }
      rewrite (bind_Ok _ _ _ _ _ Hstep).
      assert (Hr1 : rewrites g (<[self := p1]> g)).
      { eapply rewrites_insert; [exact Hp|]. now apply set_d_rewritten. }
      destruct (IH (<[self := p1]> g) self p1) as (g' & Hg' & Hr & Hn').
      * eapply lookup_insert_self; eauto.
      * eapply rewritten_initialized; [now apply set_d_rewritten|exact Hi].
      * eapply Forall_impl; [exact Hres|]. intros sl.
        apply resolvable_rewrites; [exact Hr1|apply set_d_language].
      * eapply Forall_impl; [exact Hok|]. intros sl.
        apply slot_ok_evolves; [now apply rewrites_evolves|apply set_d_language].
      * unfold p1. rewrite get_set. apply dict_set_not_None; [discriminate|exact Hnn].
      * exists g'. split_and!; [exact Hg'| |exact Hn']. eapply rewrites_trans; eauto.
Qed.
End Captures.

Section Children.
Variable child : ref → St graph unit.
Variable bound : nat.
Hypothesis child_post : child_spec rank child.
Hypothesis child_rewrites : ∀ c g g', child c g = Ok ((), g') → rewrites g g'.
Hypothesis child_total :
  ∀ c g k pc,
    acyclic rank g → complete g → settled_below rank k g → (rank c < k)%nat →
    g !! c = Some pc → initialized pc = false → (rank c < bound)%nat →
    ∃ g1, child c g = Ok ((), g1).

Lemma initialize_children_total ps :
  ∀ g k,
    Forall (parser_below rank g k) ps →
    acyclic rank g → complete g → settled_below rank k g → (k ≤ bound)%nat →
    ∃ g', initialize_children child ps g = Ok ((), g') ∧ rewrites g g'.
Proof.
  induction ps as [|sl ps IH]; intros g k Hps Hac Hco Hset Hk.
  - exists g. split; [reflexivity|apply rewrites_refl].
  - apply Forall_cons in Hps as [(c & -> & Hr & [pc Hpc]) Hps].
    cbn [initialize_children]. unfold get at 1. rewrite (bind_Ok _ _ g g g eq_refl).
    unfold attr. rewrite Hpc. rewrite (bind_Ok _ _ g g (initialized pc) eq_refl).
    destruct (initialized pc) eqn:Hi.
    + rewrite (bind_Ok _ _ g g () eq_refl). now apply (IH g k).
    + destruct (child_total c g k pc Hac Hco Hset Hr Hpc Hi ltac:(lia)) as (g1 & Hg1).
      rewrite (bind_Ok _ _ _ _ _ Hg1).
      destruct (child_post c g g1 k pc Hac Hset Hr Hpc Hi Hg1)
        as (Hac1 & Hset1 & Hev1 & _).
      pose proof (child_rewrites c g g1 Hg1) as Hr1.
      destruct (IH g1 k) as (g' & Hg' & Hr'); auto.
      * eapply Forall_impl; [exact Hps|]. intros sl. now apply parser_below_evolves.
      * eapply complete_rewrites; eauto.
      * exists g'. split; [exact Hg'|]. eapply rewrites_trans; eauto.
Qed.
End Children.

Section Bodies.
Variable child : ref → St graph unit.
Variable bound : nat.
Hypothesis child_post : child_spec rank child.
Hypothesis child_rewrites : ∀ c g g', child c g = Ok ((), g') → rewrites g g'.
Hypothesis child_total :
  ∀ c g k pc,
    acyclic rank g → complete g → settled_below rank k g → (rank c < k)%nat →
    g !! c = Some pc → initialized pc = false → (rank c < bound)%nat →
    ∃ g1, child c g = Ok ((), g1).

(** [PatternsParser.initialize_repository] completes. *)
Lemma patterns_part_total self g p :
  acyclic rank g → complete g → settled_below rank (rank self) g →
  g !! self = Some p →
  Forall (slot_ok rank g self p) (patterns p) →
  Forall (resolvable g p) (patterns p) →
  (rank self ≤ bound)%nat →
  ∃ g1, PatternsParser_initialize_repository scopes child self g = Ok ((), g1)
        ∧ rewrites g g1.
Proof.
  intros Hac Hco Hset Hp Hpat Hrpat Hb. unfold PatternsParser_initialize_repository.
  rewrite (bind_Ok _ _ _ _ _ (update_parser_Ok g self p _ Hp)).
  set (q1 := set_initialized p). set (ga := <[self := q1]> g).
  assert (Hqa : ga !! self = Some q1) by (eapply lookup_insert_self; eauto).
  assert (Hra : rewrites g ga)
    by (eapply rewrites_insert; [exact Hp|apply rewritten_set_initialized]).
  assert (Heva : evolves g ga) by now apply rewrites_evolves.
  assert (Hfa : ∀ r, r ≠ self → ga !! r = g !! r)
    by (intros r Hr; unfold ga; now rewrite list_lookup_insert_ne by congruence).
  assert (Haca : acyclic rank ga).
  { destruct (acyclic_NoDup rank g self p Hac Hp) as (? & ? & ?).
    apply (acyclic_change rank g ga self p q1); auto.
    destruct (Hac self p Hp) as (Hsl & _).
    eapply Forall_impl; [exact Hsl|]. intros sl. now apply slot_ok_evolves. }
  assert (Hseta : settled_below rank (rank self) ga)
    by (eapply settled_below_change; eauto).
  assert (Hcoa : complete ga) by (eapply complete_rewrites; eauto).
  rewrite (bind_Ok _ _ _ _ _ (lookup_parser_Ok ga self q1 Hqa)).
  destruct (resolve_patterns_total ga self q1 (patterns q1) Hqa) as (ps & Hres & Hbelow).
  { eapply Forall_impl; [exact Hrpat|]. intros sl. now apply resolvable_rewrites. }
  { eapply Forall_impl; [exact Hpat|]. intros sl. now apply slot_ok_evolves. }
  rewrite (bind_Ok _ _ _ _ _ Hres).
  rewrite (bind_Ok _ _ _ _ _ (update_parser_Ok ga self q1 _ Hqa)).
  set (q2 := set_patterns ps q1). set (gb := <[self := q2]> ga).
  assert (Hqb : gb !! self = Some q2) by (eapply lookup_insert_self; eauto).
  assert (Hrb : rewrites ga gb).
  { eapply rewrites_insert; [exact Hqa|]. now apply rewritten_with_attrs. }
  assert (Hevb : evolves ga gb) by now apply rewrites_evolves.
  assert (Hfb : ∀ r, r ≠ self → gb !! r = ga !! r)
    by (intros r Hr; unfold gb; now rewrite list_lookup_insert_ne by congruence).
  assert (Hbelowb : Forall (parser_below rank gb (rank self)) ps).
  { eapply Forall_impl; [exact Hbelow|]. intros sl. now apply parser_below_evolves. }
  assert (Hgoodb : Forall (good_slot rank gb (rank self)) ps).
  { eapply Forall_impl; [exact Hbelowb|]. intros sl. apply parser_below_good. }
  assert (Hacb : acyclic rank gb).
  { destruct (acyclic_NoDup rank ga self q1 Haca Hqa) as (? & ? & ?).
    apply (acyclic_change rank ga gb self q1 q2); auto.
    apply used_slots_set_patterns.
    - eapply Forall_impl; [exact Hgoodb|]. intros sl. apply good_slot_ok.
    - destruct (Haca self q1 Hqa) as (Hsl & _).
      eapply Forall_impl; [exact Hsl|]. intros sl. now apply slot_ok_evolves. }
  assert (Hsetb : settled_below rank (rank self) gb)
    by (eapply settled_below_change; eauto).
  assert (Hcob : complete gb) by (eapply complete_rewrites; eauto).
  destruct (initialize_children_total child bound child_post child_rewrites child_total ps
              gb (rank self) Hbelowb Hacb Hcob Hsetb Hb) as (gc & Hchildren & Hrc).
  rewrite (bind_Ok _ _ _ _ _ Hchildren).
  destruct (initialize_children_ok rank child ps gb gc (rank self) child_post Hgoodb
              Hacb Hsetb Hchildren) as (Hacc & Hsetc & Hevc & Hfc & Hresc).
  unfold get. rewrite (bind_Ok _ _ gc gc gc eq_refl).
  assert (Hqc : gc !! self = Some q2) by (rewrite Hfc by lia; exact Hqb).
  rewrite (bind_Ok _ _ _ _ _ (lookup_parser_Ok gc self q2 Hqc)).
  assert (Hlowc : Forall (lower rank self) ps).
  { apply Forall_forall. intros sl Hsl.
    eapply good_resolved_lower.
    - eapply good_slot_evolves; [exact Hevc|]. eapply Forall_forall in Hgoodb; eauto.
    - eapply Forall_forall in Hresc; eauto. }
  rewrite (splice_flat_map (pattern_parsers gc (patterns q2)) gc self q2 Hqc eq_refl).
  - eexists. split; [reflexivity|].
    eapply rewrites_trans; [exact Hra|]. eapply rewrites_trans; [exact Hrb|].
    eapply rewrites_trans; [exact Hrc|]. eapply rewrites_insert; [exact Hqc|].
    now apply rewritten_with_attrs.
  - intros Hin. destruct (pattern_parsers_elem gc _ self Hin) as (pc & _ & _ & Hin').
    eapply Forall_forall in Hlowc; [|exact Hin'].
    destruct Hlowc as (c' & [= <-] & Hr). lia.
  - intros c pc Hc Hpc.
    destruct (pattern_parsers_elem gc _ c Hc) as (pc' & Hpc' & Hcl & Hin).
    assert (pc' = pc) as -> by congruence.
    assert (Hrank : (rank c < rank self)%nat).
    { eapply Forall_forall in Hlowc; [|exact Hin]. destruct Hlowc as (c' & [= <-] & Hr).
      exact Hr. }
    assert (Hini : initialized pc = true).
    { eapply Forall_forall in Hresc; [|exact Hin].
      destruct Hresc as (c' & pc' & [= <-] & Hpc'' & Hi). congruence. }
    destruct (Hsetc c pc Hpc Hrank Hini) as (_ & _ & Hpp). apply Hpp. now left.
Qed.

Lemma resolvable_not_None g p (d : list slot) :
  Forall (resolvable g p) d → Forall (λ sl, sl ≠ PyNone) d.
Proof.
  intros H. eapply Forall_impl; [exact H|].
  intros [c|key|]; simpl; [discriminate|discriminate|tauto].
Qed.

Lemma good_parser_below g k (d : list slot) :
  Forall (good_slot rank g k) d → Forall (λ sl, sl ≠ PyNone) d →
  Forall (parser_below rank g k) d.
Proof.
  intros Hg Hn. apply Forall_forall. intros sl Hsl.
  apply good_not_None; [eapply Forall_forall in Hg|eapply Forall_forall in Hn]; eauto.
Qed.

(** [MatchParser.initialize_repository] completes. *)
Lemma MatchParser_total self g p :
  acyclic rank g → complete g → settled_below rank (rank self) g →
  g !! self = Some p → initialized p = false → class p = MatchParser →
  (rank self ≤ bound)%nat →
  ∃ g1, MatchParser_initialize_repository scopes child self g = Ok ((), g1).
Proof.
  intros Hac Hco Hset Hp Hi Hcl Hb. unfold MatchParser_initialize_repository.
  rewrite (bind_Ok _ _ _ _ _ (update_parser_Ok g self p _ Hp)).
  destruct (set_initialized_ok rank g self p (rank self) Hac)
    as (Haca & Hseta & Heva & Hfa & Hqa); auto.
  set (q1 := set_initialized p) in *. set (ga := <[self := q1]> g) in *.
  assert (Hra : rewrites g ga)
    by (eapply rewrites_insert; [exact Hp|apply rewritten_set_initialized]).
  assert (Hcoa : complete ga) by (eapply complete_rewrites; eauto).
  rewrite (bind_Ok _ _ _ _ _ (lookup_parser_Ok ga self q1 Hqa)).
  destruct (acyclic_NoDup rank ga self q1 Haca Hqa) as (Hnd & Hndb & Hnde).
  assert (Hsl1 : Forall (slot_ok rank ga self q1) (parsers q1).*2).
  { pose proof (acyclic_used_slots rank ga self q1 Haca Hqa) as Hsl.
    unfold used_slots in Hsl. cbn [class q1 set_initialized with_attrs] in Hsl.
    rewrite Hcl in Hsl. exact Hsl. }
  assert (Hres1 : Forall (resolvable ga q1) (parsers q1).*2).
  { destruct (Hco self p Hp Hi) as [_ Hsl]. unfold used_slots in Hsl. rewrite Hcl in Hsl.
    eapply Forall_impl; [exact Hsl|]. intros sl. now apply resolvable_rewrites. }
  destruct (resolve_captures_total parsers set_parsers
              ltac:(intros; unfold set_parsers; eauto) (λ _ _, eq_refl)
              (parsers q1) ga self q1 Hqa eq_refl Hres1 Hsl1
              (resolvable_not_None _ _ _ Hres1)) as (gb & Hcap & Hrb & Hnb).
  rewrite (bind_Ok _ _ _ _ _ Hcap).
  destruct (resolve_captures_ok scopes rank parsers set_parsers (λ _ _, eq_refl)
              set_parsers_get
              (λ _ _ _, eq_refl) (λ _ _, eq_refl) (λ _ _, eq_refl) (λ _ _, eq_refl)
              (λ _ _, eq_refl) (parsers q1) [] ga gb self q1 Hqa eq_refl Hnd Hsl1 Hcap)
    as (Hevb & Hfb & d & Hqb & Hkeys & Hgoodb).
  simpl in Hqb. set (q2 := set_parsers d q1) in *.
  assert (Hacb : acyclic rank gb).
  { apply (acyclic_change rank ga gb self q1 q2); auto.
    - apply used_slots_set_parsers.
      + eapply Forall_impl; [exact Hgoodb|]. intros sl. apply good_slot_ok.
      + pose proof (acyclic_used_slots rank ga self q1 Haca Hqa) as Hsl.
        eapply Forall_impl; [exact Hsl|]. intros sl. now apply slot_ok_evolves.
    - cbn [parsers q2 set_parsers with_attrs]. now rewrite Hkeys. }
  assert (Hsetb : settled_below rank (rank self) gb)
    by (eapply settled_below_change; eauto).
  assert (Hcob : complete gb) by (eapply complete_rewrites; eauto).
  rewrite (bind_Ok _ _ _ _ _ (lookup_parser_Ok gb self q2 Hqb)).
  cbn [parsers q2 set_parsers with_attrs].
  destruct (initialize_children_total child bound child_post child_rewrites child_total
              d.*2 gb (rank self)) as (g1 & H1 & _); auto.
  - apply good_parser_below; [exact Hgoodb|]. exact (Hnb q2 Hqb).
  - exists g1. exact H1.
Qed.

(** [BeginEndParser.initialize_repository] completes. *)
Lemma BeginEndParser_total self g p :
  acyclic rank g → complete g → settled_below rank (rank self) g →
  g !! self = Some p → initialized p = false → class p = BeginEndParser →
  (rank self ≤ bound)%nat →
  ∃ g1, BeginEndParser_initialize_repository scopes child self g = Ok ((), g1).
Proof.
  intros Hac Hco Hset Hp Hi Hcl Hb. unfold BeginEndParser_initialize_repository.
  rewrite (bind_Ok _ _ _ _ _ (update_parser_Ok g self p _ Hp)).
  destruct (set_initialized_ok rank g self p (rank self) Hac)
    as (Hac0 & Hset0 & Hev0 & Hf0 & Hq0); auto.
  set (q0 := set_initialized p) in *. set (g0 := <[self := q0]> g) in *.
  assert (Hr0 : rewrites g g0)
    by (eapply rewrites_insert; [exact Hp|apply rewritten_set_initialized]).
  assert (Hco0 : complete g0) by (eapply complete_rewrites; eauto).
  destruct (Hco self p Hp Hi) as [_ Hslp]. unfold used_slots in Hslp. rewrite Hcl in Hslp.
  apply Forall_app in Hslp as [Hrp Hslp]. apply Forall_app in Hslp as [Hrb Hre].
  destruct (patterns_part_total self g0 q0 Hac0 Hco0 Hset0 Hq0) as (gA & HA & HrA); auto.
  { apply acyclic_patterns; auto. }
  { eapply Forall_impl; [exact Hrp|]. intros sl. now apply resolvable_rewrites. }
  rewrite (bind_Ok _ _ _ _ _ HA).
  destruct (patterns_part_ok scopes rank child self g0 gA q0 child_post Hac0 Hset0 Hq0) as
    (HacA & HsetA & HevA & HfA & cur & HqA & HresA & HppA & _); auto.
  { apply acyclic_patterns; auto. }
  set (qA := set_patterns cur (set_initialized q0)) in *.
  assert (HcoA : complete gA) by (eapply complete_rewrites; eauto).
  assert (Hr0A : rewrites g gA) by (eapply rewrites_trans; eauto).
  (* the end captures *)
  rewrite (bind_Ok _ _ _ _ _ (lookup_parser_Ok gA self qA HqA)).
  destruct (acyclic_NoDup rank gA self qA HacA HqA) as (HndA & HndbA & HndeA).
  pose proof (acyclic_used_slots rank gA self qA HacA HqA) as HslA.
  assert (HslA' := HslA). unfold used_slots in HslA'.
  cbn [class qA q0 set_patterns set_initialized with_attrs] in HslA'. rewrite Hcl in HslA'.
  apply Forall_app in HslA' as [_ HslA']. apply Forall_app in HslA' as [HslAb HslAe].
  assert (HreA : Forall (resolvable gA qA) (parsers_end qA).*2).
  { eapply Forall_impl; [exact Hre|]. intros sl. now apply resolvable_rewrites. }
  destruct (resolve_captures_total parsers_end set_parsers_end
              ltac:(intros; unfold set_parsers_end; eauto) (λ _ _, eq_refl)
              (parsers_end qA) gA self qA HqA eq_refl HreA HslAe
              (resolvable_not_None _ _ _ HreA)) as (gB & HB & HrB & HnB).
  rewrite (bind_Ok _ _ _ _ _ HB).
  destruct (resolve_captures_ok scopes rank parsers_end set_parsers_end (λ _ _, eq_refl)
              set_parsers_end_get (λ _ _ _, eq_refl) (λ _ _, eq_refl) (λ _ _, eq_refl)
              (λ _ _, eq_refl) (λ _ _, eq_refl) (parsers_end qA) [] gA gB self qA HqA
              eq_refl HndeA HslAe HB)
    as (HevB & HfB & de & HqB & HkeysB & HgoodB).
  simpl in HqB. set (qB := set_parsers_end de qA) in *.
  assert (HacB : acyclic rank gB).
  { apply (acyclic_change rank gA gB self qA qB); auto.
    - apply used_slots_set_parsers_end.
      + eapply Forall_impl; [exact HgoodB|]. intros sl. apply good_slot_ok.
      + eapply Forall_impl; [exact HslA|]. intros sl. now apply slot_ok_evolves.
    - cbn [parsers_end qB set_parsers_end with_attrs]. now rewrite HkeysB. }
  assert (HsetB : settled_below rank (rank self) gB)
    by (eapply settled_below_change; eauto).
  assert (HcoB : complete gB) by (eapply complete_rewrites; eauto).
  assert (HbelowB : Forall (parser_below rank gB (rank self)) de.*2).
  { apply good_parser_below; [exact HgoodB|]. exact (HnB qB HqB). }
  (* the begin captures *)
  rewrite (bind_Ok _ _ _ _ _ (lookup_parser_Ok gB self qB HqB)).
  assert (HslBb : Forall (slot_ok rank gB self qB) (parsers_begin qB).*2).
  { eapply Forall_impl; [exact HslAb|]. intros sl. now apply slot_ok_evolves. }
  assert (HrbB : Forall (resolvable gB qB) (parsers_begin qB).*2).
  { eapply Forall_impl; [exact Hrb|]. intros sl. apply resolvable_rewrites; [|reflexivity].
    eapply rewrites_trans; eauto. }
  destruct (resolve_captures_total parsers_begin set_parsers_begin
              ltac:(intros; unfold set_parsers_begin; eauto) (λ _ _, eq_refl)
              (parsers_begin qB) gB self qB HqB eq_refl HrbB HslBb
              (resolvable_not_None _ _ _ HrbB)) as (gC & HC & HrC & HnC).
  rewrite (bind_Ok _ _ _ _ _ HC).
  destruct (resolve_captures_ok scopes rank parsers_begin set_parsers_begin (λ _ _, eq_refl)
              set_parsers_begin_get (λ _ _ _, eq_refl) (λ _ _, eq_refl) (λ _ _, eq_refl)
              (λ _ _, eq_refl) (λ _ _, eq_refl) (parsers_begin qB) [] gB gC self qB HqB
              eq_refl HndbA HslBb HC)
    as (HevC & HfC & db & HqC & HkeysC & HgoodC).
  simpl in HqC. set (qC := set_parsers_begin db qB) in *.
  assert (HacC : acyclic rank gC).
  { apply (acyclic_change rank gB gC self qB qC); auto.
    - apply used_slots_set_parsers_begin.
      + eapply Forall_impl; [exact HgoodC|]. intros sl. apply good_slot_ok.
      + pose proof (acyclic_used_slots rank gB self qB HacB HqB) as HslB.
        eapply Forall_impl; [exact HslB|]. intros sl. now apply slot_ok_evolves.
    - cbn [parsers_begin qC set_parsers_begin with_attrs]. now rewrite HkeysC.
    - cbn [parsers_end qC qB set_parsers_begin set_parsers_end with_attrs].
      now rewrite HkeysB. }
  assert (HsetC : settled_below rank (rank self) gC)
    by (eapply settled_below_change; eauto).
  assert (HcoC : complete gC) by (eapply complete_rewrites; eauto).
  (* the children of the captures *)
  rewrite (bind_Ok _ _ _ _ _ (lookup_parser_Ok gC self qC HqC)).
  cbn [parsers_begin qC set_parsers_begin with_attrs].
  destruct (initialize_children_total child bound child_post child_rewrites child_total
              db.*2 gC (rank self)) as (gD & HD & HrD); auto.
  { apply good_parser_below; [exact HgoodC|]. exact (HnC qC HqC). }
  rewrite (bind_Ok _ _ _ _ _ HD).
  destruct (initialize_children_ok rank child _ gC gD (rank self) child_post HgoodC HacC
              HsetC HD) as (HacD & HsetD & HevD & HfD & HresD).
  assert (HqD : gD !! self = Some qC) by (rewrite HfD by lia; exact HqC).
  rewrite (bind_Ok _ _ _ _ _ (lookup_parser_Ok gD self qC HqD)).
  cbn [parsers_end qC qB set_parsers_begin set_parsers_end with_attrs].
  destruct (initialize_children_total child bound child_post child_rewrites child_total
              de.*2 gD (rank self)) as (g1 & H1 & _); auto.
  - eapply Forall_impl; [exact HbelowB|]. intros sl. apply parser_below_evolves.
    eapply evolves_trans; eauto.
  - eapply complete_rewrites; eauto.
  - exists g1. exact H1.
Qed.
End Bodies.

Hypothesis language_rewrites : ∀ r g g', language_init r g = Ok ((), g') → rewrites g g'.

(** [initialize_repository] completes on a parser that is not initialized,
    given fuel above its rank. *)
Lemma initialize_repository_total fuel :
  ∀ c g k pc,
    acyclic rank g → complete g → settled_below rank k g → (rank c < k)%nat →
    g !! c = Some pc → initialized pc = false → (rank c < fuel)%nat →
    ∃ g1, initialize_repository scopes language_init fuel c g = Ok ((), g1).
Proof.
  induction fuel as [|fuel IH]; intros c g k pc Hac Hco Hset Hk Hpc Hini Hf; [lia|].
  cbn [initialize_repository].
  rewrite (bind_Ok _ _ _ _ _ (lookup_parser_Ok g c pc Hpc)).
  destruct (Hac c pc Hpc) as (_ & _ & _ & _ & Hleaf).
  destruct (Hco c pc Hpc Hini) as [Hbw _].
  assert (Hset' : settled_below rank (rank c) g) by (eapply settled_below_le; eauto; lia).
  assert (Hpost := initialize_repository_spec scopes language_init rank fuel).
  assert (Hrew : ∀ c g g', initialize_repository scopes language_init fuel c g = Ok ((), g')
                           → rewrites g g').
  { intros c' g' g'' E.
    exact (outcome_Ok _ _ _ _ _ _
             (initialize_repository_outcome scopes language_init language_rewrites fuel c' g')
             E). }
  destruct (class pc) eqn:Hcl.
  - rewrite Hleaf in Hini by auto. discriminate.
  - apply (MatchParser_total _ fuel Hpost Hrew IH c g pc); auto. lia.
  - destruct (patterns_part_total _ fuel Hpost Hrew IH c g pc) as (g1 & H1 & _); eauto.
    + apply acyclic_patterns; auto.
    + destruct (Hco c pc Hpc Hini) as [_ Hsl]. unfold used_slots in Hsl.
      now rewrite Hcl in Hsl.
    + lia.
  - apply (BeginEndParser_total _ fuel Hpost Hrew IH c g pc); auto. lia.
  - congruence.
  - rewrite Hleaf in Hini by auto. discriminate.
Qed.
End Total.

(** X24: on a parser graph without include cycles, in which every parser not
    yet initialized is no BeginWhileParser and includes only the language
    itself or names that its repository has, [initialize_repository] of a
    parser that is not initialized returns: it raises nothing, and a
    recursion depth above the rank of the parser is enough. *)
Theorem initialize_repository_returns scopes language_init (rank : ref → nat)
    (fuel : nat) (g : graph) (self : ref) (p : GrammarParser) :
  (∀ r g g', language_init r g = Ok ((), g') → rewrites g g') →
  acyclic rank g → complete g →
  (∀ r q, g !! r = Some q → initialized q = true → settled g q) →
  g !! self = Some p → initialized p = false →
  (rank self < fuel)%nat →
  ∃ g1, initialize_repository scopes language_init fuel self g = Ok ((), g1).
Proof.
  intros Hlang Hac Hco Hset Hp Hi Hf.
  apply (initialize_repository_total scopes language_init rank Hlang fuel self g
           (S (rank self)) p); auto.
  intros r q Hq _ Hqi. eauto.
Qed.

Lemma acyclic_graph_complete : complete Examples.acyclic_graph.
Proof.
  intros r q Hq Hi.
  destruct r as [|[|[|[|[|r]]]]]; try discriminate Hq; injection Hq as <-;
    try discriminate Hi; (split; [discriminate|]);
    unfold used_slots; cbn [class PatternsParser_init MatchParser_init GrammarParser_init
                            patterns parsers fmap list_fmap]; repeat constructor.
  exists 0%nat. split; [reflexivity|]. right. right.
  exists "b"%string, (Examples.language_parser 0%nat []
                        {[ "a"%string := 1%nat; "b"%string := 2%nat ]}), 2%nat.
  split_and!; reflexivity.
Qed.

Lemma initialize_repository_returns_witness :
  ∃ g1, initialize_repository Examples.no_scopes Examples.no_language_init 4 1%nat
          Examples.acyclic_graph = Ok ((), g1).
Proof.
  refine (initialize_repository_returns Examples.no_scopes Examples.no_language_init
            Examples.acyclic_rank 4 Examples.acyclic_graph 1%nat _
            no_language_init_rewrites acyclic_graph_acyclic acyclic_graph_complete
            acyclic_graph_fresh eq_refl eq_refl _).
  cbn. lia.
Defined.
